(** * ddCRP clustering: link graph, merge/split bookkeeping and Gibbs weights

    A shallow embedding of
    [clustering_system/clustering/igmm/DdCrpClustering.py].

    Python integers are [Z]; Python lists are [list] read and written through
    [py_getitem] / [py_setitem] (negative indices count from the end, anything
    else raises [IndexError]); Python sets of customer indices are [gset Z];
    the likelihood cache is a [gmap] keyed by frozen sets.  Python floats are
    real numbers: rounding is not modelled, but [math.log] is partial and
    [math.exp] keeps the range of a double, overflowing to [OverflowError]
    and underflowing to [0.0].  Exceptions are values of [exn] threaded
    through the [result] monad. *)

From Stdlib Require Import ZArith Reals Lra Lia.
From stdpp Require Import base option list sets gmap relations.

Open Scope Z_scope.

(** ** Exceptions and the result monad *)

Inductive exn : Type :=
  | IndexError      (* list index out of range *)
  | KeyError        (* set.remove of an absent element *)
  | ValueError      (* math domain error *)
  | QueueEmpty      (* Queue.get_nowait on an empty queue *)
  | ZeroDivisionError
  | OverflowError   (* math range error *)
  | OutOfFuel.      (* the model's loop bound was hit; never a Python outcome *)

Inductive result (A : Type) : Type :=
  | Ok (a : A)
  | Raise (e : exn).
Arguments Ok {A} a.
Arguments Raise {A} e.

#[global] Instance result_ret : MRet result := λ A a, Ok a.
#[global] Instance result_bind : MBind result := λ A B k m,
  match m with
  | Ok a => k a
  | Raise e => Raise e
  end.

(** ** Python lists and sets *)

(** Index normalisation of [list.__getitem__]: [-len <= k < len]. *)
Definition norm_index (len : nat) (k : Z) : result nat :=
  if decide (0 ≤ k < Z.of_nat len) then Ok (Z.to_nat k)
  else if decide (- Z.of_nat len ≤ k < 0) then Ok (Z.to_nat (Z.of_nat len + k))
  else Raise IndexError.

Definition py_getitem {A} (l : list A) (k : Z) : result A :=
  n ← norm_index (length l) k;
  match l !! n with
  | Some x => Ok x
  | None => Raise IndexError
  end.

Definition py_setitem {A} (l : list A) (k : Z) (v : A) : result (list A) :=
  n ← norm_index (length l) k;
  Ok (<[n := v]> l).

(** [set.remove(x)]: raises [KeyError] when [x] is absent. *)
Definition set_remove (s : gset Z) (x : Z) : result (gset Z) :=
  if decide (x ∈ s) then Ok (s ∖ {[x]}) else Raise KeyError.

(** [0 <= k < n]: a customer index of a system holding [n] customers. *)
Definition in_range (n : nat) (k : Z) : Prop := 0 ≤ k < Z.of_nat n.

#[global] Instance in_range_dec n k : Decision (in_range n k).
Proof. unfold in_range. apply _. Defined.

(** ** The external mixture model *)

(** The calls the clustering makes on [self.mixture], in program order. *)
Inductive mix_call : Type :=
  | NewVector (cluster : Z)
  | Merge (surviving absorbed : Z)
  | Split (old new : Z) (moved : gset Z).

(** Modelled from the spec: the mixture collaborator (GaussianMixture, not in
    src).  Only its cluster-id array [z] and its marginal log-likelihood are
    visible to the clustering; feature vectors and sufficient statistics stay
    inside it.  [mix_calls] records the calls received. *)
Record Mixture : Type := {
  z : list Z;
  get_marginal_likelihood : gset Z → R;
  mix_calls : list mix_call
}.

(** Modelled from the spec: [newVector(vector, clusterId)] registers a new
    observation under cluster [clusterId]. *)
Definition new_vector (m : Mixture) (cluster : Z) : Mixture :=
  {| z := z m ++ [cluster];
     get_marginal_likelihood := get_marginal_likelihood m;
     mix_calls := mix_calls m ++ [NewVector cluster] |}.

(** Modelled from the spec: [merge(survivingId, absorbedId)] moves all members
    of [absorbedId] into [survivingId]. *)
Definition merge (m : Mixture) (surviving absorbed : Z) : Mixture :=
  {| z := (λ k, if decide (k = absorbed) then surviving else k) <$> z m;
     get_marginal_likelihood := get_marginal_likelihood m;
     mix_calls := mix_calls m ++ [Merge surviving absorbed] |}.

(** Modelled from the spec: [split(oldId, newId, movedMembers)] moves exactly
    [movedMembers] to [newId]. *)
Definition split (m : Mixture) (old new : Z) (moved : gset Z) : Mixture :=
  {| z := imap (λ j k, if decide (Z.of_nat j ∈ moved) then new else k) (z m);
     get_marginal_likelihood := get_marginal_likelihood m;
     mix_calls := mix_calls m ++ [Split old new moved] |}.

(** ** The clustering object *)

(** The attributes of a [DdCrpClustering] instance: [self_x] is [self.x]. *)
Record DdCrp : Type := {
  self_alpha : R;                          (* hyperparameter of self assignment *)
  self_f : R → result R;                        (* decay function *)
  self_K_max : Z;
  self_K : Z;                              (* number of tables *)
  self_N : Z;                              (* number of customers *)
  self_ids : list Z;
  self_reusable_numbers : list Z;          (* FIFO queue of free cluster ids *)
  self_mixture : Mixture;
  self_g : list (gset Z);                  (* undirected graph *)
  self_c : list Z;                         (* customer assignments *)
  self_timestamps : list R;
  self_likelihood_cache : gmap (gset Z) R
}.

Definition set_K (v : Z) (st : DdCrp) : DdCrp :=
  {| self_alpha := self_alpha st; self_f := self_f st;
     self_K_max := self_K_max st; self_K := v; self_N := self_N st;
     self_ids := self_ids st;
     self_reusable_numbers := self_reusable_numbers st;
     self_mixture := self_mixture st; self_g := self_g st;
     self_c := self_c st; self_timestamps := self_timestamps st;
     self_likelihood_cache := self_likelihood_cache st |}.

Definition set_N (v : Z) (st : DdCrp) : DdCrp :=
  {| self_alpha := self_alpha st; self_f := self_f st;
     self_K_max := self_K_max st; self_K := self_K st; self_N := v;
     self_ids := self_ids st;
     self_reusable_numbers := self_reusable_numbers st;
     self_mixture := self_mixture st; self_g := self_g st;
     self_c := self_c st; self_timestamps := self_timestamps st;
     self_likelihood_cache := self_likelihood_cache st |}.

Definition set_ids (v : list Z) (st : DdCrp) : DdCrp :=
  {| self_alpha := self_alpha st; self_f := self_f st;
     self_K_max := self_K_max st; self_K := self_K st; self_N := self_N st;
     self_ids := v;
     self_reusable_numbers := self_reusable_numbers st;
     self_mixture := self_mixture st; self_g := self_g st;
     self_c := self_c st; self_timestamps := self_timestamps st;
     self_likelihood_cache := self_likelihood_cache st |}.

Definition set_reusable_numbers (v : list Z) (st : DdCrp) : DdCrp :=
  {| self_alpha := self_alpha st; self_f := self_f st;
     self_K_max := self_K_max st; self_K := self_K st; self_N := self_N st;
     self_ids := self_ids st;
     self_reusable_numbers := v;
     self_mixture := self_mixture st; self_g := self_g st;
     self_c := self_c st; self_timestamps := self_timestamps st;
     self_likelihood_cache := self_likelihood_cache st |}.

Definition set_mixture (v : Mixture) (st : DdCrp) : DdCrp :=
  {| self_alpha := self_alpha st; self_f := self_f st;
     self_K_max := self_K_max st; self_K := self_K st; self_N := self_N st;
     self_ids := self_ids st;
     self_reusable_numbers := self_reusable_numbers st;
     self_mixture := v; self_g := self_g st;
     self_c := self_c st; self_timestamps := self_timestamps st;
     self_likelihood_cache := self_likelihood_cache st |}.

Definition set_g (v : list (gset Z)) (st : DdCrp) : DdCrp :=
  {| self_alpha := self_alpha st; self_f := self_f st;
     self_K_max := self_K_max st; self_K := self_K st; self_N := self_N st;
     self_ids := self_ids st;
     self_reusable_numbers := self_reusable_numbers st;
     self_mixture := self_mixture st; self_g := v;
     self_c := self_c st; self_timestamps := self_timestamps st;
     self_likelihood_cache := self_likelihood_cache st |}.

Definition set_c (v : list Z) (st : DdCrp) : DdCrp :=
  {| self_alpha := self_alpha st; self_f := self_f st;
     self_K_max := self_K_max st; self_K := self_K st; self_N := self_N st;
     self_ids := self_ids st;
     self_reusable_numbers := self_reusable_numbers st;
     self_mixture := self_mixture st; self_g := self_g st;
     self_c := v; self_timestamps := self_timestamps st;
     self_likelihood_cache := self_likelihood_cache st |}.

Definition set_timestamps (v : list R) (st : DdCrp) : DdCrp :=
  {| self_alpha := self_alpha st; self_f := self_f st;
     self_K_max := self_K_max st; self_K := self_K st; self_N := self_N st;
     self_ids := self_ids st;
     self_reusable_numbers := self_reusable_numbers st;
     self_mixture := self_mixture st; self_g := self_g st;
     self_c := self_c st; self_timestamps := v;
     self_likelihood_cache := self_likelihood_cache st |}.

Definition set_likelihood_cache (v : gmap (gset Z) R) (st : DdCrp) : DdCrp :=
  {| self_alpha := self_alpha st; self_f := self_f st;
     self_K_max := self_K_max st; self_K := self_K st; self_N := self_N st;
     self_ids := self_ids st;
     self_reusable_numbers := self_reusable_numbers st;
     self_mixture := self_mixture st; self_g := self_g st;
     self_c := self_c st; self_timestamps := self_timestamps st;
     self_likelihood_cache := v |}.

(** Modelled from the spec: [_get_new_cluster_number] (GibbsClusteringABC, not
    in src) draws a cluster id from the pool of reusable ids.  The spec leaves
    the policy on an exhausted pool open; here the draw raises, as
    [Queue.get_nowait] does. *)
Definition _get_new_cluster_number (st : DdCrp) : result (Z * DdCrp) :=
  match self_reusable_numbers st with
  | [] => Raise QueueEmpty
  | k :: rest => Ok (k, set_reusable_numbers rest st)
  end.

(** [self.reusable_numbers.put_nowait(k)] *)
Definition put_nowait (k : Z) (st : DdCrp) : DdCrp :=
  set_reusable_numbers (self_reusable_numbers st ++ [k]) st.

(** ** Split detection: [DdCrpClustering._is_table_split] *)

(** The [while c not in visited] loop; [fuel] bounds its iterations. *)
Fixpoint split_loop (fuel : nat) (cs : list Z) (i : Z)
    (visited : gset Z) (c : Z) : result bool :=
  match fuel with
  | O => Raise OutOfFuel
  | S fuel' =>
      if decide (c ∈ visited) then Ok true
      else
        let visited' := {[c]} ∪ visited in
        c' ← py_getitem cs c;
        if decide (c' = i) then Ok false
        else split_loop fuel' cs i visited' c'
  end.

Definition _is_table_split (st : DdCrp) (i : Z) : result bool :=
  c ← py_getitem (self_c st) i;
  if decide (c = i) then Ok false
  else
    c_c ← py_getitem (self_c st) c;
    if decide (i = c_c) then Ok false
    else
      c ← py_getitem (self_c st) i;
      split_loop (S (length (self_c st))) (self_c st) i {[i]} c.

(** ** Component traversal: [DdCrpClustering._get_people_next_to] *)

(** The [while len(stack) > 0] loop.  The head of [stack] is the element
    [stack.pop()] returns; [stack.extend] of a set pushes its elements in the
    set's iteration order, which Python leaves unspecified. *)
Fixpoint people_loop (fuel : nat) (gs : list (gset Z))
    (visited : gset Z) (stack : list Z) : result (gset Z) :=
  match fuel with
  | O => Raise OutOfFuel
  | S fuel' =>
      match stack with
      | [] => Ok visited
      | c :: stack' =>
          if decide (c ∈ visited) then people_loop fuel' gs visited stack'
          else
            let visited' := {[c]} ∪ visited in
            g_c ← py_getitem gs c;
            people_loop fuel' gs visited' (elements (g_c ∖ visited') ++ stack')
      end
  end.

(** Iterations that always suffice on a graph of [n] vertices. *)
Definition people_fuel (n : nat) : nat := S (S (n * S n)).

Definition _get_people_next_to (st : DdCrp) (c : Z) : result (gset Z) :=
  people_loop (people_fuel (length (self_g st))) (self_g st) ∅ [c].

(** ** Link mutation: [_add_assignment] and [_remove_assignment] *)

(** The block under "If we have to join tables". *)
Definition join_tables (st : DdCrp) (z_i z_c : Z) : DdCrp :=
  if decide (z_i ≠ z_c) then
    let '(table_to_join, table_no) :=
      if decide (z_i > z_c) then (z_i, z_c) else (z_c, z_i) in
    let st := put_nowait table_to_join st in
    let st := set_K (self_K st - 1) st in
    set_mixture (merge (self_mixture st) table_no table_to_join) st
  else st.

Definition _add_assignment (st : DdCrp) (i c : Z) : result DdCrp :=
  z_i ← py_getitem (z (self_mixture st)) i;
  z_c ← py_getitem (z (self_mixture st)) c;
  let st := join_tables st z_i z_c in
  cs ← py_setitem (self_c st) i c;
  let st := set_c cs st in
  g_i ← py_getitem (self_g st) i;
  gs ← py_setitem (self_g st) i ({[c]} ∪ g_i);
  let st := set_g gs st in
  g_c ← py_getitem (self_g st) c;
  gs ← py_setitem (self_g st) c ({[i]} ∪ g_c);
  Ok (set_g gs st).

(** The three-way update of the undirected graph in [_remove_assignment]. *)
Definition remove_link (gs : list (gset Z)) (i c c_c : Z)
    : result (list (gset Z)) :=
  if decide (c = i) then
    g_i ← py_getitem gs i;
    g_i ← set_remove g_i i;
    py_setitem gs i g_i
  else if decide (c_c = i) then Ok gs
  else
    g_i ← py_getitem gs i;
    g_i ← set_remove g_i c;
    gs ← py_setitem gs i g_i;
    g_c ← py_getitem gs c;
    g_c ← set_remove g_c i;
    py_setitem gs c g_c.

Definition _remove_assignment (st : DdCrp) (i : Z) : result DdCrp :=
  is_split ← _is_table_split st i;
  c ← py_getitem (self_c st) i;
  c_c ← py_getitem (self_c st) c;
  gs ← remove_link (self_g st) i c c_c;
  let st := set_g gs st in
  cs ← py_setitem (self_c st) i (-1);
  let st := set_c cs st in
  if is_split : bool then
    '(new_table_no, st) ← _get_new_cluster_number st;
    z_i ← py_getitem (z (self_mixture st)) i;
    people ← _get_people_next_to st i;
    let st := set_mixture (split (self_mixture st) z_i new_table_no people) st in
    Ok (set_K (self_K st + 1) st)
  else Ok st.

(** ** Decay kernels *)

(** [math.log]: a [ValueError] outside the positive reals. *)
Definition math_log (x : R) : result R :=
  if Rlt_dec 0 x then Ok (ln x) else Raise ValueError.

(** The least value that rounds above the largest double, and the largest
    value that rounds to [0.0]. *)
Definition exp_overflow : R := (2 ^ 1024 - 2 ^ 970)%R.
Definition exp_underflow : R := (/ 2 ^ 1075)%R.

(** [math.exp]: an [OverflowError] when the result is out of the range of a
    double, [0.0] when it underflows. *)
Definition math_exp (x : R) : result R :=
  if Rle_dec exp_overflow (exp x) then Raise OverflowError
  else if Rle_dec (exp x) exp_underflow then Ok 0%R
  else Ok (exp x).

(** [math.exp(-d / a)] *)
Definition exponential_decay (d a : R) : result R :=
  if Req_dec_T a 0 then Raise ZeroDivisionError else math_exp (- d / a).

(** [1 if d < a else 0] *)
Definition window_decay (d a : R) : result R :=
  Ok (if Rlt_dec d a then 1%R else 0%R).

(** [math.exp(-d + a) / (1 + math.exp(-d + a))] *)
Definition logistic_decay (d a : R) : result R :=
  e ← math_exp (- d + a);
  e' ← math_exp (- d + a);
  Ok (e / (1 + e'))%R.

(** ** Assignment weights *)

(** One [if members in self.likelihood_cache ... else ...] block of
    [_likelihood_under_z]. *)
Definition cached_likelihood (st : DdCrp) (members : gset Z) : R * DdCrp :=
  match self_likelihood_cache st !! members with
  | Some v => (v, st)
  | None =>
      let v := get_marginal_likelihood (self_mixture st) members in
      (v, set_likelihood_cache (<[members := v]> (self_likelihood_cache st)) st)
  end.

Definition _likelihood_under_z (st : DdCrp) (i c : Z) : result (R * DdCrp) :=
  table_k_members ← _get_people_next_to st i;
  table_l_members ← _get_people_next_to st c;
  let table_kl_members := table_k_members ∪ table_l_members in
  let '(table_k, st) := cached_likelihood st table_k_members in
  let '(table_l, st) := cached_likelihood st table_l_members in
  let '(table_kl, st) := cached_likelihood st table_kl_members in
  Ok ((table_kl - table_k - table_l)%R, st).

Definition _assignment_probability (st : DdCrp) (i c : Z)
    : result (R * DdCrp) :=
  if decide (i = c) then
    w ← math_log (self_alpha st);
    Ok (w, st)
  else
    t_i ← py_getitem (self_timestamps st) i;
    t_c ← py_getitem (self_timestamps st) c;
    let d := Rabs (t_i - t_c) in
    z_i ← py_getitem (z (self_mixture st)) i;
    z_c ← py_getitem (z (self_mixture st)) c;
    if decide (z_i = z_c) then
      w ← self_f st d;
      w ← math_log w;
      Ok (w, st)
    else
      w ← self_f st d;
      w ← math_log w;
      '(l, st) ← _likelihood_under_z st i c;
      Ok ((w + l)%R, st).

(** [range(n)] *)
Definition py_range (n : Z) : list Z := Z.of_nat <$> seq 0 (Z.to_nat n).

(** The [for c in range(self.N)] loop of [_get_assignment_probabilities]. *)
Fixpoint probabilities_loop (st : DdCrp) (i : Z) (cands : list Z)
    : result (list (Z * R) * DdCrp) :=
  match cands with
  | [] => Ok ([], st)
  | c :: cands' =>
      '(prob, st) ← _assignment_probability st i c;
      '(probabilities, st) ← probabilities_loop st i cands';
      Ok ((c, prob) :: probabilities, st)
  end.

Definition _get_assignment_probabilities (st : DdCrp) (i : Z)
    : result (list (Z * R) * DdCrp) :=
  probabilities_loop st i (py_range (self_N st)).

(** ** The Gibbs step: [_sample_document] *)

Definition Rsum (l : list R) : R := foldr Rplus 0%R l.

(** [numpy.amax] of a non-empty array. *)
Definition amax (a : list R) : R :=
  match a with
  | [] => 0%R
  | x :: xs => foldl Rmax x xs
  end.

(** [scipy.misc.logsumexp]: [log(sum(exp(a - a_max))) + a_max]. *)
Definition logsumexp (a : list R) : R :=
  let a_max := amax a in
  (ln (Rsum ((λ x, exp (x - a_max)) <$> a)) + a_max)%R.

(** The three lines under "Convert indexed log probabilities to
    probabilities (softmax)".  Unpacking the transposed empty list into two
    names raises [ValueError]. *)
Definition softmax_indexed (probabilities : list (Z * R))
    : result (list (Z * R)) :=
  match probabilities with
  | [] => Raise ValueError
  | _ =>
      let ids := fst <$> probabilities in
      let logs := snd <$> probabilities in
      let lse := logsumexp logs in
      Ok (zip ids ((λ x, exp (x - lse)) <$> logs))
  end.

(** The distribution [_sample_document] hands to [draw_indexed], with the
    state in which the draw takes place. *)
Definition sampling_distribution (st : DdCrp) (i : Z)
    : result (list (Z * R) * DdCrp) :=
  st ← _remove_assignment st i;
  '(probabilities, st) ← _get_assignment_probabilities st i;
  probabilities ← softmax_indexed probabilities;
  Ok (probabilities, st).

(** [draw_indexed] (clustering_system.utils, not in src) consumes randomness;
    it is an argument here. *)
Definition _sample_document (draw_indexed : list (Z * R) → Z)
    (st : DdCrp) (i : Z) : result DdCrp :=
  '(probabilities, st) ← sampling_distribution st i;
  let c := draw_indexed probabilities in
  _add_assignment st i c.

(** ** Ingestion: [add_documents] *)

(** One iteration of the loop of [add_documents] for the metadata
    [(doc_id, timestamp)]; [r] is the value [random.randint(0, i)] returns
    should it be called. *)
Definition add_document (st : DdCrp) (doc_id : Z) (timestamp : R) (r : Z)
    : result DdCrp :=
  let st := set_ids (self_ids st ++ [doc_id]) st in
  let i := self_N st in
  let st := set_c (self_c st ++ [i]) st in
  let st := set_g (self_g st ++ [{[i]}]) st in
  '(k, st) ← _get_new_cluster_number st;
  let st := set_mixture (new_vector (self_mixture st) k) st in
  let st := set_N (self_N st + 1) st in
  let st := set_K (self_K st + 1) st in
  st ← (if decide (self_N st > self_K_max st) then
          st ← _remove_assignment st i;
          _add_assignment st i r
        else Ok st);
  Ok (set_timestamps (self_timestamps st ++ [(timestamp / 86400)%R]) st).

Fixpoint add_documents (st : DdCrp) (docs : list (Z * R * Z)) : result DdCrp :=
  match docs with
  | [] => Ok st
  | (doc_id, timestamp, r) :: docs' =>
      st ← add_document st doc_id timestamp r;
      add_documents st docs'
  end.

(** The object [__init__] builds.  Modelled from the spec: the pool of
    reusable ids initially holds [0 .. K_max - 1]. *)
Definition init (K : Z) (alpha : R) (decay_function : R → result R)
    (marginal : gset Z → R) : DdCrp :=
  {| self_alpha := alpha; self_f := decay_function;
     self_K_max := K; self_K := 0; self_N := 0; self_ids := [];
     self_reusable_numbers := py_range K;
     self_mixture := {| z := []; get_marginal_likelihood := marginal;
                        mix_calls := [] |};
     self_g := []; self_c := []; self_timestamps := [];
     self_likelihood_cache := ∅ |}.

(** ** Notions used in the statements *)

(** The target customer [x] points to; [-1] (unassigned) off the array. *)
Definition link (cs : list Z) (x : Z) : Z := default (-1) (cs !! Z.to_nat x).

(** [follow cs k x] is [x] after [k] steps along the functional edges. *)
Definition follow (cs : list Z) (k : nat) (x : Z) : Z := Nat.iter k (link cs) x.

(** [b] is in the adjacency set stored for customer [a]. *)
Definition adj (gs : list (gset Z)) (a b : Z) : Prop :=
  0 ≤ a ∧ ∃ s, gs !! Z.to_nat a = Some s ∧ b ∈ s.

(** Connectivity in the link graph. *)
Definition connected (gs : list (gset Z)) : Z → Z → Prop := rtc (adj gs).

(** The customer indices [0 .. n-1] as a set. *)
Definition universe (n : nat) : gset Z := list_to_set (Z.of_nat <$> seq 0 n).

(** Every customer of [cs] has an active link to a customer. *)
Definition all_assigned (cs : list Z) : Prop :=
  Forall (in_range (length cs)) cs.

(** Every stored neighbour is a customer index. *)
Definition graph_closed (gs : list (gset Z)) : Prop :=
  Forall (set_Forall (in_range (length gs))) gs.

(** Every entry of [cs] is a customer or the unassigned mark [-1]. *)
Definition links_valid (cs : list Z) : Prop :=
  Forall (λ x, x = -1 ∨ in_range (length cs) x) cs.

(** [gs] is the undirected graph induced by the links of [cs]: [b] is stored
    as a neighbour of [a] exactly when one of the two points to the other. *)
Definition graph_of_links (cs : list Z) (gs : list (gset Z)) : Prop :=
  length gs = length cs ∧
  ∀ k s, gs !! k = Some s →
    ∀ b, b ∈ s ↔ in_range (length cs) b ∧
                  (link cs (Z.of_nat k) = b ∨ link cs b = Z.of_nat k).

(** The connected components of [gs] are the classes of equal cluster id. *)
Definition partition_matches (gs : list (gset Z)) (zs : list Z) : Prop :=
  ∀ a b, in_range (length gs) a → in_range (length gs) b →
    (connected gs a b ↔ zs !! Z.to_nat a = zs !! Z.to_nat b).

(** No id waiting in the pool labels a customer, and none waits twice. *)
Definition pool_fresh (pool zs : list Z) : Prop :=
  NoDup pool ∧ ∀ k, k ∈ pool → k ∉ zs.

(** The state between two link mutations. *)
Record consistent (st : DdCrp) : Prop := {
  cons_N : self_N st = Z.of_nat (length (self_c st));
  cons_z : length (z (self_mixture st)) = length (self_c st);
  cons_links : links_valid (self_c st);
  cons_graph : graph_of_links (self_c st) (self_g st);
  cons_partition : partition_matches (self_g st) (z (self_mixture st));
  cons_pool : pool_fresh (self_reusable_numbers st) (z (self_mixture st))
}.

(** Customer [i] has no active link; every other customer has one. *)
Definition unassigned_only (cs : list Z) (i : Z) : Prop :=
  in_range (length cs) i ∧
  ∀ k x, cs !! k = Some x → if decide (Z.of_nat k = i) then x = -1
                             else in_range (length cs) x.

(** Every cached value is the marginal log-likelihood of its key. *)
Definition cache_sound (st : DdCrp) : Prop :=
  ∀ members v, self_likelihood_cache st !! members = Some v →
    v = get_marginal_likelihood (self_mixture st) members.

#[global] Instance all_assigned_dec cs : Decision (all_assigned cs).
Proof. unfold all_assigned. apply _. Defined.

#[global] Instance graph_closed_dec gs : Decision (graph_closed gs).
Proof. unfold graph_closed. apply _. Defined.

(** ** Example runs *)

(** Whether a run returned. *)
Definition succeeds {A} (r : result A) : bool :=
  match r with
  | Ok _ => true
  | Raise _ => false
  end.

(** The state a run ends in, or [d] if it raised. *)
Definition run (r : result DdCrp) (d : DdCrp) : DdCrp :=
  match r with
  | Ok st => st
  | Raise _ => d
  end.

(** A clustering with room for four tables, [alpha = 1], exponential decay of
    rate 1 and a constant marginal likelihood. *)
Definition example_start : DdCrp :=
  init 4 1%R (λ d, exponential_decay d 1%R) (λ _, 0%R).

(** One customer. *)
Definition example_one : DdCrp :=
  run (add_document example_start 10 0%R 0) example_start.

(** [example_one] with the link of customer 0 removed. *)
Definition example_one_open : DdCrp :=
  run (_remove_assignment example_one 0) example_start.

(** Three customers, one day apart, each at a table of its own. *)
Definition example_two : DdCrp :=
  run (add_document example_one 11 86400%R 0) example_start.

Definition example_singles : DdCrp :=
  run (add_document example_two 12 172800%R 0) example_start.

(** Customer 1 then links to 0 and customer 2 to 1: one table, with
    [c = [0; 0; 1]]. *)
Definition example_open1 : DdCrp :=
  run (_remove_assignment example_singles 1) example_start.

Definition example_pair : DdCrp :=
  run (_add_assignment example_open1 1 0) example_start.

Definition example_open2 : DdCrp :=
  run (_remove_assignment example_pair 2) example_start.

Definition example_chain : DdCrp :=
  run (_add_assignment example_open2 2 1) example_start.

(** [example_chain] with the link of customer 2 removed: a split. *)
Definition example_split : DdCrp :=
  run (_remove_assignment example_chain 2) example_start.

(** Two customers two days apart under a window decay of width 1, the link
    of customer 0 removed. *)
Definition example_window : DdCrp :=
  run (st ← add_document
              (init 4 1%R (λ d, window_decay d 1%R) (λ _, 0%R)) 10 0%R 0;
       add_document st 11 172800%R 0) example_start.

Definition example_window_open : DdCrp :=
  run (_remove_assignment example_window 0) example_start.

(** A clustering with room for two tables whose two customers share a table,
    so that one cluster id is free again. *)
Definition example_full : DdCrp :=
  run (st ← add_document
              (init 2 1%R (λ d, exponential_decay d 1%R) (λ _, 0%R)) 10 0%R 0;
       st ← add_document st 11 86400%R 0;
       st ← _remove_assignment st 1;
       _add_assignment st 1 0) example_start.

(** A third customer arrives at [example_full] and [random.randint(0, 2)]
    returns 2. *)
Definition example_overflow : DdCrp :=
  run (add_document example_full 12 172800%R 2) example_start.

(** ** Iteration: [__iter__] *)

(** [zip(self.ids, self.mixture.z, self.c)] *)
Definition zip3 (ids zs cs : list Z) : list (Z * Z * Z) :=
  zip (zip ids zs) cs.

(** The items [list(self)] collects; a failing index raises. *)
Fixpoint iter_loop (ids : list Z) (items : list (Z * Z * Z))
    : result (list (Z * Z * Z)) :=
  match items with
  | [] => Ok []
  | (doc_id, cluster_id, c_i) :: items' =>
      linked ← py_getitem ids c_i;
      rest ← iter_loop ids items';
      Ok ((doc_id, cluster_id, linked) :: rest)
  end.

Definition __iter__ (st : DdCrp) : result (list (Z * Z * Z)) :=
  iter_loop (self_ids st)
    (zip3 (self_ids st) (z (self_mixture st)) (self_c st)).

(** The number of distinct cluster ids in use. *)
Definition tables (zs : list Z) : nat := size (list_to_set zs : gset Z).

(** [K] counts the tables and every customer has a document id. *)
Record counted (st : DdCrp) : Prop := {
  counted_K : self_K st = Z.of_nat (tables (z (self_mixture st)));
  counted_ids : length (self_ids st) = length (self_c st)
}.

(** The two labellings put the same customers together. *)
Definition same_partition (zs zs' : list Z) : Prop :=
  length zs = length zs' ∧
  ∀ a b, (a < length zs)%nat → (b < length zs)%nat →
    (zs !! a = zs !! b ↔ zs' !! a = zs' !! b).

(** [st'] differs from [st] at most in the links, the graph and the cluster
    bookkeeping: hyperparameters, customer count, document ids, timestamps
    and likelihood cache are those of [st]. *)
Definition same_setting (st st' : DdCrp) : Prop :=
  self_alpha st' = self_alpha st ∧ self_f st' = self_f st ∧
  self_K_max st' = self_K_max st ∧ self_N st' = self_N st ∧
  self_ids st' = self_ids st ∧ self_timestamps st' = self_timestamps st ∧
  self_likelihood_cache st' = self_likelihood_cache st.

(** Each draw [r] that accompanies a document is a value
    [random.randint(0, i)] can return for the index [i] the document gets,
    [n] being the index of the first one. *)
Definition draws_in_range (n : Z) (docs : list (Z * R * Z)) : Prop :=
  ∀ k d, docs !! k = Some d → 0 ≤ d.2 ≤ n + Z.of_nat k.

(** [st'] is [st] with a likelihood cache that has kept every entry of the
    cache of [st]. *)
Definition cache_extends (st st' : DdCrp) : Prop :=
  st' = set_likelihood_cache (self_likelihood_cache st') st ∧
  self_likelihood_cache st ⊆ self_likelihood_cache st'.

(** The states the public operations reach from a new object: ingestion of
    batches and Gibbs steps whose draw is one of the listed candidates. *)
Inductive reachable : DdCrp → Prop :=
  | reach_init K alpha decay_function marginal :
      reachable (init K alpha decay_function marginal)
  | reach_add_documents st st' docs :
      reachable st → draws_in_range (self_N st) docs →
      add_documents st docs = Ok st' → reachable st'
  | reach_sample_document draw_indexed st st' i :
      reachable st → in_range (length (self_c st)) i →
      (∀ ps, ps ≠ [] → draw_indexed ps ∈ fst <$> ps) →
      _sample_document draw_indexed st i = Ok st' → reachable st'.

(** [example_split] with customer 2 linked to customer 0: the two tables are
    joined again. *)
Definition example_rejoined : DdCrp :=
  run (_add_assignment example_split 2 0) example_start.

(** A fourth customer arrives at [example_chain] and takes the last seat the
    capacity allows. *)
Definition example_four : DdCrp :=
  run (add_document example_chain 13 259200%R 0) example_start.

(** A draw that returns the first candidate. *)
Definition draw_first (ps : list (Z * R)) : Z :=
  match ps with
  | [] => 0
  | p :: _ => p.1
  end.

(** A batch of three documents, one day apart, with the draws
    [random.randint] would return. *)
Definition example_batch : list (Z * R * Z) :=
  [(10, 0%R, 0); (11, 86400%R, 0); (12, 172800%R, 0)].

(** The decay function returns a positive weight at the distance between
    any two stored timestamps. *)
Definition decay_positive (st : DdCrp) : Prop :=
  ∀ t_i t_c, t_i ∈ self_timestamps st → t_c ∈ self_timestamps st →
    ∃ w, self_f st (Rabs (t_i - t_c)) = Ok w ∧ (0 < w)%R.

(** [example_start] with the constant decay function [lambda d: 1.0], and the
    three customers of [example_batch] in it. *)
Definition example_flat_start : DdCrp :=
  init 4 1%R (λ _, Ok 1%R) (λ _, 0%R).

Definition example_flat_singles : DdCrp :=
  run (add_documents example_flat_start example_batch) example_flat_start.

(** The state after the unconditional part of one iteration of
    [add_documents]: the new customer is self-linked at a table of its own,
    [k] being the cluster id drawn from the pool and [rest] the pool left. *)
Definition seated (st : DdCrp) (doc_id k : Z) (rest : list Z) : DdCrp :=
  set_K (self_K st + 1)
    (set_N (self_N st + 1)
       (set_mixture (new_vector (self_mixture st) k)
          (set_reusable_numbers rest
             (set_g (self_g st ++ [{[self_N st]}])
                (set_c (self_c st ++ [self_N st])
                   (set_ids (self_ids st ++ [doc_id]) st)))))).

(** * Part II: properties *)

(** ** The result monad and Python containers *)

Lemma bind_Ok {A B} (m : result A) (k : A → result B) (b : B) :
  m ≫= k = Ok b ↔ ∃ a, m = Ok a ∧ k a = Ok b.
Proof.
  destruct m as [a|e]; simpl; split.
  - intros H. exists a. auto.
  - intros (a' & Ha & Hk). congruence.
  - discriminate.
  - intros (a' & Ha & _). discriminate.
Qed.

Lemma bind_ret {A B} (a : A) (k : A → result B) : Ok a ≫= k = k a.
Proof. reflexivity. Qed.

Lemma norm_index_in_range (len : nat) (k : Z) :
  in_range len k → norm_index len k = Ok (Z.to_nat k).
Proof.
  intros Hk. unfold norm_index.
  destruct (decide (0 ≤ k < Z.of_nat len)) as [|Hn]; [reflexivity|].
  destruct Hn. exact Hk.
Qed.

Lemma py_getitem_in_range {A} (l : list A) (k : Z) :
  in_range (length l) k →
  ∃ x, py_getitem l k = Ok x ∧ l !! Z.to_nat k = Some x.
Proof.
  intros Hk. unfold py_getitem. rewrite norm_index_in_range by exact Hk.
  destruct (lookup_lt_is_Some_2 l (Z.to_nat k)) as [x Hx].
  - unfold in_range in Hk. lia.
  - exists x. simpl. rewrite Hx. auto.
Qed.

Lemma py_getitem_lookup {A} (l : list A) (k : Z) (x : A) :
  0 ≤ k → l !! Z.to_nat k = Some x → py_getitem l k = Ok x.
Proof.
  intros Hk Hl. destruct (py_getitem_in_range l k) as (y & Hy & Hly).
  - apply lookup_lt_Some in Hl. unfold in_range. lia.
  - congruence.
Qed.

Lemma py_setitem_in_range {A} (l : list A) (k : Z) (v : A) :
  in_range (length l) k → py_setitem l k v = Ok (<[Z.to_nat k := v]> l).
Proof.
  intros Hk. unfold py_setitem. rewrite norm_index_in_range by exact Hk.
  reflexivity.
Qed.

Lemma elem_of_universe (n : nat) (x : Z) : x ∈ universe n ↔ in_range n x.
Proof.
  unfold universe, in_range. rewrite elem_of_list_to_set, list_elem_of_fmap.
  split.
  - intros (k & -> & Hk). apply elem_of_seq in Hk. lia.
  - intros Hx. exists (Z.to_nat x). split; [lia|]. apply elem_of_seq. lia.
Qed.

Lemma size_universe (n : nat) : size (universe n) = n.
Proof.
  unfold universe. rewrite size_list_to_set.
  - rewrite length_fmap, length_seq. reflexivity.
  - apply NoDup_fmap_2; [apply _|apply NoDup_seq].
Qed.

Lemma size_in_universe (n : nat) (s : gset Z) :
  s ⊆ universe n → (size s ≤ n)%nat.
Proof. intros Hs. apply subseteq_size in Hs. rewrite size_universe in Hs. exact Hs. Qed.

(** ** Functional edges *)

Lemma follow_S (cs : list Z) (k : nat) (x : Z) :
  follow cs (S k) x = follow cs k (link cs x).
Proof. unfold follow. apply Nat.iter_succ_r. Qed.

Lemma follow_add (cs : list Z) (a b : nat) (x : Z) :
  follow cs (a + b) x = follow cs a (follow cs b x).
Proof. unfold follow. apply Nat.iter_add. Qed.

Lemma link_in_range (cs : list Z) (x : Z) :
  all_assigned cs → in_range (length cs) x →
  in_range (length cs) (link cs x) ∧ py_getitem cs x = Ok (link cs x).
Proof.
  intros Hwf Hx. destruct (py_getitem_in_range cs x Hx) as (y & Hy & Hl).
  unfold link. rewrite Hl. simpl. split; [|exact Hy].
  eapply (Forall_lookup_1 _ _ _ _ Hwf). exact Hl.
Qed.

Lemma follow_in_range (cs : list Z) (k : nat) (x : Z) :
  all_assigned cs → in_range (length cs) x →
  in_range (length cs) (follow cs k x).
Proof.
  intros Hwf Hx. induction k as [|k IH]; [exact Hx|].
  change (follow cs (S k) x) with (link cs (follow cs k x)).
  apply link_in_range; assumption.
Qed.

(** An orbit that comes back on itself before meeting [i] never meets [i]. *)
Lemma follow_revisit (cs : list Z) (i t : Z) (j k : nat) :
  (j < k)%nat → follow cs j t = follow cs k t →
  (∀ m, (m ≤ k)%nat → follow cs m t ≠ i) →
  ∀ m, follow cs m t ≠ i.
Proof.
  intros Hjk Heq Hpre m. induction (lt_wf m) as [m _ IH].
  destruct (le_lt_dec m k) as [Hle|Hgt]; [auto|].
  replace m with ((m - k) + k)%nat by lia.
  rewrite follow_add, <- Heq, <- follow_add.
  apply IH. lia.
Qed.

(** ** Split detection *)

Section SplitLoop.
Variables (cs : list Z) (i : Z).
Hypothesis Hassigned : all_assigned cs.

(** The loop returns: each iteration adds a customer to [visited]. *)
Lemma split_loop_total (fuel : nat) (visited : gset Z) (c : Z) :
  in_range (length cs) c → visited ⊆ universe (length cs) →
  (length cs < fuel + size visited)%nat →
  ∃ b, split_loop fuel cs i visited c = Ok b.
Proof.
  revert visited c. induction fuel as [|fuel IH]; intros visited c Hc Hsub Hfuel.
  - apply size_in_universe in Hsub. lia.
  - simpl. destruct (decide (c ∈ visited)) as [Hin|Hnin]; [eauto|].
    destruct (link_in_range cs c Hassigned Hc) as [Hl ->]. simpl.
    destruct (decide (link cs c = i)); [eauto|].
    apply IH; [exact Hl| |].
    + intros x Hx. apply elem_of_union in Hx as [Hx|Hx]; [|auto].
      apply elem_of_singleton in Hx as ->. apply elem_of_universe. exact Hc.
    + rewrite size_union by set_solver. rewrite size_singleton. lia.
Qed.

(** What the loop answers, given that the customers visited so far (other
    than [i]) point to visited customers other than [i], or to [c]. *)
Lemma split_loop_sound (fuel : nat) (visited : gset Z) (c : Z) (b : bool) :
  in_range (length cs) c → c ≠ i →
  (∀ v, v ∈ visited → v ≠ i →
        link cs v ≠ i ∧ (link cs v ∈ visited ∨ link cs v = c)) →
  split_loop fuel cs i visited c = Ok b →
  if b then ∀ k, follow cs k c ≠ i
  else ∃ k, follow cs k c = i ∧ ∀ m, (m < k)%nat → follow cs m c ≠ i.
Proof.
  revert visited c. induction fuel as [|fuel IH]; intros visited c Hc Hci Hinv;
    [discriminate|].
  simpl. destruct (decide (c ∈ visited)) as [Hin|Hnin].
  - intros [= <-].
    assert (Hclosed : ∀ k, follow cs k c ∈ visited ∧ follow cs k c ≠ i).
    { induction k as [|k [IHk1 IHk2]]; [auto|].
      change (follow cs (S k) c) with (link cs (follow cs k c)).
      destruct (Hinv _ IHk1 IHk2) as [Hne [Hv| ->]]; auto. }
    intros k. apply Hclosed.
  - destruct (link_in_range cs c Hassigned Hc) as [Hl ->]. simpl.
    destruct (decide (link cs c = i)) as [Heq|Hne].
    + intros [= <-]. exists 1%nat. split; [exact Heq|].
      intros m Hm. replace m with 0%nat by lia. exact Hci.
    + intros Hloop. apply IH in Hloop; [|exact Hl|exact Hne|].
      * destruct b.
        -- intros [|k]; [exact Hci|]. rewrite follow_S. apply Hloop.
        -- destruct Hloop as (k & Hk & Hmin). exists (S k). split.
           ++ rewrite follow_S. exact Hk.
           ++ intros [|m] Hm; [exact Hci|]. rewrite follow_S. apply Hmin. lia.
      * intros v Hv Hvi. apply elem_of_union in Hv as [Hv|Hv].
        -- apply elem_of_singleton in Hv as ->. auto.
        -- destruct (Hinv v Hv Hvi) as [Hn [Hin'|Hvc]]; split; auto;
             left; apply elem_of_union; [right; exact Hin'|left].
           apply elem_of_singleton. exact Hvc.
Qed.

End SplitLoop.

(** The traversal phase of [_is_table_split], once the two trivial cycles are
    excluded: it returns, and it answers whether the orbit of [c[i]] avoids
    [i]. *)
Lemma is_table_split_traverse (st : DdCrp) (i : Z) :
  all_assigned (self_c st) → in_range (length (self_c st)) i →
  link (self_c st) i ≠ i → link (self_c st) (link (self_c st) i) ≠ i →
  ∃ b, _is_table_split st i = Ok b ∧
       if b then ∀ k, follow (self_c st) k (link (self_c st) i) ≠ i
       else ∃ k, follow (self_c st) k (link (self_c st) i) = i ∧
                 ∀ m, (m < k)%nat → follow (self_c st) m (link (self_c st) i) ≠ i.
Proof.
  intros Hwf Hi Hself Hmut. unfold _is_table_split.
  destruct (link_in_range _ i Hwf Hi) as [Ht ->]. rewrite bind_ret.
  destruct (decide (link (self_c st) i = i)); [contradiction|].
  destruct (link_in_range _ _ Hwf Ht) as [Htt ->]. rewrite !bind_ret.
  destruct (decide (i = link (self_c st) (link (self_c st) i)));
    [congruence|].
  destruct (split_loop_total (self_c st) i Hwf (S (length (self_c st)))
              {[i]} (link (self_c st) i)) as [b Hb].
  - exact Ht.
  - intros x Hx. apply elem_of_singleton in Hx as ->.
    apply elem_of_universe. exact Hi.
  - rewrite size_singleton. lia.
  - exists b. split; [exact Hb|].
    eapply split_loop_sound; eauto.
    intros v Hv Hvi. apply elem_of_singleton in Hv. contradiction.
Qed.

(** [_is_table_split] returns on every fully assigned array, and its answer
    tells whether the walk from [c[i]] comes back to [i]. *)
Lemma is_table_split_total (st : DdCrp) (i : Z) :
  all_assigned (self_c st) → in_range (length (self_c st)) i →
  let cs := self_c st in
  let t := link cs i in
  ∃ b, _is_table_split st i = Ok b ∧
       if b then t ≠ i ∧ link cs t ≠ i ∧ ∀ k, follow cs k t ≠ i
       else ∃ k, follow cs k t = i ∧ ∀ m, (m < k)%nat → follow cs m t ≠ i.
Proof.
  intros Hwf Hi cs t.
  destruct (link_in_range _ i Hwf Hi) as [Ht Hget]. fold cs t in Ht, Hget.
  destruct (link_in_range _ t Hwf Ht) as [Htt Hgett]. fold cs in Htt, Hgett.
  destruct (decide (t = i)) as [Heq|Hne].
  { exists false. split.
    - unfold _is_table_split. fold cs. rewrite Hget, bind_ret.
      destruct (decide (t = i)); [reflexivity|contradiction].
    - exists 0%nat. split; [exact Heq|]. lia. }
  destruct (decide (link cs t = i)) as [Heq'|Hne'].
  { exists false. split.
    - unfold _is_table_split. fold cs. rewrite Hget, bind_ret.
      destruct (decide (t = i)); [reflexivity|]. rewrite Hgett, bind_ret.
      destruct (decide (i = link cs t)); [reflexivity|congruence].
    - exists 1%nat. split; [exact Heq'|].
      intros m Hm. replace m with 0%nat by lia. exact Hne. }
  destruct (is_table_split_traverse st i Hwf Hi Hne Hne') as (b & Hb & Hspec).
  exists b. split; [exact Hb|]. destruct b; auto.
Qed.

(** C2: [_is_table_split(i)] answers [False] at once on a self-link and on a
    mutual pair; otherwise it follows [c[i], c[c[i]], ...] and answers [False]
    when that walk reaches [i], and [True] when the walk comes back on one of
    its own customers without having reached [i]. *)
Theorem is_table_split_spec (st : DdCrp) (i : Z) :
  all_assigned (self_c st) → in_range (length (self_c st)) i →
  let cs := self_c st in
  let t := link cs i in
  (t = i → _is_table_split st i = Ok false) ∧
  (link cs t = i → _is_table_split st i = Ok false) ∧
  (t ≠ i → link cs t ≠ i →
     ((∃ k, follow cs k t = i) → _is_table_split st i = Ok false) ∧
     ((∃ j k, (j < k)%nat ∧ follow cs j t = follow cs k t ∧
              ∀ m, (m ≤ k)%nat → follow cs m t ≠ i) →
      _is_table_split st i = Ok true)).
Proof.
  intros Hwf Hi cs t.
  destruct (is_table_split_total st i Hwf Hi) as ([|] & Hb & Hspec);
    fold cs t in Hspec.
  - destruct Hspec as (Hself & Hmut & Hnever).
    split; [intros Heq; contradiction|]. split; [intros Heq; contradiction|].
    intros _ _. split; [|intros _; exact Hb].
    intros (k & Hk). destruct (Hnever k Hk).
  - destruct Hspec as (k & Hk & _).
    split; [intros _; exact Hb|]. split; [intros _; exact Hb|].
    intros _ _. split; [intros _; exact Hb|].
    intros (j & k' & Hjk & Heq & Hpre).
    destruct (follow_revisit cs i t j k' Hjk Heq Hpre k Hk).
Qed.

(** ** Component traversal *)

Lemma py_getitem_inv {A} (l : list A) (k : Z) (x : A) :
  in_range (length l) k → py_getitem l k = Ok x → l !! Z.to_nat k = Some x.
Proof.
  intros Hk Hget. destruct (py_getitem_in_range l k Hk) as (y & Hy & Hl).
  congruence.
Qed.

Lemma adj_in_range (gs : list (gset Z)) (a b : Z) :
  graph_closed gs → adj gs a b →
  in_range (length gs) a ∧ in_range (length gs) b.
Proof.
  intros Hcl (Ha & s & Hs & Hb). split.
  - apply lookup_lt_Some in Hs. unfold in_range. lia.
  - exact (Forall_lookup_1 _ _ _ _ Hcl Hs b Hb).
Qed.

(** A set closed under adjacency holds the component of each member. *)
Lemma connected_closed (gs : list (gset Z)) (P : Z → Prop) (a b : Z) :
  (∀ x y, P x → adj gs x y → P y) → P a → connected gs a b → P b.
Proof.
  intros Hcl Ha Hab. induction Hab as [a|a b d Hab _ IH]; [exact Ha|].
  apply IH. exact (Hcl a b Ha Hab).
Qed.

Section PeopleLoop.
Variable gs : list (gset Z).
Hypothesis Hclosed : graph_closed gs.

Lemma people_loop_total (fuel : nat) (visited : gset Z) (stack : list Z) :
  visited ⊆ universe (length gs) → Forall (in_range (length gs)) stack →
  ((length gs - size visited) * S (length gs) + length stack < fuel)%nat →
  ∃ s, people_loop fuel gs visited stack = Ok s.
Proof.
  revert visited stack.
  induction fuel as [|fuel IH]; intros visited stack Hsub Hstack Hfuel;
    [inversion Hfuel|].
  destruct stack as [|c stack']; [simpl; eauto|].
  apply Forall_cons in Hstack as [Hc Hstack']. simpl in Hfuel. simpl.
  destruct (decide (c ∈ visited)) as [Hin|Hnin].
  - apply IH; [exact Hsub|exact Hstack'|lia].
  - destruct (py_getitem_in_range gs c Hc) as (g_c & -> & Hg). rewrite bind_ret.
    assert (Hsub' : {[c]} ∪ visited ⊆ universe (length gs)).
    { intros x Hx. apply elem_of_union in Hx as [Hx|Hx]; [|auto].
      apply elem_of_singleton in Hx as ->. apply elem_of_universe. exact Hc. }
    assert (Hsize : size ({[c]} ∪ visited) = S (size visited)).
    { rewrite size_union by set_solver. rewrite size_singleton. reflexivity. }
    assert (Hnew : g_c ∖ ({[c]} ∪ visited) ⊆ universe (length gs)).
    { intros x Hx. apply elem_of_difference in Hx as [Hx _].
      apply elem_of_universe. exact (Forall_lookup_1 _ _ _ _ Hclosed Hg x Hx). }
    apply IH; [exact Hsub'| |].
    + apply Forall_app. split; [|exact Hstack'].
      apply Forall_forall. intros x Hx. apply elem_of_elements in Hx.
      apply elem_of_universe. auto.
    + rewrite length_app, Hsize.
      change (length (elements (g_c ∖ ({[c]} ∪ visited))))
        with (size (g_c ∖ ({[c]} ∪ visited))).
      apply size_in_universe in Hsub', Hnew. rewrite Hsize in Hsub'.
      replace (length gs - size visited)%nat
        with (S (length gs - S (size visited))) in Hfuel by lia.
      simpl in Hfuel. lia.
Qed.

(** The traversal from [c0] returns the customers connected to [c0]. *)
Lemma people_loop_sound (c0 : Z) (fuel : nat) (visited : gset Z)
    (stack : list Z) (s : gset Z) :
  Forall (in_range (length gs)) stack →
  (∀ x y, x ∈ visited → adj gs x y → y ∈ visited ∨ y ∈ stack) →
  (∀ x, x ∈ visited ∨ x ∈ stack → connected gs c0 x) →
  (c0 ∈ visited ∨ c0 ∈ stack) →
  people_loop fuel gs visited stack = Ok s →
  ∀ x, x ∈ s ↔ connected gs c0 x.
Proof.
  revert visited stack.
  induction fuel as [|fuel IH]; intros visited stack Hstack Hadj Hreach Hc0;
    [discriminate|].
  destruct stack as [|c stack']; simpl.
  - intros [= <-] x. split; [auto|].
    destruct Hc0 as [Hc0|Hc0]; [|inversion Hc0].
    intros Hx.
    apply (connected_closed gs (λ y, y ∈ visited) c0 x); [|exact Hc0|exact Hx].
    intros a b Ha Hab.
    destruct (Hadj a b Ha Hab) as [Hb|Hb]; [exact Hb|inversion Hb].
  - apply Forall_cons in Hstack as [Hc Hstack'].
    destruct (decide (c ∈ visited)) as [Hin|Hnin].
    + apply IH; [exact Hstack'| | |].
      * intros x y Hx Hxy. destruct (Hadj x y Hx Hxy) as [Hy|Hy]; [auto|].
        apply elem_of_cons in Hy as [->|Hy]; auto.
      * intros x [Hx|Hx]; apply Hreach; [auto|]. right. apply elem_of_cons. auto.
      * destruct Hc0 as [Hc0|Hc0]; [auto|].
        apply elem_of_cons in Hc0 as [->|Hc0]; auto.
    + destruct (py_getitem_in_range gs c Hc) as (g_c & -> & Hg).
      rewrite bind_ret.
      assert (Hcc : connected gs c0 c).
      { apply Hreach. right. apply elem_of_cons. auto. }
      apply IH.
      * apply Forall_app. split; [|exact Hstack'].
        apply Forall_forall. intros x Hx. apply elem_of_elements in Hx.
        apply elem_of_difference in Hx as [Hx _].
        exact (Forall_lookup_1 _ _ _ _ Hclosed Hg x Hx).
      * intros x y Hx Hxy. apply elem_of_union in Hx as [Hx|Hx].
        -- apply elem_of_singleton in Hx as ->.
           destruct Hxy as (_ & s' & Hs' & Hy).
           assert (s' = g_c) as -> by congruence.
           destruct (decide (y ∈ {[c]} ∪ visited)) as [Hyv|Hyv]; [auto|].
           right. apply elem_of_app. left. apply elem_of_elements.
           apply elem_of_difference. auto.
        -- destruct (Hadj x y Hx Hxy) as [Hy|Hy].
           ++ left. apply elem_of_union. auto.
           ++ apply elem_of_cons in Hy as [->|Hy].
              ** left. apply elem_of_union. left. apply elem_of_singleton. auto.
              ** right. apply elem_of_app. auto.
      * intros x [Hx|Hx].
        -- apply elem_of_union in Hx as [Hx|Hx].
           ++ apply elem_of_singleton in Hx as ->. exact Hcc.
           ++ apply Hreach. auto.
        -- apply elem_of_app in Hx as [Hx|Hx].
           ++ apply elem_of_elements, elem_of_difference in Hx as [Hx _].
              eapply rtc_r; [exact Hcc|].
              split; [apply Hc|]. exists g_c. auto.
           ++ apply Hreach. right. apply elem_of_cons. auto.
      * destruct Hc0 as [Hc0|Hc0].
        -- left. apply elem_of_union. auto.
        -- apply elem_of_cons in Hc0 as [->|Hc0].
           ++ left. apply elem_of_union. left. apply elem_of_singleton. auto.
           ++ right. apply elem_of_app. auto.
Qed.

End PeopleLoop.

(** [_get_people_next_to(c)] returns, and what it returns is the connected
    component of [c] in the link graph. *)
Lemma get_people_next_to_component (st : DdCrp) (c : Z) :
  graph_closed (self_g st) → in_range (length (self_g st)) c →
  ∃ s, _get_people_next_to st c = Ok s ∧
       ∀ x, x ∈ s ↔ connected (self_g st) c x.
Proof.
  intros Hcl Hc. unfold _get_people_next_to.
  destruct (people_loop_total (self_g st) Hcl
              (people_fuel (length (self_g st))) ∅ [c]) as [s Hs].
  - apply empty_subseteq.
  - apply Forall_cons. split; [exact Hc|apply Forall_nil_2].
  - rewrite size_empty. unfold people_fuel. simpl. lia.
  - exists s. split; [exact Hs|].
    eapply people_loop_sound; [exact Hcl| | | | |exact Hs].
    + apply Forall_cons. split; [exact Hc|apply Forall_nil_2].
    + intros x y Hx. apply elem_of_empty in Hx. contradiction.
    + intros x [Hx|Hx]; [apply elem_of_empty in Hx; contradiction|].
      apply list_elem_of_singleton in Hx as ->. apply rtc_refl.
    + right. apply elem_of_cons. auto.
Qed.

(** ** The link graph *)

Lemma link_lookup (cs : list Z) (a x : Z) :
  0 ≤ a → cs !! Z.to_nat a = Some x → link cs a = x.
Proof. intros _ H. unfold link. rewrite H. reflexivity. Qed.

Lemma link_insert (cs : list Z) (i a v : Z) :
  in_range (length cs) i → 0 ≤ a →
  link (<[Z.to_nat i := v]> cs) a = if decide (a = i) then v else link cs a.
Proof.
  intros Hi Ha. unfold link, in_range in *.
  destruct (decide (a = i)) as [->|Hne].
  - rewrite list_lookup_insert_eq by lia. reflexivity.
  - rewrite list_lookup_insert_ne by lia. reflexivity.
Qed.

Lemma adj_graph_of_links (cs : list Z) (gs : list (gset Z)) (a b : Z) :
  graph_of_links cs gs →
  adj gs a b ↔ in_range (length cs) a ∧ in_range (length cs) b ∧
               (link cs a = b ∨ link cs b = a).
Proof.
  intros [Hlen Hg]. unfold adj. split.
  - intros (Ha & s & Hs & Hb). apply (Hg _ _ Hs) in Hb as [Hb Hl].
    rewrite Z2Nat.id in Hl by exact Ha. split; [|auto].
    apply lookup_lt_Some in Hs. unfold in_range. lia.
  - intros (Ha & Hb & Hl). split; [apply Ha|].
    destruct (lookup_lt_is_Some_2 gs (Z.to_nat a)) as [s Hs].
    { unfold in_range in Ha. lia. }
    exists s. split; [exact Hs|]. apply (Hg _ _ Hs).
    rewrite Z2Nat.id by apply Ha. auto.
Qed.

Lemma graph_of_links_closed (cs : list Z) (gs : list (gset Z)) :
  graph_of_links cs gs → graph_closed gs.
Proof.
  intros [Hlen Hg]. apply Forall_lookup_2. intros k s Hs x Hx.
  apply (Hg _ _ Hs) in Hx as [Hx _]. rewrite Hlen. exact Hx.
Qed.

Lemma adj_sym (cs : list Z) (gs : list (gset Z)) (a b : Z) :
  graph_of_links cs gs → adj gs a b → adj gs b a.
Proof.
  intros Hg Hab. apply (adj_graph_of_links cs gs) in Hab; [|exact Hg].
  apply (adj_graph_of_links cs gs); [exact Hg|]. tauto.
Qed.

Lemma connected_sym (gs : list (gset Z)) (a b : Z) :
  (∀ x y, adj gs x y → adj gs y x) → connected gs a b → connected gs b a.
Proof.
  intros Hsym Hab. induction Hab as [a|a b d Hab _ IH]; [apply rtc_refl|].
  eapply rtc_r; [exact IH|]. apply Hsym. exact Hab.
Qed.

Lemma connected_trans (gs : list (gset Z)) (a b d : Z) :
  connected gs a b → connected gs b d → connected gs a d.
Proof. apply rtc_trans. Qed.

Lemma connected_mono (gs gs' : list (gset Z)) (a b : Z) :
  (∀ x y, adj gs x y → adj gs' x y) → connected gs a b → connected gs' a b.
Proof.
  intros Hsub Hab. induction Hab as [a|a b d Hab _ IH]; [apply rtc_refl|].
  eapply rtc_l; [apply Hsub; exact Hab|exact IH].
Qed.

(** Connectivity once the edge between [i] and [t] joins the graph. *)
Lemma connected_add_edge (gs gs' : list (gset Z)) (i t : Z) :
  (∀ a b, adj gs' a b ↔ adj gs a b ∨ (a = i ∧ b = t) ∨ (a = t ∧ b = i)) →
  ∀ a b, connected gs' a b ↔
         connected gs a b ∨ (connected gs a i ∧ connected gs t b) ∨
         (connected gs a t ∧ connected gs i b).
Proof.
  intros Hadj a b. split.
  - intros Hab. induction Hab as [a|a a' b Haa' _ IH]; [left; apply rtc_refl|].
    apply Hadj in Haa' as [Hold|[[-> ->]|[-> ->]]].
    + destruct IH as [IH|[[IH1 IH2]|[IH1 IH2]]].
      * left. eapply rtc_l; eauto.
      * right. left. split; [eapply rtc_l; eauto|exact IH2].
      * right. right. split; [eapply rtc_l; eauto|exact IH2].
    + destruct IH as [IH|[[IH1 IH2]|[IH1 IH2]]].
      * right. left. split; [apply rtc_refl|exact IH].
      * right. left. split; [apply rtc_refl|exact IH2].
      * left. exact IH2.
    + destruct IH as [IH|[[IH1 IH2]|[IH1 IH2]]].
      * right. right. split; [apply rtc_refl|exact IH].
      * left. exact IH2.
      * right. right. split; [apply rtc_refl|exact IH2].
  - assert (Hsub : ∀ x y, connected gs x y → connected gs' x y).
    { intros x y. apply connected_mono. intros u v Huv. apply Hadj. auto. }
    intros [Hab|[[H1 H2]|[H1 H2]]].
    + auto.
    + eapply connected_trans; [apply Hsub, H1|].
      eapply rtc_l; [|apply Hsub, H2]. apply Hadj. auto.
    + eapply connected_trans; [apply Hsub, H1|].
      eapply rtc_l; [|apply Hsub, H2]. apply Hadj. auto.
Qed.

(** Self-loops do not matter to connectivity. *)
Lemma connected_remove_loop (gs gs' : list (gset Z)) (a b : Z) :
  (∀ x y, adj gs' x y → adj gs x y) →
  (∀ x y, adj gs x y → adj gs' x y ∨ x = y) →
  connected gs' a b ↔ connected gs a b.
Proof.
  intros Hsub Hsup. split; [apply connected_mono, Hsub|].
  intros Hab. induction Hab as [a|a a' b Haa' _ IH]; [apply rtc_refl|].
  apply Hsup in Haa' as [Hnew| ->]; [|exact IH].
  eapply rtc_l; eauto.
Qed.

(** ** Adding a link *)

Lemma join_tables_c (st : DdCrp) (z_i z_c : Z) :
  self_c (join_tables st z_i z_c) = self_c st.
Proof.
  unfold join_tables. destruct (decide (z_i ≠ z_c)); [|reflexivity].
  destruct (decide (z_i > z_c)); reflexivity.
Qed.

Lemma join_tables_g (st : DdCrp) (z_i z_c : Z) :
  self_g (join_tables st z_i z_c) = self_g st.
Proof.
  unfold join_tables. destruct (decide (z_i ≠ z_c)); [|reflexivity].
  destruct (decide (z_i > z_c)); reflexivity.
Qed.

(** What [join_tables] does to the cluster bookkeeping. *)
Lemma join_tables_merge (st : DdCrp) (z_i z_c : Z) :
  z_i ≠ z_c →
  self_mixture (join_tables st z_i z_c)
    = merge (self_mixture st) (Z.min z_i z_c) (Z.max z_i z_c) ∧
  self_reusable_numbers (join_tables st z_i z_c)
    = self_reusable_numbers st ++ [Z.max z_i z_c] ∧
  self_K (join_tables st z_i z_c) = self_K st - 1.
Proof.
  intros Hne. unfold join_tables.
  destruct (decide (z_i ≠ z_c)); [|contradiction].
  destruct (decide (z_i > z_c)); simpl.
  - rewrite Z.min_r, Z.max_l by lia. auto.
  - rewrite Z.min_l, Z.max_r by lia. auto.
Qed.

Lemma join_tables_same (st : DdCrp) (z_i : Z) : join_tables st z_i z_i = st.
Proof.
  unfold join_tables. destruct (decide (z_i ≠ z_i)); [contradiction|reflexivity].
Qed.

(** The state [_add_assignment] returns. *)
Lemma add_assignment_exec (st : DdCrp) (i t z_i z_t : Z) :
  length (self_g st) = length (self_c st) →
  in_range (length (self_c st)) i → in_range (length (self_c st)) t →
  z (self_mixture st) !! Z.to_nat i = Some z_i →
  z (self_mixture st) !! Z.to_nat t = Some z_t →
  ∃ g_i g_t,
    self_g st !! Z.to_nat i = Some g_i ∧
    <[Z.to_nat i := {[t]} ∪ g_i]> (self_g st) !! Z.to_nat t = Some g_t ∧
    _add_assignment st i t =
      Ok (set_g (<[Z.to_nat t := {[i]} ∪ g_t]>
                   (<[Z.to_nat i := {[t]} ∪ g_i]> (self_g st)))
            (set_c (<[Z.to_nat i := t]> (self_c st))
               (join_tables st z_i z_t))).
Proof.
  intros Hlen Hi Ht Hzi Hzt.
  assert (Hgi : in_range (length (self_g st)) i) by (rewrite Hlen; exact Hi).
  assert (Hgt : in_range (length (self_g st)) t) by (rewrite Hlen; exact Ht).
  destruct (py_getitem_in_range (self_g st) i Hgi) as (g_i & Hget_i & Hl_i).
  assert (Hgt' : in_range (length (<[Z.to_nat i := {[t]} ∪ g_i]> (self_g st))) t)
    by (rewrite length_insert; exact Hgt).
  destruct (py_getitem_in_range _ t Hgt') as (g_t & Hget_t & Hl_t).
  exists g_i, g_t. split; [exact Hl_i|]. split; [exact Hl_t|].
  unfold _add_assignment.
  rewrite (py_getitem_lookup _ i z_i) by (apply Hi || exact Hzi).
  rewrite bind_ret.
  rewrite (py_getitem_lookup _ t z_t) by (apply Ht || exact Hzt).
  rewrite bind_ret. cbv zeta.
  rewrite join_tables_c, py_setitem_in_range by exact Hi. rewrite bind_ret.
  cbn [self_g set_c]. rewrite join_tables_g, Hget_i, bind_ret.
  rewrite py_setitem_in_range by exact Hgi. rewrite bind_ret.
  cbn [self_g set_g]. rewrite Hget_t, bind_ret.
  rewrite py_setitem_in_range by exact Hgt'. rewrite bind_ret.
  reflexivity.
Qed.

(** The neighbour sets after [_add_assignment]: [t] joins the set of [i] and
    [i] the set of [t]; nothing else changes. *)
Lemma add_link_lookup (gs : list (gset Z)) (i t : Z) (g_i g_t : gset Z) :
  in_range (length gs) i → in_range (length gs) t →
  gs !! Z.to_nat i = Some g_i →
  <[Z.to_nat i := {[t]} ∪ g_i]> gs !! Z.to_nat t = Some g_t →
  ∀ k s', <[Z.to_nat t := {[i]} ∪ g_t]> (<[Z.to_nat i := {[t]} ∪ g_i]> gs) !! k
            = Some s' →
    ∃ s, gs !! k = Some s ∧
         ∀ x, x ∈ s' ↔ x ∈ s ∨ (Z.of_nat k = i ∧ x = t) ∨ (Z.of_nat k = t ∧ x = i).
Proof.
  intros Hi Ht Hgi Hgt k s' Hs'. unfold in_range in *.
  destruct (decide (k = Z.to_nat t)) as [->|Hkt].
  - rewrite list_lookup_insert_eq in Hs' by (rewrite length_insert; lia).
    injection Hs' as <-.
    destruct (decide (Z.to_nat t = Z.to_nat i)) as [Heq|Hne].
    + rewrite Heq in Hgt. rewrite list_lookup_insert_eq in Hgt by lia.
      injection Hgt as <-. rewrite Heq. exists g_i. split; [exact Hgi|].
      assert (t = i) as -> by lia. intros x.
      rewrite !elem_of_union, !elem_of_singleton, Z2Nat.id by lia. tauto.
    + rewrite list_lookup_insert_ne in Hgt by lia.
      exists g_t. split; [exact Hgt|]. intros x.
      rewrite elem_of_union, elem_of_singleton. split.
      * intros [->|Hx]; [right; right; lia|auto].
      * intros [Hx|[[Hk _]|[_ ->]]]; [auto|lia|auto].
  - rewrite list_lookup_insert_ne in Hs' by lia.
    destruct (decide (k = Z.to_nat i)) as [->|Hki].
    + rewrite list_lookup_insert_eq in Hs' by lia. injection Hs' as <-.
      exists g_i. split; [exact Hgi|]. intros x.
      rewrite elem_of_union, elem_of_singleton. split.
      * intros [->|Hx]; [right; left; lia|auto].
      * intros [Hx|[[_ ->]|[Hk _]]]; [auto|auto|lia].
    + rewrite list_lookup_insert_ne in Hs' by lia.
      exists s'. split; [exact Hs'|]. intros x. split; [auto|].
      intros [Hx|[[Hk _]|[Hk _]]]; [exact Hx|lia|lia].
Qed.

(** C4: when [z[i] != z[target]], [_add_assignment(i, target)] has the
    mixture merge the larger cluster id into the smaller one, returns the
    larger id to the pool and lowers [K] by one; in every case it sets
    [c[i] = target], adds [target] to [g[i]] and [i] to [g[target]] and leaves
    the rest of the graph alone; when [z[i] == z[target]] the mixture, the pool
    and [K] are untouched. *)
Theorem add_assignment_spec (st : DdCrp) (i t z_i z_t : Z) :
  length (self_g st) = length (self_c st) →
  in_range (length (self_c st)) i → in_range (length (self_c st)) t →
  z (self_mixture st) !! Z.to_nat i = Some z_i →
  z (self_mixture st) !! Z.to_nat t = Some z_t →
  ∃ st', _add_assignment st i t = Ok st' ∧
    self_c st' = <[Z.to_nat i := t]> (self_c st) ∧
    length (self_g st') = length (self_g st) ∧
    (∀ k s', self_g st' !! k = Some s' →
       ∃ s, self_g st !! k = Some s ∧
            ∀ x, x ∈ s' ↔ x ∈ s ∨ (Z.of_nat k = i ∧ x = t) ∨
                          (Z.of_nat k = t ∧ x = i)) ∧
    (z_i ≠ z_t →
       self_mixture st'
         = merge (self_mixture st) (Z.min z_i z_t) (Z.max z_i z_t) ∧
       self_reusable_numbers st'
         = self_reusable_numbers st ++ [Z.max z_i z_t] ∧
       self_K st' = self_K st - 1) ∧
    (z_i = z_t →
       self_mixture st' = self_mixture st ∧
       self_reusable_numbers st' = self_reusable_numbers st ∧
       self_K st' = self_K st).
Proof.
  intros Hlen Hi Ht Hzi Hzt.
  destruct (add_assignment_exec st i t z_i z_t Hlen Hi Ht Hzi Hzt)
    as (g_i & g_t & Hgi & Hgt & Hexec).
  eexists. split; [exact Hexec|]. cbn [self_c self_g set_c set_g].
  split; [reflexivity|]. split; [rewrite !length_insert; reflexivity|].
  split.
  - apply add_link_lookup; rewrite ?Hlen; assumption.
  - cbn [self_mixture self_reusable_numbers self_K set_c set_g]. split.
    + apply join_tables_merge.
    + intros ->. rewrite join_tables_same. auto.
Qed.

(** ** The invariant across [_add_assignment] *)

Lemma join_tables_N (st : DdCrp) (z_i z_c : Z) :
  self_N (join_tables st z_i z_c) = self_N st.
Proof.
  unfold join_tables. destruct (decide (z_i ≠ z_c)); [|reflexivity].
  destruct (decide (z_i > z_c)); reflexivity.
Qed.

Lemma merge_classes (za zb z_i z_t : Z) :
  z_i ≠ z_t →
  (if decide (za = Z.max z_i z_t) then Z.min z_i z_t else za)
    = (if decide (zb = Z.max z_i z_t) then Z.min z_i z_t else zb) ↔
  za = zb ∨ (za = z_i ∧ z_t = zb) ∨ (za = z_t ∧ z_i = zb).
Proof. intros Hne. repeat case_decide; lia. Qed.

Lemma unassigned_link (cs : list Z) (i : Z) :
  unassigned_only cs i → link cs i = -1.
Proof.
  intros [Hi Hcs]. destruct (py_getitem_in_range cs i Hi) as (x & _ & Hx).
  pose proof (Hcs _ _ Hx) as Hx'. rewrite Z2Nat.id in Hx' by apply Hi.
  destruct (decide (i = i)); [|contradiction].
  unfold link. rewrite Hx. exact Hx'.
Qed.

(** The neighbour relation after the edge between [i] and [t] is stored. *)
Lemma adj_add_link (gs : list (gset Z)) (i t : Z) (g_i g_t : gset Z) :
  in_range (length gs) i → in_range (length gs) t →
  gs !! Z.to_nat i = Some g_i →
  <[Z.to_nat i := {[t]} ∪ g_i]> gs !! Z.to_nat t = Some g_t →
  ∀ a b,
    adj (<[Z.to_nat t := {[i]} ∪ g_t]> (<[Z.to_nat i := {[t]} ∪ g_i]> gs)) a b
    ↔ adj gs a b ∨ (a = i ∧ b = t) ∨ (a = t ∧ b = i).
Proof.
  intros Hi Ht Hgi Hgt a b.
  pose proof (add_link_lookup gs i t g_i g_t Hi Ht Hgi Hgt) as Hlook.
  set (gs' := <[Z.to_nat t := {[i]} ∪ g_t]> (<[Z.to_nat i := {[t]} ∪ g_i]> gs))
    in *.
  assert (Hlen : length gs' = length gs)
    by (unfold gs'; rewrite !length_insert; reflexivity).
  assert (Hin : ∀ a, in_range (length gs) a →
            ∃ s' s, gs' !! Z.to_nat a = Some s' ∧ gs !! Z.to_nat a = Some s ∧
              ∀ x, x ∈ s' ↔ x ∈ s ∨ (a = i ∧ x = t) ∨ (a = t ∧ x = i)).
  { intros a' Ha'. destruct (lookup_lt_is_Some_2 gs' (Z.to_nat a')) as [s' Hs'].
    { unfold in_range in Ha'. lia. }
    destruct (Hlook _ _ Hs') as (s & Hs & Hx). exists s', s.
    rewrite Z2Nat.id in Hx by apply Ha'. auto. }
  unfold adj. split.
  - intros (Ha & s' & Hs' & Hb).
    destruct (Hin a) as (s1 & s & Hs1 & Hs & Hx).
    { apply lookup_lt_Some in Hs'. unfold in_range. lia. }
    assert (Heq : s1 = s') by congruence. subst s1.
    destruct (proj1 (Hx b) Hb) as [Hb'|Hb']; [|auto]. left. eauto.
  - intros [(Ha & s & Hs & Hb)|[[-> ->]|[-> ->]]].
    + destruct (Hin a) as (s' & s1 & Hs' & Hs1 & Hx).
      { apply lookup_lt_Some in Hs. unfold in_range. lia. }
      assert (Heq : s1 = s) by congruence. subst s1.
      split; [exact Ha|]. exists s'. split; [exact Hs'|]. apply Hx. auto.
    + destruct (Hin i Hi) as (s' & s1 & Hs' & Hs1 & Hx).
      split; [apply Hi|]. exists s'. split; [exact Hs'|]. apply Hx. auto.
    + destruct (Hin t Ht) as (s' & s1 & Hs' & Hs1 & Hx).
      split; [apply Ht|]. exists s'. split; [exact Hs'|]. apply Hx. auto.
Qed.

(** Storing the edge of a fresh link keeps the graph the one induced by the
    links. *)
Lemma graph_of_links_add (cs : list Z) (gs : list (gset Z)) (i t : Z)
    (g_i g_t : gset Z) :
  graph_of_links cs gs → unassigned_only cs i → in_range (length cs) t →
  gs !! Z.to_nat i = Some g_i →
  <[Z.to_nat i := {[t]} ∪ g_i]> gs !! Z.to_nat t = Some g_t →
  graph_of_links (<[Z.to_nat i := t]> cs)
    (<[Z.to_nat t := {[i]} ∪ g_t]> (<[Z.to_nat i := {[t]} ∪ g_i]> gs)).
Proof.
  intros [Hlen Hg] Hun Ht Hgi Hgt. pose proof Hun as [Hi _].
  pose proof (unassigned_link cs i Hun) as Hli.
  split; [rewrite !length_insert; exact Hlen|].
  intros k s' Hs' b. rewrite length_insert.
  destruct (add_link_lookup gs i t g_i g_t) with (k := k) (s' := s')
    as (s & Hs & Hx); try assumption; try (rewrite Hlen; assumption).
  rewrite Hx, (Hg _ _ Hs b).
  assert (Hk : 0 ≤ Z.of_nat k) by lia.
  rewrite (link_insert cs i (Z.of_nat k) t Hi Hk).
  split.
  - intros [[Hb [Hl|Hl]]|[[Hki ->]|[Hkt ->]]].
    + split; [exact Hb|]. left.
      destruct (decide (Z.of_nat k = i)) as [Heq|]; [|exact Hl].
      rewrite Heq, Hli in Hl. unfold in_range in Hb. lia.
    + split; [exact Hb|]. right.
      rewrite (link_insert cs i b t Hi) by apply Hb.
      destruct (decide (b = i)) as [Heq|]; [|exact Hl].
      rewrite Heq, Hli in Hl. lia.
    + split; [exact Ht|]. left.
      destruct (decide (Z.of_nat k = i)); [reflexivity|contradiction].
    + split; [exact Hi|]. right.
      rewrite (link_insert cs i i t Hi) by apply Hi.
      destruct (decide (i = i)); [auto|contradiction].
  - intros [Hb [Hl|Hl]].
    + destruct (decide (Z.of_nat k = i)) as [Heq|]; [right; left; auto|].
      left. auto.
    + rewrite (link_insert cs i b t Hi) in Hl by apply Hb.
      destruct (decide (b = i)) as [Heq|]; [right; right; auto|].
      left. auto.
Qed.

Lemma join_tables_z (st : DdCrp) (z_i z_t : Z) :
  z (self_mixture (join_tables st z_i z_t))
  = if decide (z_i = z_t) then z (self_mixture st)
    else (λ k, if decide (k = Z.max z_i z_t) then Z.min z_i z_t else k)
           <$> z (self_mixture st).
Proof.
  destruct (decide (z_i = z_t)) as [->|Hne].
  - rewrite join_tables_same. reflexivity.
  - destruct (join_tables_merge st z_i z_t Hne) as (-> & _). reflexivity.
Qed.

Lemma join_tables_pool (st : DdCrp) (z_i z_t : Z) :
  self_reusable_numbers (join_tables st z_i z_t)
  = if decide (z_i = z_t) then self_reusable_numbers st
    else self_reusable_numbers st ++ [Z.max z_i z_t].
Proof.
  destruct (decide (z_i = z_t)) as [->|Hne].
  - rewrite join_tables_same. reflexivity.
  - destruct (join_tables_merge st z_i z_t Hne) as (_ & -> & _). reflexivity.
Qed.

(** Merging the clusters of [i] and [t] keeps the pool free of live ids. *)
Lemma pool_fresh_merge (pool zs : list Z) (z_i z_t : Z) :
  pool_fresh pool zs → z_i ∈ zs → z_t ∈ zs → z_i ≠ z_t →
  pool_fresh (pool ++ [Z.max z_i z_t])
    ((λ k, if decide (k = Z.max z_i z_t) then Z.min z_i z_t else k) <$> zs).
Proof.
  intros [Hnd Hfresh] Hzi Hzt Hne.
  assert (Hmax : Z.max z_i z_t ∈ zs).
  { destruct (Z.max_spec z_i z_t) as [[_ ->]|[_ ->]]; assumption. }
  assert (Hmin : Z.min z_i z_t ∈ zs).
  { destruct (Z.min_spec z_i z_t) as [[_ ->]|[_ ->]]; assumption. }
  split.
  - apply NoDup_app. split; [exact Hnd|]. split; [|apply NoDup_singleton].
    intros k Hk Hk'. apply list_elem_of_singleton in Hk' as ->.
    exact (Hfresh _ Hk Hmax).
  - intros k Hk Hin. apply list_elem_of_fmap in Hin as (x & Hkx & Hx).
    apply elem_of_app in Hk as [Hk|Hk].
    + apply (Hfresh _ Hk). subst k.
      destruct (decide (x = Z.max z_i z_t)); assumption.
    + apply list_elem_of_singleton in Hk. subst k.
      destruct (decide (x = Z.max z_i z_t)); lia.
Qed.

Lemma partition_lookup (gs : list (gset Z)) (zs : list Z) (a : Z) :
  length zs = length gs → in_range (length gs) a →
  ∃ za, zs !! Z.to_nat a = Some za.
Proof.
  intros Hlen Ha. apply lookup_lt_is_Some_2. unfold in_range in Ha. lia.
Qed.

(** Joining the tables of [i] and [t] and storing their edge keeps components
    and cluster ids in step. *)
Lemma partition_matches_add (gs gs' : list (gset Z)) (zs : list Z)
    (i t z_i z_t : Z) :
  length zs = length gs → length gs' = length gs →
  in_range (length gs) i → in_range (length gs) t →
  zs !! Z.to_nat i = Some z_i → zs !! Z.to_nat t = Some z_t →
  (∀ a b, adj gs' a b ↔ adj gs a b ∨ (a = i ∧ b = t) ∨ (a = t ∧ b = i)) →
  partition_matches gs zs →
  partition_matches gs'
    (if decide (z_i = z_t) then zs
     else (λ k, if decide (k = Z.max z_i z_t) then Z.min z_i z_t else k)
            <$> zs).
Proof.
  intros Hlz Hlg Hi Ht Hzi Hzt Hadj Hpart a b Ha Hb. rewrite Hlg in Ha, Hb.
  rewrite (connected_add_edge gs gs' i t Hadj).
  rewrite (Hpart a b), (Hpart a i), (Hpart t b), (Hpart a t), (Hpart i b)
    by assumption.
  destruct (partition_lookup gs zs a Hlz Ha) as [za Hza].
  destruct (partition_lookup gs zs b Hlz Hb) as [zb Hzb].
  rewrite Hzi, Hzt.
  destruct (decide (z_i = z_t)) as [->|Hne].
  - rewrite Hza, Hzb. split; [|auto]. intros [H|[[H1 H2]|[H1 H2]]]; congruence.
  - rewrite !list_lookup_fmap, Hza, Hzb. simpl.
    pose proof (merge_classes za zb z_i z_t Hne) as Hm. split.
    + intros H. f_equal. apply Hm.
      destruct H as [H|[[H1 H2]|[H1 H2]]]; [left|right; left|right; right];
        split_and?; congruence.
    + intros [= H]. apply Hm in H as [H|[[H1 H2]|[H1 H2]]];
        [left|right; left|right; right]; split_and?; congruence.
Qed.

(** [_add_assignment] re-establishes the invariant and gives [i] its link. *)
Lemma add_assignment_consistent (st st' : DdCrp) (i t : Z) :
  consistent st → unassigned_only (self_c st) i →
  in_range (length (self_c st)) t →
  _add_assignment st i t = Ok st' →
  consistent st' ∧ all_assigned (self_c st').
Proof.
  intros [HN Hz Hlinks Hgraph Hpart Hpool] Hun Ht Hadd.
  pose proof Hun as [Hi Hcs]. pose proof Hgraph as [Hlen _].
  destruct (lookup_lt_is_Some_2 (z (self_mixture st)) (Z.to_nat i)) as [z_i Hzi].
  { unfold in_range in Hi. lia. }
  destruct (lookup_lt_is_Some_2 (z (self_mixture st)) (Z.to_nat t)) as [z_t Hzt].
  { unfold in_range in Ht. lia. }
  destruct (add_assignment_exec st i t z_i z_t Hlen Hi Ht Hzi Hzt)
    as (g_i & g_t & Hgi & Hgt & Hexec).
  rewrite Hexec in Hadd. injection Hadd as <-.
  assert (Hgi' : in_range (length (self_g st)) i) by (rewrite Hlen; exact Hi).
  assert (Hgt' : in_range (length (self_g st)) t) by (rewrite Hlen; exact Ht).
  split; [split|]; cbn [self_N self_c self_g self_mixture
                          self_reusable_numbers set_c set_g].
  - rewrite join_tables_N, length_insert. exact HN.
  - rewrite join_tables_z, length_insert.
    destruct (decide (z_i = z_t)); [|rewrite length_fmap]; exact Hz.
  - unfold links_valid. rewrite length_insert. apply Forall_insert; auto.
  - apply graph_of_links_add; assumption.
  - rewrite join_tables_z.
    apply (partition_matches_add (self_g st) _ _ i t); try assumption.
    + congruence.
    + rewrite !length_insert. reflexivity.
    + apply adj_add_link; assumption.
  - rewrite join_tables_z, join_tables_pool.
    destruct (decide (z_i = z_t)) as [|Hne]; [exact Hpool|].
    apply pool_fresh_merge; [exact Hpool| | |exact Hne];
      eapply list_elem_of_lookup_2; eassumption.
  - unfold all_assigned. rewrite length_insert. apply Forall_lookup_2.
    intros k x Hk. destruct (decide (k = Z.to_nat i)) as [->|Hne].
    + rewrite list_lookup_insert_eq in Hk by (unfold in_range in Hi; lia).
      injection Hk as <-. exact Ht.
    + rewrite list_lookup_insert_ne in Hk by lia.
      pose proof (Hcs _ _ Hk) as Hx.
      destruct (decide (Z.of_nat k = i)); [lia|exact Hx].
Qed.

(** ** Removing a link *)

Lemma set_remove_elem (s : gset Z) (x : Z) :
  x ∈ s → set_remove s x = Ok (s ∖ {[x]}).
Proof.
  intros Hx. unfold set_remove. destruct (decide (x ∈ s)); [reflexivity|].
  contradiction.
Qed.

Lemma remove_link_self (gs : list (gset Z)) (i c_c : Z) (g_i : gset Z) :
  gs !! Z.to_nat i = Some g_i → 0 ≤ i → i ∈ g_i →
  remove_link gs i i c_c = Ok (<[Z.to_nat i := g_i ∖ {[i]}]> gs).
Proof.
  intros Hgi Hi Hin. unfold remove_link.
  destruct (decide (i = i)); [|contradiction].
  rewrite (py_getitem_lookup gs i g_i Hi Hgi), bind_ret.
  rewrite (set_remove_elem g_i i Hin), bind_ret.
  apply py_setitem_in_range. apply lookup_lt_Some in Hgi.
  unfold in_range. lia.
Qed.

Lemma remove_link_mutual (gs : list (gset Z)) (i t : Z) :
  t ≠ i → remove_link gs i t i = Ok gs.
Proof.
  intros Hne. unfold remove_link.
  destruct (decide (t = i)); [contradiction|].
  destruct (decide (i = i)); [reflexivity|contradiction].
Qed.

Lemma remove_link_other (gs : list (gset Z)) (i t c_c : Z) (g_i g_t : gset Z) :
  t ≠ i → c_c ≠ i → 0 ≤ i → 0 ≤ t →
  gs !! Z.to_nat i = Some g_i → t ∈ g_i →
  gs !! Z.to_nat t = Some g_t → i ∈ g_t →
  remove_link gs i t c_c
  = Ok (<[Z.to_nat t := g_t ∖ {[i]}]> (<[Z.to_nat i := g_i ∖ {[t]}]> gs)).
Proof.
  intros Hne Hcc Hi Ht Hgi Hti Hgt Hit. unfold remove_link.
  destruct (decide (t = i)); [contradiction|].
  destruct (decide (c_c = i)); [contradiction|].
  pose proof (lookup_lt_Some _ _ _ Hgi) as Hli.
  pose proof (lookup_lt_Some _ _ _ Hgt) as Hlt.
  rewrite (py_getitem_lookup gs i g_i Hi Hgi), bind_ret.
  rewrite (set_remove_elem g_i t Hti), bind_ret.
  rewrite py_setitem_in_range by (unfold in_range; lia). rewrite bind_ret.
  rewrite (py_getitem_lookup _ t g_t Ht)
    by (rewrite list_lookup_insert_ne by lia; exact Hgt).
  rewrite bind_ret, (set_remove_elem g_t i Hit), bind_ret.
  apply py_setitem_in_range. rewrite length_insert. unfold in_range. lia.
Qed.

(** The neighbour sets [remove_link] leaves: the pair [i], [c[i]] loses its
    edge unless the reverse link still accounts for it. *)
Lemma remove_link_exec (cs : list Z) (gs : list (gset Z)) (i : Z) :
  graph_of_links cs gs → in_range (length cs) i →
  in_range (length cs) (link cs i) →
  let t := link cs i in
  ∃ gs', remove_link gs i t (link cs t) = Ok gs' ∧
    length gs' = length gs ∧
    ∀ k s', gs' !! k = Some s' →
      ∃ s, gs !! k = Some s ∧
        ∀ b, b ∈ s' ↔
             b ∈ s ∧ ¬ ((t = i ∨ link cs t ≠ i) ∧
                        ((Z.of_nat k = i ∧ b = t) ∨ (Z.of_nat k = t ∧ b = i))).
Proof.
  intros [Hlen Hg] Hi Ht t. fold t in Ht.
  destruct (lookup_lt_is_Some_2 gs (Z.to_nat i)) as [g_i Hgi].
  { unfold in_range in Hi. lia. }
  destruct (lookup_lt_is_Some_2 gs (Z.to_nat t)) as [g_t Hgt].
  { unfold in_range in Ht. lia. }
  assert (Hti : t ∈ g_i).
  { apply (Hg _ _ Hgi). rewrite Z2Nat.id by apply Hi. auto. }
  assert (Hit : i ∈ g_t).
  { apply (Hg _ _ Hgt). rewrite Z2Nat.id by apply Ht. auto. }
  unfold in_range in Hi, Ht.
  destruct (decide (t = i)) as [Heq|Hne]; [|destruct (decide (link cs t = i))
    as [Hmut|Hnmut]].
  - exists (<[Z.to_nat i := g_i ∖ {[i]}]> gs). rewrite Heq in *.
    split; [apply (remove_link_self gs i _ g_i); [exact Hgi|lia|exact Hti]|].
    split; [apply length_insert|]. intros k s' Hs'.
    destruct (decide (k = Z.to_nat i)) as [->|Hk].
    + rewrite list_lookup_insert_eq in Hs' by lia. injection Hs' as <-.
      exists g_i. split; [exact Hgi|]. intros b.
      rewrite elem_of_difference, elem_of_singleton, Z2Nat.id by lia.
      split; [intros [Hb Hbi]; split; [exact Hb|tauto]|].
      intros [Hb Hn]. split; [exact Hb|]. intros ->. apply Hn. auto.
    + rewrite list_lookup_insert_ne in Hs' by lia.
      exists s'. split; [exact Hs'|]. intros b. split; [|tauto].
      intros Hb. split; [exact Hb|]. lia.
  - exists gs. rewrite Hmut.
    split; [apply remove_link_mutual; exact Hne|]. split; [reflexivity|].
    intros k s' Hs'. exists s'. split; [exact Hs'|]. intros b.
    split; [|tauto]. intros Hb. split; [exact Hb|]. tauto.
  - exists (<[Z.to_nat t := g_t ∖ {[i]}]> (<[Z.to_nat i := g_i ∖ {[t]}]> gs)).
    split; [apply remove_link_other; auto; lia|].
    split; [rewrite !length_insert; reflexivity|]. intros k s' Hs'.
    destruct (decide (k = Z.to_nat t)) as [->|Hkt].
    + rewrite list_lookup_insert_eq in Hs' by (rewrite length_insert; lia).
      injection Hs' as <-. exists g_t. split; [exact Hgt|]. intros b.
      rewrite elem_of_difference, elem_of_singleton, Z2Nat.id by lia.
      split; [intros [Hb Hbi]; split; [exact Hb|]; intros [_ [[? _]|[_ ?]]];
              auto|].
      intros [Hb Hn]. split; [exact Hb|]. intros ->. apply Hn. auto.
    + rewrite list_lookup_insert_ne in Hs' by lia.
      destruct (decide (k = Z.to_nat i)) as [->|Hki].
      * rewrite list_lookup_insert_eq in Hs' by lia. injection Hs' as <-.
        exists g_i. split; [exact Hgi|]. intros b.
        rewrite elem_of_difference, elem_of_singleton, Z2Nat.id by lia.
        split; [intros [Hb Hbi]; split; [exact Hb|]; intros [_ [[_ ?]|[? _]]];
                auto|].
        intros [Hb Hn]. split; [exact Hb|]. intros ->. apply Hn. auto.
      * rewrite list_lookup_insert_ne in Hs' by lia.
        exists s'. split; [exact Hs'|]. intros b. split; [|tauto].
        intros Hb. split; [exact Hb|]. lia.
Qed.

(** The edges that survive the removal of the link of [i], for an arbitrary
    successor function [L]. *)
Lemma remove_edge_cases (L : Z → Z) (i k b : Z) :
  0 ≤ k → 0 ≤ b →
  ((L k = b ∨ L b = k) ∧
   ¬ ((L i = i ∨ L (L i) ≠ i) ∧ ((k = i ∧ b = L i) ∨ (k = L i ∧ b = i)))) ↔
  ((if decide (k = i) then -1 else L k) = b ∨
   (if decide (b = i) then -1 else L b) = k).
Proof.
  intros Hk Hb.
  destruct (decide (k = i)) as [->|Hki]; destruct (decide (b = i)) as [->|Hbi].
  - lia.
  - destruct (decide (b = L i)) as [->|Hbt]; lia.
  - destruct (decide (k = L i)) as [->|Hkt]; lia.
  - lia.
Qed.

(** After [remove_link] and [c[i] = -1] the graph is again the one induced by
    the links. *)
Lemma graph_of_links_remove (cs : list Z) (gs gs' : list (gset Z)) (i : Z) :
  graph_of_links cs gs → in_range (length cs) i →
  length gs' = length gs →
  (∀ k s', gs' !! k = Some s' →
     ∃ s, gs !! k = Some s ∧
       ∀ b, b ∈ s' ↔
            b ∈ s ∧ ¬ ((link cs i = i ∨ link cs (link cs i) ≠ i) ∧
                       ((Z.of_nat k = i ∧ b = link cs i) ∨
                        (Z.of_nat k = link cs i ∧ b = i)))) →
  graph_of_links (<[Z.to_nat i := -1]> cs) gs'.
Proof.
  intros [Hlen Hg] Hi Hlen' Hchar.
  split; [rewrite length_insert; congruence|].
  intros k s' Hs' b. rewrite length_insert.
  destruct (Hchar _ _ Hs') as (s & Hs & Hb). rewrite Hb, (Hg _ _ Hs b).
  assert (Hk : 0 ≤ Z.of_nat k) by lia.
  rewrite (link_insert cs i (Z.of_nat k) (-1) Hi Hk).
  split.
  - intros [[Hbr Hl] Hn]. split; [exact Hbr|].
    rewrite (link_insert cs i b (-1) Hi) by apply Hbr.
    apply (remove_edge_cases (link cs) i (Z.of_nat k) b Hk); [apply Hbr|auto].
  - intros [Hbr Hl].
    rewrite (link_insert cs i b (-1) Hi) in Hl by apply Hbr.
    apply (remove_edge_cases (link cs) i (Z.of_nat k) b Hk) in Hl;
      [|apply Hbr].
    destruct Hl as [Hl Hn]. auto.
Qed.

(** The walk from [x], as long as it stays clear of [i], runs along edges
    that survive the removal of the link of [i]. *)
Lemma follow_connected (cs : list Z) (gs' : list (gset Z)) (i x : Z) (k : nat) :
  all_assigned cs → in_range (length cs) i → in_range (length cs) x →
  graph_of_links (<[Z.to_nat i := -1]> cs) gs' →
  (∀ m, (m < k)%nat → follow cs m x ≠ i) →
  connected gs' x (follow cs k x).
Proof.
  intros Hwf Hi Hx Hg. induction k as [|k IH]; intros Hclear;
    [apply rtc_refl|].
  eapply rtc_r; [apply IH; intros m Hm; apply Hclear; lia|].
  change (follow cs (S k) x) with (link cs (follow cs k x)).
  pose proof (follow_in_range cs k x Hwf Hx) as Hk.
  destruct (link_in_range cs _ Hwf Hk) as [Hk' _].
  apply (adj_graph_of_links _ _ _ _ Hg). rewrite length_insert.
  split; [exact Hk|]. split; [exact Hk'|]. left.
  rewrite link_insert by (exact Hi || apply Hk).
  destruct (decide (follow cs k x = i)) as [Heq|]; [|reflexivity].
  destruct (Hclear k); [lia|exact Heq].
Qed.

(** Once the link of [i] is gone, what stays connected to [i] are the
    customers whose walk reaches [i]. *)
Lemma connected_reaches (cs : list Z) (gs' : list (gset Z)) (i x : Z) :
  in_range (length cs) i →
  graph_of_links (<[Z.to_nat i := -1]> cs) gs' →
  connected gs' i x → ∃ k, follow cs k x = i.
Proof.
  intros Hi Hg.
  apply (connected_closed gs' (λ y, ∃ k, follow cs k y = i));
    [|exists 0%nat; reflexivity].
  intros a b (k & Hk) Hab.
  apply (adj_graph_of_links _ _ _ _ Hg) in Hab as (Ha & Hb & Hl).
  rewrite length_insert in Ha, Hb.
  rewrite !link_insert in Hl by (exact Hi || apply Ha || apply Hb).
  destruct Hl as [Hl|Hl].
  - destruct (decide (a = i)) as [->|Hne]; [unfold in_range in Hb; lia|].
    destruct k as [|k]; [contradiction|].
    exists k. rewrite follow_S, Hl in Hk. exact Hk.
  - destruct (decide (b = i)) as [->|Hne]; [exists 0%nat; reflexivity|].
    exists (S k). rewrite follow_S, Hl. exact Hk.
Qed.

(** The neighbour relation [remove_link] leaves. *)
Lemma adj_remove_link (cs : list Z) (gs gs' : list (gset Z)) (i : Z) :
  length gs' = length gs →
  (∀ k s', gs' !! k = Some s' →
     ∃ s, gs !! k = Some s ∧
       ∀ b, b ∈ s' ↔
            b ∈ s ∧ ¬ ((link cs i = i ∨ link cs (link cs i) ≠ i) ∧
                       ((Z.of_nat k = i ∧ b = link cs i) ∨
                        (Z.of_nat k = link cs i ∧ b = i)))) →
  ∀ a b, adj gs' a b ↔
         adj gs a b ∧ ¬ ((link cs i = i ∨ link cs (link cs i) ≠ i) ∧
                         ((a = i ∧ b = link cs i) ∨ (a = link cs i ∧ b = i))).
Proof.
  intros Hlen Hchar a b. unfold adj. split.
  - intros (Ha & s' & Hs' & Hb). destruct (Hchar _ _ Hs') as (s & Hs & Hx).
    rewrite Z2Nat.id in Hx by exact Ha.
    destruct (proj1 (Hx b) Hb) as [Hbs Hn]. split; [|exact Hn]. eauto.
  - intros [(Ha & s & Hs & Hb) Hn]. split; [exact Ha|].
    destruct (lookup_lt_is_Some_2 gs' (Z.to_nat a)) as [s' Hs'].
    { apply lookup_lt_Some in Hs. lia. }
    exists s'. split; [exact Hs'|].
    destruct (Hchar _ _ Hs') as (s1 & Hs1 & Hx).
    rewrite Z2Nat.id in Hx by exact Ha.
    assert (Heq : s1 = s) by congruence. subst s1. apply Hx. auto.
Qed.

(** Connectivity after the link of [i] is removed.  When the walk from
    [c[i]] comes back to [i] nothing changes; when it never does, [i] and
    [c[i]] fall apart and the lost edge is all that is missing. *)
Lemma connected_remove_link (cs : list Z) (gs gs' : list (gset Z)) (i : Z) :
  graph_of_links cs gs → all_assigned cs → in_range (length cs) i →
  graph_of_links (<[Z.to_nat i := -1]> cs) gs' →
  (∀ a b, adj gs' a b ↔
          adj gs a b ∧ ¬ ((link cs i = i ∨ link cs (link cs i) ≠ i) ∧
                          ((a = i ∧ b = link cs i) ∨ (a = link cs i ∧ b = i)))) →
  let t := link cs i in
  ((∃ k, follow cs k t = i ∧ ∀ m, (m < k)%nat → follow cs m t ≠ i) →
   ∀ a b, connected gs' a b ↔ connected gs a b) ∧
  ((∀ k, follow cs k t ≠ i) →
   ¬ connected gs' i t ∧
   ∀ a b, connected gs a b ↔
          connected gs' a b ∨ (connected gs' a i ∧ connected gs' t b) ∨
          (connected gs' a t ∧ connected gs' i b)).
Proof.
  intros Hg Hwf Hi Hg' Hadj t.
  destruct (link_in_range cs i Hwf Hi) as [Ht _]. fold t in Ht, Hadj.
  assert (Hit : adj gs i t).
  { apply (adj_graph_of_links cs gs); auto. }
  assert (Hti : adj gs t i).
  { apply (adj_graph_of_links cs gs); auto. }
  assert (Hedge : ∀ a b, adj gs a b ↔
            adj gs' a b ∨ (a = i ∧ b = t) ∨ (a = t ∧ b = i) ∨
            (adj gs a b ∧ ¬ (t = i ∨ link cs t ≠ i))).
  { intros a b. rewrite Hadj. split.
    - intros Hab.
      destruct (decide (t = i ∨ link cs t ≠ i)) as [HR|HR]; [|tauto].
      destruct (decide (a = i ∧ b = t)); [tauto|].
      destruct (decide (a = t ∧ b = i)); [tauto|]. left. tauto.
    - intros [[Hab _]|[[-> ->]|[[-> ->]|[Hab _]]]]; assumption. }
  split.
  - intros (k & Hk & Hmin).
    assert (Hconn : connected gs' t i).
    { pose proof (follow_connected cs gs' i t k Hwf Hi Ht Hg' Hmin) as Hwalk.
      rewrite Hk in Hwalk. exact Hwalk. }
    assert (Hconn' : connected gs' i t).
    { apply connected_sym; [|exact Hconn]. intros x y. apply adj_sym with
        (cs := <[Z.to_nat i := -1]> cs). exact Hg'. }
    intros a b. split.
    + apply connected_mono. intros x y Hxy. apply Hadj in Hxy. tauto.
    + intros Hab. induction Hab as [a|a a' b Haa' _ IH]; [apply rtc_refl|].
      apply Hedge in Haa' as [Hnew|[[-> ->]|[[-> ->]|[Hold HR]]]].
      * eapply rtc_l; eauto.
      * eapply connected_trans; eauto.
      * eapply connected_trans; eauto.
      * eapply rtc_l; [|exact IH]. apply Hadj. tauto.
  - intros Hnever.
    assert (Hti' : t ≠ i) by exact (Hnever 0%nat).
    assert (Htti : link cs t ≠ i) by exact (Hnever 1%nat).
    split.
    + intros Hconn. apply (connected_reaches cs gs' i t Hi Hg') in Hconn
        as (k & Hk). exact (Hnever k Hk).
    + apply connected_add_edge. intros a b. rewrite (Hedge a b). tauto.
Qed.

(** The state [_remove_assignment] returns.  [b] is the answer of the split
    check on the state before the call, [gs'] the graph without the link of
    [i], [people] the component of [i] in [gs']. *)
Lemma remove_assignment_exec (st : DdCrp) (i : Z) :
  graph_of_links (self_c st) (self_g st) → all_assigned (self_c st) →
  in_range (length (self_c st)) i →
  length (z (self_mixture st)) = length (self_c st) →
  let cs := self_c st in
  ∃ b gs' people z_i,
    _is_table_split st i = Ok b ∧
    remove_link (self_g st) i (link cs i) (link cs (link cs i)) = Ok gs' ∧
    graph_of_links (<[Z.to_nat i := -1]> cs) gs' ∧
    (∀ a b, adj gs' a b ↔
            adj (self_g st) a b ∧
            ¬ ((link cs i = i ∨ link cs (link cs i) ≠ i) ∧
               ((a = i ∧ b = link cs i) ∨ (a = link cs i ∧ b = i)))) ∧
    z (self_mixture st) !! Z.to_nat i = Some z_i ∧
    people_loop (people_fuel (length gs')) gs' ∅ [i] = Ok people ∧
    (∀ x, x ∈ people ↔ connected gs' i x) ∧
    _remove_assignment st i =
      let st1 := set_c (<[Z.to_nat i := -1]> cs) (set_g gs' st) in
      if b then
        match self_reusable_numbers st with
        | [] => Raise QueueEmpty
        | new_table_no :: rest =>
            Ok (set_K (self_K st + 1)
                  (set_mixture
                     (split (self_mixture st) z_i new_table_no people)
                     (set_reusable_numbers rest st1)))
        end
      else Ok st1.
Proof.
  intros Hg Hwf Hi Hz cs.
  destruct (is_table_split_total st i Hwf Hi) as (b & Hb & _).
  destruct (link_in_range _ i Hwf Hi) as [Ht Hget]. fold cs in Ht, Hget.
  destruct (link_in_range _ _ Hwf Ht) as [Htt Hgett]. fold cs in Htt, Hgett.
  destruct (remove_link_exec cs (self_g st) i Hg Hi Ht)
    as (gs' & Hrm & Hlen' & Hchar).
  pose proof (graph_of_links_remove cs (self_g st) gs' i Hg Hi Hlen' Hchar)
    as Hg'.
  destruct (lookup_lt_is_Some_2 (z (self_mixture st)) (Z.to_nat i)) as [z_i Hzi].
  { unfold in_range in Hi. lia. }
  assert (Hi' : in_range (length (self_g (set_g gs' st))) i).
  { cbn [self_g set_g]. destruct Hg as [Hl _]. rewrite Hlen', Hl. exact Hi. }
  destruct (get_people_next_to_component (set_g gs' st) i) as (people & Hp & Hcomp).
  { eapply graph_of_links_closed. exact Hg'. }
  { exact Hi'. }
  unfold _get_people_next_to in Hp. cbn [self_g set_g] in Hp, Hcomp.
  exists b, gs', people, z_i.
  split; [exact Hb|]. split; [exact Hrm|]. split; [exact Hg'|].
  split; [exact (adj_remove_link cs (self_g st) gs' i Hlen' Hchar)|].
  split; [exact Hzi|]. split; [exact Hp|]. split; [exact Hcomp|].
  unfold _remove_assignment. fold cs.
  rewrite Hb, bind_ret, Hget, bind_ret, Hgett, bind_ret, Hrm, bind_ret.
  cbv zeta. cbn [self_c set_g].
  rewrite py_setitem_in_range by exact Hi. rewrite bind_ret.
  destruct b; [|reflexivity].
  unfold _get_new_cluster_number. cbn [self_reusable_numbers set_c set_g].
  destruct (self_reusable_numbers st) as [|new_table_no rest]; [reflexivity|].
  rewrite bind_ret. cbn [self_mixture set_reusable_numbers set_c set_g].
  rewrite (py_getitem_lookup _ i z_i) by (apply Hi || exact Hzi).
  rewrite bind_ret. unfold _get_people_next_to.
  cbn [self_g set_reusable_numbers set_c set_g]. rewrite Hp, bind_ret.
  reflexivity.
Qed.

(** ** The invariant across [_remove_assignment] *)

(** Moving the component of [i] to a fresh id keeps components and cluster
    ids in step once [i] and [t] have fallen apart. *)
Lemma partition_matches_split (gs gs' : list (gset Z)) (zs : list Z)
    (people : gset Z) (i t new : Z) :
  length zs = length gs → length gs' = length gs →
  new ∉ zs →
  (∀ x, x ∈ people ↔ connected gs' i x) →
  (∀ x y, adj gs' x y → adj gs' y x) →
  (∀ a b, connected gs a b ↔
          connected gs' a b ∨ (connected gs' a i ∧ connected gs' t b) ∨
          (connected gs' a t ∧ connected gs' i b)) →
  partition_matches gs zs →
  partition_matches gs'
    (imap (λ j k, if decide (Z.of_nat j ∈ people) then new else k) zs).
Proof.
  intros Hlz Hlg Hnew Hpeople Hsym Hconn Hpart a b Ha Hb.
  rewrite Hlg in Ha, Hb.
  destruct (partition_lookup gs zs a Hlz Ha) as [za Hza].
  destruct (partition_lookup gs zs b Hlz Hb) as [zb Hzb].
  rewrite !list_lookup_imap, Hza, Hzb. simpl.
  rewrite !Z2Nat.id by (apply Ha || apply Hb).
  pose proof (Hpart a b Ha Hb) as Hab. rewrite Hza, Hzb, Hconn in Hab.
  assert (Hza' : za ∈ zs) by (eapply list_elem_of_lookup_2; exact Hza).
  assert (Hzb' : zb ∈ zs) by (eapply list_elem_of_lookup_2; exact Hzb).
  destruct (decide (a ∈ people)) as [Hpa|Hpa];
    destruct (decide (b ∈ people)) as [Hpb|Hpb].
  - split; [reflexivity|]. intros _.
    apply Hpeople in Hpa, Hpb.
    eapply connected_trans; [|exact Hpb]. apply connected_sym; assumption.
  - split.
    + intros Hc. destruct Hpb. apply Hpeople.
      eapply connected_trans; [|exact Hc]. apply Hpeople. exact Hpa.
    + intros [= ->]. contradiction.
  - split.
    + intros Hc. destruct Hpa. apply Hpeople.
      eapply connected_trans; [apply Hpeople; exact Hpb|].
      apply connected_sym; assumption.
    + intros [= <-]. contradiction.
  - split.
    + intros Hc. apply Hab. auto.
    + intros Heq. apply Hab in Heq as [Hc|[[Hc _]|[_ Hc]]]; [exact Hc| |].
      * destruct Hpa. apply Hpeople. apply connected_sym; assumption.
      * destruct Hpb. apply Hpeople. exact Hc.
Qed.

Lemma pool_fresh_split (pool zs : list Z) (people : gset Z) (new : Z) :
  pool_fresh (new :: pool) zs →
  (new ∉ zs) ∧
  pool_fresh pool
    (imap (λ j k, if decide (Z.of_nat j ∈ people) then new else k) zs).
Proof.
  intros [Hnd Hfresh]. apply NoDup_cons in Hnd as [Hnew Hnd].
  split; [apply Hfresh; left|]. split; [exact Hnd|].
  intros k Hk Hin. apply list_elem_of_lookup_1 in Hin as [j Hj].
  rewrite list_lookup_imap in Hj.
  destruct (zs !! j) as [x|] eqn:Hx; [|discriminate]. simpl in Hj.
  injection Hj as Hj. destruct (decide (Z.of_nat j ∈ people)).
  - subst k. contradiction.
  - subst k. apply (Hfresh x); [right; exact Hk|].
    eapply list_elem_of_lookup_2. exact Hx.
Qed.

(** [_remove_assignment] keeps the invariant and leaves [i] unassigned. *)
Lemma remove_assignment_consistent (st st' : DdCrp) (i : Z) :
  consistent st → all_assigned (self_c st) →
  in_range (length (self_c st)) i →
  _remove_assignment st i = Ok st' →
  consistent st' ∧ unassigned_only (self_c st') i.
Proof.
  intros [HN Hz Hlinks Hgraph Hpart Hpool] Hwf Hi Hrem.
  destruct (remove_assignment_exec st i Hgraph Hwf Hi Hz)
    as (b & gs' & people & z_i & Hb & Hrm & Hg' & Hadj & Hzi & Hp & Hcomp
        & Hexec).
  destruct (is_table_split_total st i Hwf Hi) as (b' & Hb' & Hspec).
  assert (b' = b) as -> by congruence. clear Hb'.
  pose proof Hgraph as [Hlen _]. pose proof Hg' as [Hlen' _].
  rewrite length_insert in Hlen'.
  destruct (connected_remove_link _ _ gs' i Hgraph Hwf Hi Hg' Hadj)
    as [Hsame Hsplit].
  assert (Hsym : ∀ x y, adj gs' x y → adj gs' y x).
  { intros x y. eapply adj_sym. exact Hg'. }
  assert (Hun : unassigned_only (<[Z.to_nat i := -1]> (self_c st)) i).
  { split; [rewrite length_insert; exact Hi|]. intros k x Hk.
    rewrite length_insert.
    destruct (decide (Z.of_nat k = i)) as [Heq|Hne].
    - rewrite <- Heq, Nat2Z.id in Hk.
      rewrite list_lookup_insert_eq in Hk; [congruence|].
      unfold in_range in Hi. lia.
    - rewrite list_lookup_insert_ne in Hk by (unfold in_range in Hi; lia).
      exact (Forall_lookup_1 _ _ _ _ Hwf Hk). }
  assert (Hlinks' : links_valid (<[Z.to_nat i := -1]> (self_c st))).
  { unfold links_valid. rewrite length_insert. apply Forall_insert; auto. }
  rewrite Hexec in Hrem. cbv zeta in Hrem. destruct b.
  - destruct Hspec as (Hti & Htti & Hnever).
    destruct (Hsplit Hnever) as [Hapart Hconn].
    destruct (self_reusable_numbers st) as [|new rest] eqn:Hqueue;
      [discriminate|].
    injection Hrem as <-.
    destruct (pool_fresh_split rest _ people new Hpool) as [Hnew Hpool'].
    split; [split|exact Hun];
      cbn [self_N self_c self_g self_mixture self_reusable_numbers
           set_K set_mixture set_reusable_numbers set_c set_g split z].
    + rewrite length_insert. exact HN.
    + rewrite length_imap, length_insert. exact Hz.
    + exact Hlinks'.
    + exact Hg'.
    + apply (partition_matches_split (self_g st) gs' _ people i
               (link (self_c st) i)); try assumption; congruence.
    + exact Hpool'.
  - injection Hrem as <-.
    split; [split|exact Hun];
      cbn [self_N self_c self_g self_mixture self_reusable_numbers
           set_c set_g].
    + rewrite length_insert. exact HN.
    + rewrite length_insert. exact Hz.
    + exact Hlinks'.
    + exact Hg'.
    + intros a b Ha Hb'. rewrite (Hsame Hspec a b). apply Hpart; congruence.
    + exact Hpool.
Qed.

(** ** Ingestion *)

Lemma link_app (cs : list Z) (v x : Z) :
  0 ≤ x →
  link (cs ++ [v]) x
  = if decide (x = Z.of_nat (length cs)) then v else link cs x.
Proof.
  intros Hx. unfold link.
  destruct (decide (x = Z.of_nat (length cs))) as [->|Hne].
  - rewrite Nat2Z.id, list_lookup_middle by reflexivity. reflexivity.
  - destruct (decide (Z.to_nat x < length cs)%nat) as [Hlt|Hge].
    + rewrite lookup_app_l by exact Hlt. reflexivity.
    + rewrite !lookup_ge_None_2; [reflexivity|lia|].
      rewrite length_app. simpl. lia.
Qed.

Lemma links_valid_link (cs : list Z) (x : Z) :
  links_valid cs → link cs x = -1 ∨ in_range (length cs) (link cs x).
Proof.
  intros Hv. unfold link. destruct (cs !! Z.to_nat x) as [y|] eqn:Hy; [|auto].
  exact (Forall_lookup_1 _ _ _ _ Hv Hy).
Qed.

Lemma connected_in_range (gs : list (gset Z)) (a b : Z) :
  graph_closed gs → connected gs a b →
  a = b ∨ (in_range (length gs) a ∧ in_range (length gs) b).
Proof.
  intros Hcl Hab. induction Hab as [a|a a' b Haa' _ IH]; [auto|]. right.
  destruct (adj_in_range gs a a' Hcl Haa') as [Ha Ha'].
  destruct IH as [<-|[_ Hb]]; auto.
Qed.

(** Seating a new customer alone: the graph gains an isolated self-loop. *)
Lemma connected_seat (gs : list (gset Z)) (a b : Z) :
  connected (gs ++ [{[Z.of_nat (length gs)]}]) a b ↔ connected gs a b ∨ a = b.
Proof.
  assert (Hadj : ∀ x y, adj (gs ++ [{[Z.of_nat (length gs)]}]) x y →
            adj gs x y ∨ x = y).
  { intros x y (Hx & s & Hs & Hy).
    destruct (decide (Z.to_nat x < length gs)%nat) as [Hlt|Hge].
    - rewrite lookup_app_l in Hs by exact Hlt. left. split; eauto.
    - rewrite lookup_app_r in Hs by lia.
      destruct (Z.to_nat x - length gs)%nat as [|m] eqn:Hm; [|discriminate].
      injection Hs as <-. apply elem_of_singleton in Hy. right. lia. }
  split.
  - intros Hab. induction Hab as [a|a a' b Haa' _ IH]; [auto|].
    apply Hadj in Haa' as [Hold| ->]; [|exact IH]. left.
    destruct IH as [IH| <-]; [eapply rtc_l; eauto|apply rtc_once; exact Hold].
  - intros [Hab| ->]; [|apply rtc_refl]. revert Hab. apply connected_mono.
    intros x y (Hx & s & Hs & Hy). split; [exact Hx|]. exists s.
    split; [|exact Hy]. apply lookup_app_l_Some. exact Hs.
Qed.

(** The state after the block "Add document at the end of arrays", [k] being
    the cluster id drawn from the pool. *)
Lemma seat_consistent (st : DdCrp) (doc_id k : Z) (rest : list Z) :
  consistent st → all_assigned (self_c st) →
  self_reusable_numbers st = k :: rest →
  let st2 :=
    set_K (self_K st + 1)
      (set_N (self_N st + 1)
         (set_mixture (new_vector (self_mixture st) k)
            (set_reusable_numbers rest
               (set_g (self_g st ++ [{[self_N st]}])
                  (set_c (self_c st ++ [self_N st])
                     (set_ids (self_ids st ++ [doc_id]) st)))))) in
  consistent st2 ∧ all_assigned (self_c st2).
Proof.
  intros [HN Hz Hlinks Hgraph Hpart Hpool] Hwf Hqueue st2.
  pose proof Hgraph as [Hlen Hg]. rewrite Hqueue in Hpool.
  destruct Hpool as [Hnd Hfresh]. apply NoDup_cons in Hnd as [Hk Hnd].
  assert (Hkz : k ∉ z (self_mixture st)) by (apply Hfresh; left).
  assert (Hcl : graph_closed (self_g st))
    by (eapply graph_of_links_closed; exact Hgraph).
  split; [split|];
    cbn [st2 self_N self_c self_g self_mixture self_reusable_numbers
         set_K set_N set_mixture set_reusable_numbers set_g set_c set_ids
         new_vector z].
  - rewrite length_app. simpl. lia.
  - rewrite !length_app. simpl. lia.
  - unfold links_valid. rewrite length_app. simpl. apply Forall_app. split.
    + eapply Forall_impl; [exact Hlinks|]. unfold in_range. simpl.
      intros x [Hx|Hx]; [auto|right; lia].
    + apply Forall_singleton. right. unfold in_range. lia.
  - split; [rewrite !length_app; simpl; lia|].
    intros k' s Hs b. rewrite length_app. simpl length. rewrite HN in Hs |- *.
    assert (Hk' : 0 ≤ Z.of_nat k') by lia.
    rewrite (link_app _ _ _ Hk'). unfold in_range.
    destruct (decide (k' < length (self_g st))%nat) as [Hlt|Hge].
    + rewrite lookup_app_l in Hs by exact Hlt. rewrite (Hg _ _ Hs b).
      destruct (decide (Z.of_nat k' = Z.of_nat (length (self_c st))));
        [lia|].
      unfold in_range. split.
      * intros [Hb Hl]. split; [lia|]. rewrite link_app by lia.
        destruct (decide (b = Z.of_nat (length (self_c st)))); [lia|exact Hl].
      * intros [Hb Hl]. rewrite link_app in Hl by lia.
        destruct (decide (b = Z.of_nat (length (self_c st)))) as [->|Hne].
        -- destruct Hl as [Hl|Hl]; [|lia].
           destruct (links_valid_link _ (Z.of_nat k') Hlinks) as [Hv|Hv];
             unfold in_range in *; lia.
        -- split; [lia|exact Hl].
    + rewrite lookup_app_r in Hs by lia.
      destruct (k' - length (self_g st))%nat as [|m] eqn:Hm; [|discriminate].
      injection Hs as <-. rewrite elem_of_singleton.
      destruct (decide (Z.of_nat k' = Z.of_nat (length (self_c st))));
        [|lia].
      split; [intros ->; split; [lia|auto]|].
      intros [Hb [Hl|Hl]]; [symmetry; exact Hl|].
      rewrite link_app in Hl by lia.
      destruct (decide (b = Z.of_nat (length (self_c st)))); [assumption|].
      destruct (links_valid_link _ b Hlinks) as [Hv|Hv];
        unfold in_range in *; lia.
  - intros a b Ha Hb. rewrite length_app in Ha, Hb. simpl in Ha, Hb.
    rewrite HN, <- Hlen, connected_seat. unfold in_range in Ha, Hb.
    destruct (decide (a = Z.of_nat (length (self_g st)))) as [->|Hna];
      destruct (decide (b = Z.of_nat (length (self_g st)))) as [->|Hnb].
    + split; auto.
    + rewrite Nat2Z.id.
      rewrite (list_lookup_middle _ [] k (length (self_g st))) by lia.
      rewrite lookup_app_l by lia.
      destruct (partition_lookup _ _ b (eq_trans Hz (eq_sym Hlen)))
        as [zb Hzb]; [unfold in_range; lia|]. rewrite Hzb. split.
      * intros [Hc|Hc]; [|lia].
        destruct (connected_in_range _ _ _ Hcl Hc) as [?|[Hr _]];
          unfold in_range in *; lia.
      * intros [= ->]. destruct Hkz. eapply list_elem_of_lookup_2. exact Hzb.
    + rewrite Nat2Z.id.
      rewrite (list_lookup_middle _ [] k (length (self_g st))) by lia.
      rewrite lookup_app_l by lia.
      destruct (partition_lookup _ _ a (eq_trans Hz (eq_sym Hlen)))
        as [za Hza]; [unfold in_range; lia|]. rewrite Hza. split.
      * intros [Hc|Hc]; [|lia].
        destruct (connected_in_range _ _ _ Hcl Hc) as [?|[_ Hr]];
          unfold in_range in *; lia.
      * intros [= <-]. destruct Hkz. eapply list_elem_of_lookup_2. exact Hza.
    + rewrite !lookup_app_l by lia. split.
      * intros [Hc| ->]; [|reflexivity]. apply Hpart; [..|exact Hc];
          unfold in_range; lia.
      * intros Heq. left. apply Hpart; [..|exact Heq]; unfold in_range; lia.
  - split; [exact Hnd|]. intros x Hx Hin. apply elem_of_app in Hin as [Hin|Hin].
    + apply (Hfresh x); [right; exact Hx|exact Hin].
    + apply list_elem_of_singleton in Hin as ->. contradiction.
  - unfold all_assigned. rewrite length_app. simpl. apply Forall_app. split.
    + eapply Forall_impl; [exact Hwf|]. unfold in_range. intros x Hx. lia.
    + apply Forall_singleton. unfold in_range. lia.
Qed.

Lemma consistent_set_timestamps (st : DdCrp) (v : list R) :
  consistent st → consistent (set_timestamps v st).
Proof. intros [HN Hz Hlinks Hgraph Hpart Hpool]. split; assumption. Qed.

(** [add_document], unfolded up to the capacity test. *)
Lemma add_document_exec (st : DdCrp) (doc_id : Z) (timestamp : R) (r k : Z)
    (rest : list Z) :
  self_reusable_numbers st = k :: rest →
  let st2 :=
    set_K (self_K st + 1)
      (set_N (self_N st + 1)
         (set_mixture (new_vector (self_mixture st) k)
            (set_reusable_numbers rest
               (set_g (self_g st ++ [{[self_N st]}])
                  (set_c (self_c st ++ [self_N st])
                     (set_ids (self_ids st ++ [doc_id]) st)))))) in
  add_document st doc_id timestamp r =
    (st3 ← (if decide (self_N st + 1 > self_K_max st) then
              st3 ← _remove_assignment st2 (self_N st);
              _add_assignment st3 (self_N st) r
            else Ok st2);
     Ok (set_timestamps (self_timestamps st3 ++ [(timestamp / 86400)%R]) st3)).
Proof.
  intros Hqueue st2. unfold add_document, _get_new_cluster_number.
  cbn [self_reusable_numbers set_g set_c set_ids]. rewrite Hqueue.
  reflexivity.
Qed.

(** Ingestion keeps the invariant; afterwards every customer has a link. *)
Lemma add_document_consistent (st st' : DdCrp) (doc_id : Z) (timestamp : R)
    (r : Z) :
  consistent st → all_assigned (self_c st) → 0 ≤ r ≤ self_N st →
  add_document st doc_id timestamp r = Ok st' →
  consistent st' ∧ all_assigned (self_c st').
Proof.
  intros Hcons Hwf Hr Hadd.
  destruct (self_reusable_numbers st) as [|k rest] eqn:Hqueue.
  { unfold add_document, _get_new_cluster_number in Hadd.
    cbn [self_reusable_numbers set_g set_c set_ids] in Hadd.
    rewrite Hqueue in Hadd. discriminate. }
  rewrite (add_document_exec st doc_id timestamp r k rest Hqueue) in Hadd.
  destruct (seat_consistent st doc_id k rest Hcons Hwf Hqueue) as [Hc2 Hwf2].
  cbv zeta in Hadd, Hc2, Hwf2.
  apply bind_Ok in Hadd as (st3 & Hst3 & Hret). injection Hret as <-.
  cbn [self_c set_timestamps].
  assert (H3 : consistent st3 ∧ all_assigned (self_c st3)).
  { destruct (decide (self_N st + 1 > self_K_max st)).
    - apply bind_Ok in Hst3 as (sta & Hrem & Hlink).
      pose proof (cons_N st Hcons) as HN.
      destruct (remove_assignment_consistent _ sta (self_N st) Hc2 Hwf2)
        as [Hca Hun]; [|exact Hrem|].
      { cbn [self_c set_K set_N set_mixture set_reusable_numbers set_g set_c].
        rewrite length_app. simpl. unfold in_range. lia. }
      apply (add_assignment_consistent sta st3 (self_N st) r Hca Hun);
        [|exact Hlink].
      destruct Hun as [Hi _]. unfold in_range in *. lia.
    - injection Hst3 as <-. auto. }
  destruct H3 as [Hc3 Hwf3]. split; [|exact Hwf3].
  apply consistent_set_timestamps. exact Hc3.
Qed.

Lemma init_consistent (K : Z) (alpha : R) (decay_function : R → result R)
    (marginal : gset Z → R) :
  consistent (init K alpha decay_function marginal) ∧
  all_assigned (self_c (init K alpha decay_function marginal)).
Proof.
  split; [split|]; simpl.
  - reflexivity.
  - reflexivity.
  - apply Forall_nil_2.
  - split; [reflexivity|]. intros k s Hs. discriminate.
  - intros a b Ha. unfold in_range in Ha. simpl in Ha. lia.
  - split.
    + unfold py_range. apply NoDup_fmap_2; [apply _|apply NoDup_seq].
    + intros k _ Hk. inversion Hk.
  - apply Forall_nil_2.
Qed.

(** ** The claims on link mutation *)

(** C1: after every complete [_remove_assignment] or [_add_assignment] call
    made on a consistent state, the state is consistent again; in particular
    two customers are connected in the link graph [g] exactly when the
    mixture's [z] gives them the same cluster id. *)
Theorem components_are_clusters (st st' : DdCrp) (i t : Z) :
  consistent st →
  (all_assigned (self_c st) ∧ in_range (length (self_c st)) i ∧
   _remove_assignment st i = Ok st') ∨
  (unassigned_only (self_c st) i ∧ in_range (length (self_c st)) t ∧
   _add_assignment st i t = Ok st') →
  consistent st' ∧
  ∀ a b, in_range (length (self_c st')) a → in_range (length (self_c st')) b →
    (connected (self_g st') a b ↔
     ∃ k, z (self_mixture st') !! Z.to_nat a = Some k ∧
          z (self_mixture st') !! Z.to_nat b = Some k).
Proof.
  intros Hcons Hcall.
  assert (Hcons' : consistent st').
  { destruct Hcall as [(Hwf & Hi & Hrem)|(Hun & Ht & Hadd)].
    - exact (proj1 (remove_assignment_consistent st st' i Hcons Hwf Hi Hrem)).
    - exact (proj1 (add_assignment_consistent st st' i t Hcons Hun Ht Hadd)). }
  split; [exact Hcons'|]. intros a b Ha Hb.
  destruct Hcons' as [_ Hz _ [Hlen _] Hpart _].
  rewrite <- Hlen in Ha, Hb. rewrite (Hpart a b Ha Hb).
  destruct (partition_lookup _ _ a (eq_trans Hz (eq_sym Hlen)) Ha) as [za ->].
  destruct (partition_lookup _ _ b (eq_trans Hz (eq_sym Hlen)) Hb) as [zb ->].
  split.
  - intros [= ->]. eauto.
  - intros (k & [= ->] & [= ->]). reflexivity.
Qed.

(** The graph [remove_link] returns, written out case by case. *)
Lemma remove_link_explicit (cs : list Z) (gs : list (gset Z)) (i : Z)
    (g_i g_t : gset Z) :
  graph_of_links cs gs → in_range (length cs) i →
  in_range (length cs) (link cs i) →
  gs !! Z.to_nat i = Some g_i → gs !! Z.to_nat (link cs i) = Some g_t →
  remove_link gs i (link cs i) (link cs (link cs i))
  = Ok (if decide (link cs i = i) then <[Z.to_nat i := g_i ∖ {[i]}]> gs
        else if decide (link cs (link cs i) = i) then gs
        else <[Z.to_nat (link cs i) := g_t ∖ {[i]}]>
               (<[Z.to_nat i := g_i ∖ {[link cs i]}]> gs)).
Proof.
  intros [Hlen Hg] Hi Ht Hgi Hgt.
  assert (Hti : link cs i ∈ g_i).
  { apply (Hg _ _ Hgi). rewrite Z2Nat.id by apply Hi. auto. }
  assert (Hit : i ∈ g_t).
  { apply (Hg _ _ Hgt). rewrite Z2Nat.id by apply Ht. auto. }
  destruct (decide (link cs i = i)) as [Heq|Hne].
  - rewrite Heq in *. apply remove_link_self; [exact Hgi|apply Hi|exact Hti].
  - destruct (decide (link cs (link cs i) = i)) as [Hmut|Hnmut].
    + rewrite Hmut. apply remove_link_mutual. exact Hne.
    + apply remove_link_other; auto; apply Hi || apply Ht.
Qed.

(** C5: [_remove_assignment(i)] decides the split on the state it is called
    in; it then updates [g] by exactly one of three cases (self-link: [i]
    leaves [g[i]]; mutual pair: [g] unchanged; otherwise the target leaves
    [g[i]] and [i] leaves [g[target]]) and sets [c[i]] to [-1]. *)
Theorem remove_assignment_graph_spec (st : DdCrp) (i : Z) :
  graph_of_links (self_c st) (self_g st) → all_assigned (self_c st) →
  in_range (length (self_c st)) i →
  length (z (self_mixture st)) = length (self_c st) →
  let cs := self_c st in
  let t := link cs i in
  ∃ b g_i g_t,
    _is_table_split st i = Ok b ∧
    self_g st !! Z.to_nat i = Some g_i ∧
    self_g st !! Z.to_nat t = Some g_t ∧
    (b = false ∨ self_reusable_numbers st ≠ [] →
     ∃ st', _remove_assignment st i = Ok st') ∧
    ∀ st', _remove_assignment st i = Ok st' →
      self_c st' = <[Z.to_nat i := -1]> cs ∧
      self_g st' =
        (if decide (t = i) then <[Z.to_nat i := g_i ∖ {[i]}]> (self_g st)
         else if decide (link cs t = i) then self_g st
         else <[Z.to_nat t := g_t ∖ {[i]}]>
                (<[Z.to_nat i := g_i ∖ {[t]}]> (self_g st))) ∧
      self_K st' = (if b then self_K st + 1 else self_K st).
Proof.
  intros Hg Hwf Hi Hz cs t. subst cs t.
  destruct (remove_assignment_exec st i Hg Hwf Hi Hz)
    as (b & gs' & people & z_i & Hb & Hrm & _ & _ & _ & _ & _ & Hexec).
  destruct (link_in_range _ i Hwf Hi) as [Ht _].
  pose proof Hg as [Hlen _].
  destruct (lookup_lt_is_Some_2 (self_g st) (Z.to_nat i)) as [g_i Hgi].
  { unfold in_range in Hi. lia. }
  destruct (lookup_lt_is_Some_2 (self_g st) (Z.to_nat (link (self_c st) i)))
    as [g_t Hgt].
  { unfold in_range in Ht. lia. }
  rewrite (remove_link_explicit _ (self_g st) i g_i g_t Hg Hi Ht Hgi Hgt)
    in Hrm. injection Hrm as Hgs'.
  exists b, g_i, g_t. split; [exact Hb|]. split; [exact Hgi|].
  split; [exact Hgt|]. rewrite Hexec. cbv zeta. split.
  - intros Hok. destruct b; [|eauto].
    destruct (self_reusable_numbers st); [|eauto].
    destruct Hok as [Hf|Hne]; [discriminate|contradiction].
  - intros st' Hst'. destruct b.
    + destruct (self_reusable_numbers st); [discriminate|].
      injection Hst' as <-. cbn. auto.
    + injection Hst' as <-. cbn. auto.
Qed.

(** C6: when the split check answers [True], [_remove_assignment(i)] draws a
    new cluster id from the pool, has the mixture move exactly the component
    of [i] in the graph without the removed link to that id, and raises [K]
    by one; when it answers [False], the pool, the mixture and [K] are left
    alone. *)
Theorem remove_assignment_split_spec (st : DdCrp) (i : Z) :
  graph_of_links (self_c st) (self_g st) → all_assigned (self_c st) →
  in_range (length (self_c st)) i →
  length (z (self_mixture st)) = length (self_c st) →
  ∃ b z_i,
    _is_table_split st i = Ok b ∧
    z (self_mixture st) !! Z.to_nat i = Some z_i ∧
    (b = true →
     match self_reusable_numbers st with
     | [] => _remove_assignment st i = Raise QueueEmpty
     | new_table_no :: rest =>
         ∃ st' people,
           _remove_assignment st i = Ok st' ∧
           (∀ x, x ∈ people ↔ connected (self_g st') i x) ∧
           self_mixture st' = split (self_mixture st) z_i new_table_no people ∧
           self_reusable_numbers st' = rest ∧
           self_K st' = self_K st + 1
     end) ∧
    (b = false →
     ∃ st', _remove_assignment st i = Ok st' ∧
            self_mixture st' = self_mixture st ∧
            self_reusable_numbers st' = self_reusable_numbers st ∧
            self_K st' = self_K st).
Proof.
  intros Hg Hwf Hi Hz.
  destruct (remove_assignment_exec st i Hg Hwf Hi Hz)
    as (b & gs' & people & z_i & Hb & _ & _ & _ & Hzi & _ & Hcomp & Hexec).
  exists b, z_i. split; [exact Hb|]. split; [exact Hzi|].
  rewrite Hexec. cbv zeta. split; intros ->.
  - destruct (self_reusable_numbers st) as [|new_table_no rest];
      [reflexivity|].
    eexists. exists people. split; [reflexivity|]. cbn. auto.
  - eexists. split; [reflexivity|]. cbn. auto.
Qed.

(** C10: on a graph whose stored neighbours are customer indices,
    [_get_people_next_to(c)] returns a set that holds [c]; it is [{c}] when
    [g[c]] is empty; and the set a detected split hands to the mixture holds
    the customer whose link was removed. *)
Theorem get_people_next_to_contains (st : DdCrp) (c : Z) :
  graph_closed (self_g st) → in_range (length (self_g st)) c →
  (∃ s, _get_people_next_to st c = Ok s ∧ c ∈ s ∧
        (self_g st !! Z.to_nat c = Some ∅ → s = {[c]})) ∧
  (graph_of_links (self_c st) (self_g st) → all_assigned (self_c st) →
   length (z (self_mixture st)) = length (self_c st) →
   _is_table_split st c = Ok true →
   ∀ st', _remove_assignment st c = Ok st' →
     ∃ old new people,
       last (mix_calls (self_mixture st')) = Some (Split old new people) ∧
       c ∈ people).
Proof.
  intros Hcl Hc. split.
  - destruct (get_people_next_to_component st c Hcl Hc) as (s & Hs & Hcomp).
    exists s. split; [exact Hs|]. split; [apply Hcomp, rtc_refl|].
    intros Hempty. apply set_eq. intros x.
    rewrite Hcomp, elem_of_singleton. split; [|intros ->; apply rtc_refl].
    intros Hx. apply rtc_inv in Hx as [Heq|(y & (_ & s' & Hs' & Hy) & _)];
      [auto|].
    rewrite Hempty in Hs'. injection Hs' as <-.
    apply elem_of_empty in Hy. contradiction.
  - intros Hg Hwf Hz Hsplit st' Hrem. pose proof Hg as [Hlen _].
    rewrite Hlen in Hc.
    destruct (remove_assignment_exec st c Hg Hwf Hc Hz)
      as (b & gs' & people & z_i & Hb & _ & _ & _ & _ & _ & Hcomp & Hexec).
    assert (b = true) as -> by congruence.
    rewrite Hexec in Hrem. cbv zeta in Hrem.
    destruct (self_reusable_numbers st) as [|new rest]; [discriminate|].
    injection Hrem as <-. exists z_i, new, people. split.
    + cbn. apply last_snoc.
    + apply Hcomp, rtc_refl.
Qed.

(** ** Assignment weights *)

Lemma set_likelihood_cache_id (st : DdCrp) :
  set_likelihood_cache (self_likelihood_cache st) st = st.
Proof. destruct st. reflexivity. Qed.

(** A cache lookup returns the marginal log-likelihood and keeps the cache
    sound; nothing but the cache changes. *)
Lemma cached_likelihood_sound (st : DdCrp) (members : gset Z) :
  cache_sound st →
  ∃ cache,
    cached_likelihood st members
    = (get_marginal_likelihood (self_mixture st) members,
       set_likelihood_cache cache st) ∧
    cache_sound (set_likelihood_cache cache st).
Proof.
  intros Hsound. unfold cached_likelihood.
  destruct (self_likelihood_cache st !! members) as [v|] eqn:Hv.
  - exists (self_likelihood_cache st). rewrite set_likelihood_cache_id.
    rewrite (Hsound _ _ Hv). auto.
  - eexists. split; [reflexivity|]. intros s v. cbn.
    destruct (decide (s = members)) as [->|Hne].
    + rewrite lookup_insert_eq. congruence.
    + rewrite lookup_insert_ne by congruence. apply Hsound.
Qed.

(** [_likelihood_under_z(i, c)] is the log-likelihood ratio of merging the
    components of [i] and [c]. *)
Lemma likelihood_under_z_spec (st : DdCrp) (i c : Z) :
  graph_closed (self_g st) →
  in_range (length (self_g st)) i → in_range (length (self_g st)) c →
  cache_sound st →
  ∃ k l cache,
    (∀ x, x ∈ k ↔ connected (self_g st) i x) ∧
    (∀ x, x ∈ l ↔ connected (self_g st) c x) ∧
    _likelihood_under_z st i c
    = Ok ((get_marginal_likelihood (self_mixture st) (k ∪ l)
           - get_marginal_likelihood (self_mixture st) k
           - get_marginal_likelihood (self_mixture st) l)%R,
          set_likelihood_cache cache st) ∧
    cache_sound (set_likelihood_cache cache st).
Proof.
  intros Hcl Hi Hc Hsound.
  destruct (get_people_next_to_component st i Hcl Hi) as (k & Hk & Hkc).
  destruct (get_people_next_to_component st c Hcl Hc) as (l & Hl & Hlc).
  destruct (cached_likelihood_sound st k Hsound) as (c1 & E1 & S1).
  destruct (cached_likelihood_sound _ l S1) as (c2 & E2 & S2).
  destruct (cached_likelihood_sound _ (k ∪ l) S2) as (c3 & E3 & S3).
  exists k, l, c3. split; [exact Hkc|]. split; [exact Hlc|].
  unfold _likelihood_under_z. rewrite Hk, bind_ret, Hl, bind_ret.
  cbv zeta. rewrite E1, E2, E3. split; [reflexivity|exact S3].
Qed.

Lemma math_log_pos (x : R) : (0 < x)%R → math_log x = Ok (ln x).
Proof.
  intros Hx. unfold math_log. destruct (Rlt_dec 0 x); [reflexivity|].
  contradiction.
Qed.

Lemma math_log_nonpos (x : R) : (x <= 0)%R → math_log x = Raise ValueError.
Proof.
  intros Hx. unfold math_log. destruct (Rlt_dec 0 x); [lra|reflexivity].
Qed.

Lemma exp_INR (n : nat) : exp (INR n) = (exp 1 ^ n)%R.
Proof.
  induction n as [|n IH].
  - simpl. apply exp_0.
  - rewrite S_INR, exp_plus, IH. simpl. ring.
Qed.

Lemma exp_1_bounds : (2 <= exp 1 <= 4)%R.
Proof.
  split.
  - assert (1 + 1 < exp 1)%R by (apply exp_ineq1; lra). lra.
  - pose proof exp_le_3. lra.
Qed.

Lemma exp_INR_lower (n : nat) : (2 ^ n <= exp (INR n))%R.
Proof.
  rewrite exp_INR. apply pow_incr. pose proof exp_1_bounds. lra.
Qed.

Lemma exp_INR_upper (n : nat) : (exp (INR n) <= 2 ^ (2 * n))%R.
Proof.
  rewrite exp_INR, pow_mult. apply pow_incr.
  pose proof exp_1_bounds. pose proof (exp_pos 1). simpl. lra.
Qed.

Lemma exp_underflow_pos : (0 < exp_underflow)%R.
Proof. apply Rinv_0_lt_compat, pow_lt. lra. Qed.

Lemma exp_overflow_large : (2 ^ 1000 < exp_overflow)%R.
Proof.
  unfold exp_overflow.
  replace 1024%nat with (970 + 54)%nat by reflexivity.
  replace 1000%nat with (970 + 30)%nat by reflexivity.
  rewrite !pow_add.
  assert (H970 : (0 < 2 ^ 970)%R) by (apply pow_lt; lra).
  assert (H : (2 ^ 30 + 1 < 2 ^ 54)%R).
  { replace 54%nat with (30 + 24)%nat by reflexivity. rewrite pow_add.
    assert (H30 : (1 <= 2 ^ 30)%R) by (apply pow_R1_Rle; lra).
    assert (H24 : (4 <= 2 ^ 24)%R).
    { replace 24%nat with (2 + 22)%nat by reflexivity. rewrite pow_add.
      assert (1 <= 2 ^ 22)%R by (apply pow_R1_Rle; lra). simpl. lra. }
    nra. }
  nra.
Qed.

Lemma exp_le_mono (x y : R) : (x <= y)%R → (exp x <= exp y)%R.
Proof.
  intros [Hlt| ->]; [left; apply exp_increasing; exact Hlt|right; reflexivity].
Qed.

(** Within 500 of zero from below the exponential is in range. *)
Lemma math_exp_near (x : R) :
  (-500 <= x <= 0)%R → math_exp x = Ok (exp x) ∧ (0 < exp x <= 1)%R.
Proof.
  intros [Hlo Hhi].
  assert (H1 : (exp x <= 1)%R) by (rewrite <- exp_0; apply exp_le_mono; exact Hhi).
  assert (Hup : (exp 500 < 2 ^ 1075)%R).
  { replace 500%R with (INR 500) by (rewrite INR_IZR_INZ; reflexivity).
    eapply Rle_lt_trans; [apply exp_INR_upper|].
    apply Rlt_pow; [lra|]. simpl. lia. }
  assert (Hlow : (exp_underflow < exp x)%R).
  { eapply Rlt_le_trans; [|apply (exp_le_mono (-500) x Hlo)].
    change (-500)%R with (Ropp 500). rewrite exp_Ropp. unfold exp_underflow.
    apply Rinv_lt_contravar; [|exact Hup].
    apply Rmult_lt_0_compat; [apply exp_pos|apply pow_lt; lra]. }
  split; [|split; [apply exp_pos|exact H1]].
  unfold math_exp.
  destruct (Rle_dec exp_overflow (exp x)) as [Hov|_].
  { pose proof exp_overflow_large.
    assert (1 <= 2 ^ 1000)%R by (apply pow_R1_Rle; lra). lra. }
  destruct (Rle_dec (exp x) exp_underflow); [lra|reflexivity].
Qed.

Lemma math_exp_far (x : R) : (x <= -1075)%R → math_exp x = Ok 0%R.
Proof.
  intros Hx.
  assert (Hlow : (exp x <= exp_underflow)%R).
  { eapply Rle_trans; [apply (exp_le_mono x (-1075) Hx)|].
    change (-1075)%R with (Ropp 1075). rewrite exp_Ropp. unfold exp_underflow.
    apply Rinv_le_contravar; [apply pow_lt; lra|].
    replace 1075%R with (INR 1075) by (rewrite INR_IZR_INZ; reflexivity).
    apply exp_INR_lower. }
  unfold math_exp.
  destruct (Rle_dec exp_overflow (exp x)) as [Hov|_].
  { pose proof exp_overflow_large.
    assert (1 <= 2 ^ 1000)%R by (apply pow_R1_Rle; lra).
    assert (exp_underflow < 1)%R.
    { unfold exp_underflow. rewrite <- Rinv_1.
      apply Rinv_lt_contravar; [rewrite Rmult_1_l; apply pow_lt; lra|].
      apply Rlt_pow_R1; [lra|lia]. }
    lra. }
  destruct (Rle_dec (exp x) exp_underflow); [reflexivity|contradiction].
Qed.

Lemma math_exp_overflow (x : R) :
  (1024 <= x)%R → math_exp x = Raise OverflowError.
Proof.
  intros Hx. unfold math_exp.
  destruct (Rle_dec exp_overflow (exp x)) as [_|Hn]; [reflexivity|].
  destruct Hn. eapply Rle_trans; [|apply (exp_le_mono 1024 x Hx)].
  replace 1024%R with (INR 1024) by (rewrite INR_IZR_INZ; reflexivity).
  eapply Rle_trans; [|apply exp_INR_lower]. unfold exp_overflow.
  assert (0 < 2 ^ 970)%R by (apply pow_lt; lra). lra.
Qed.

(** What [math.exp] returns when it returns. *)
Lemma math_exp_value (x w : R) :
  math_exp x = Ok w → (w = 0%R ∨ w = exp x) ∧ (0 <= w <= exp x)%R.
Proof.
  unfold math_exp. pose proof (exp_pos x).
  destruct (Rle_dec exp_overflow (exp x)); [discriminate|].
  destruct (Rle_dec (exp x) exp_underflow); intros [= <-]; split; auto; lra.
Qed.

(** No overflow up to 500. *)
Lemma math_exp_returns (x : R) : (x <= 500)%R → ∃ w, math_exp x = Ok w.
Proof.
  intros Hx. unfold math_exp.
  destruct (Rle_dec exp_overflow (exp x)) as [Hov|_].
  - exfalso. pose proof exp_overflow_large.
    assert (exp x <= 2 ^ 1000)%R; [|lra].
    eapply Rle_trans; [apply (exp_le_mono x 500 Hx)|].
    replace 500%R with (INR 500) by (rewrite INR_IZR_INZ; reflexivity).
    apply exp_INR_upper.
  - destruct (Rle_dec (exp x) exp_underflow); eauto.
Qed.

(** [exponential_decay] up to 500 decay constants away. *)
Lemma exponential_decay_near (d a : R) :
  (0 < a)%R → (0 <= d <= 500 * a)%R →
  exponential_decay d a = Ok (exp (- d / a)) ∧ (0 < exp (- d / a))%R.
Proof.
  intros Ha [Hd Hnear]. unfold exponential_decay.
  destruct (Req_dec_T a 0); [lra|].
  assert (Hx : (- d / a * a = - d)%R) by (field; lra).
  destruct (math_exp_near (- d / a)) as [Hexp [Hpos _]]; [nra|]. auto.
Qed.

(** C3: the log-weight of candidate [t] for customer [i] is [log(alpha)] when
    [t == i]; [log(decay(|timestamp[i] - timestamp[t]|))] when [t != i] and
    [z[i] == z[t]]; and that prior plus [L(k ∪ l) - L(k) - L(l)] when
    [z[i] != z[t]], [k] and [l] being the components of [i] and [t] in the
    link graph and [L] the marginal log-likelihood. *)
Theorem assignment_probability_spec (st : DdCrp) (i t : Z) (t_i t_t : R)
    (z_i z_t : Z) (w : R) :
  graph_closed (self_g st) →
  in_range (length (self_g st)) i → in_range (length (self_g st)) t →
  self_timestamps st !! Z.to_nat i = Some t_i →
  self_timestamps st !! Z.to_nat t = Some t_t →
  z (self_mixture st) !! Z.to_nat i = Some z_i →
  z (self_mixture st) !! Z.to_nat t = Some z_t →
  cache_sound st → (0 < self_alpha st)%R →
  self_f st (Rabs (t_i - t_t)) = Ok w → (0 < w)%R →
  let L := get_marginal_likelihood (self_mixture st) in
  ∃ k l cache,
    (∀ x, x ∈ k ↔ connected (self_g st) i x) ∧
    (∀ x, x ∈ l ↔ connected (self_g st) t x) ∧
    _assignment_probability st i t
    = Ok (if decide (t = i) then ln (self_alpha st)
          else if decide (z_i = z_t) then ln w
          else (ln w + (L (k ∪ l) - L k - L l))%R,
          set_likelihood_cache cache st) ∧
    cache_sound (set_likelihood_cache cache st).
Proof.
  intros Hcl Hi Ht Hti Htt Hzi Hzt Hsound Halpha Hf Hw L.
  destruct (likelihood_under_z_spec st i t Hcl Hi Ht Hsound)
    as (k & l & cache & Hk & Hl & Hlz & Hsound').
  unfold _assignment_probability.
  destruct (decide (i = t)) as [Heq|Hne].
  - exists k, l, (self_likelihood_cache st).
    rewrite set_likelihood_cache_id. split; [exact Hk|]. split; [exact Hl|].
    split; [|exact Hsound]. rewrite (math_log_pos _ Halpha), bind_ret.
    destruct (decide (t = i)); [reflexivity|congruence].
  - rewrite (py_getitem_lookup _ i t_i) by (apply Hi || exact Hti).
    rewrite bind_ret.
    rewrite (py_getitem_lookup _ t t_t) by (apply Ht || exact Htt).
    rewrite bind_ret. cbv zeta.
    rewrite (py_getitem_lookup _ i z_i) by (apply Hi || exact Hzi).
    rewrite bind_ret.
    rewrite (py_getitem_lookup _ t z_t) by (apply Ht || exact Hzt).
    rewrite bind_ret.
    destruct (decide (t = i)) as [Heq|_]; [congruence|].
    destruct (decide (z_i = z_t)) as [Hz|Hz].
    + exists k, l, (self_likelihood_cache st).
      rewrite set_likelihood_cache_id. split; [exact Hk|]. split; [exact Hl|].
      split; [|exact Hsound].
      rewrite Hf, bind_ret, (math_log_pos _ Hw), bind_ret. reflexivity.
    + exists k, l, cache. split; [exact Hk|]. split; [exact Hl|].
      split; [|exact Hsound'].
      rewrite Hf, bind_ret, (math_log_pos _ Hw), bind_ret, Hlz, bind_ret.
      reflexivity.
Qed.

(** ** Normalisation *)






Lemma probabilities_loop_ids (cands : list Z) (st st' : DdCrp) (i : Z)
    (probabilities : list (Z * R)) :
  probabilities_loop st i cands = Ok (probabilities, st') →
  fst <$> probabilities = cands.
Proof.
  revert st probabilities. induction cands as [|c cands IH];
    intros st probabilities Hloop; simpl in Hloop.
  - injection Hloop as <- _. reflexivity.
  - apply bind_Ok in Hloop as ([prob st1] & _ & Hloop).
    apply bind_Ok in Hloop as ([ps st2] & Hrec & Hret).
    injection Hret as <- ->. simpl. f_equal. eapply IH. exact Hrec.
Qed.


(** ** The example runs *)

Lemma run_succeeds (r : result DdCrp) (d : DdCrp) :
  succeeds r = true → r = Ok (run r d).
Proof. destruct r; [reflexivity|discriminate]. Qed.

Lemma example_one_run :
  add_document example_start 10 0%R 0 = Ok example_one.
Proof. apply run_succeeds. vm_compute. reflexivity. Qed.

Lemma example_two_run :
  add_document example_one 11 86400%R 0 = Ok example_two.
Proof. apply run_succeeds. vm_compute. reflexivity. Qed.

Lemma example_singles_run :
  add_document example_two 12 172800%R 0 = Ok example_singles.
Proof. apply run_succeeds. vm_compute. reflexivity. Qed.

Lemma example_open1_run :
  _remove_assignment example_singles 1 = Ok example_open1.
Proof. apply run_succeeds. vm_compute. reflexivity. Qed.

Lemma example_pair_run : _add_assignment example_open1 1 0 = Ok example_pair.
Proof. apply run_succeeds. vm_compute. reflexivity. Qed.

Lemma example_open2_run : _remove_assignment example_pair 2 = Ok example_open2.
Proof. apply run_succeeds. vm_compute. reflexivity. Qed.

Lemma example_chain_run : _add_assignment example_open2 2 1 = Ok example_chain.
Proof. apply run_succeeds. vm_compute. reflexivity. Qed.

Lemma example_split_run :
  _remove_assignment example_chain 2 = Ok example_split.
Proof. apply run_succeeds. vm_compute. reflexivity. Qed.

Lemma example_one_open_run :
  _remove_assignment example_one 0 = Ok example_one_open.
Proof. apply run_succeeds. vm_compute. reflexivity. Qed.

Ltac by_compute := apply (bool_decide_unpack _); vm_compute; exact I.

Lemma example_one_consistent :
  consistent example_one ∧ all_assigned (self_c example_one).
Proof.
  destruct (init_consistent 4 1%R (λ d, exponential_decay d 1%R) (λ _, 0%R))
    as [Hc Hwf].
  eapply add_document_consistent; [exact Hc|exact Hwf| |exact example_one_run].
  vm_compute. split; discriminate.
Qed.

Lemma example_two_consistent :
  consistent example_two ∧ all_assigned (self_c example_two).
Proof.
  destruct example_one_consistent as [Hc Hwf].
  eapply add_document_consistent; [exact Hc|exact Hwf| |exact example_two_run].
  vm_compute. split; discriminate.
Qed.

Lemma example_singles_consistent :
  consistent example_singles ∧ all_assigned (self_c example_singles).
Proof.
  destruct example_two_consistent as [Hc Hwf].
  eapply add_document_consistent;
    [exact Hc|exact Hwf| |exact example_singles_run].
  vm_compute. split; discriminate.
Qed.

Lemma example_pair_consistent :
  consistent example_pair ∧ all_assigned (self_c example_pair).
Proof.
  destruct example_singles_consistent as [Hc Hwf].
  destruct (remove_assignment_consistent example_singles example_open1 1
              Hc Hwf) as [Hc1 Hun1]; [by_compute|exact example_open1_run|].
  apply (add_assignment_consistent _ _ 1 0 Hc1 Hun1); [by_compute|].
  exact example_pair_run.
Qed.

Lemma example_chain_consistent :
  consistent example_chain ∧ all_assigned (self_c example_chain).
Proof.
  destruct example_pair_consistent as [Hc Hwf].
  destruct (remove_assignment_consistent example_pair example_open2 2
              Hc Hwf) as [Hc1 Hun1]; [by_compute|exact example_open2_run|].
  apply (add_assignment_consistent _ _ 2 1 Hc1 Hun1); [by_compute|].
  exact example_chain_run.
Qed.

Lemma example_split_consistent :
  consistent example_split ∧ unassigned_only (self_c example_split) 2.
Proof.
  destruct example_chain_consistent as [Hc Hwf].
  apply (remove_assignment_consistent _ _ 2 Hc Hwf); [by_compute|].
  exact example_split_run.
Qed.

(** ** The claims at the example runs *)

Lemma components_are_clusters_witness :
  consistent example_split ∧
  ∀ a b, in_range (length (self_c example_split)) a →
         in_range (length (self_c example_split)) b →
    (connected (self_g example_split) a b ↔
     ∃ k, z (self_mixture example_split) !! Z.to_nat a = Some k ∧
          z (self_mixture example_split) !! Z.to_nat b = Some k).
Proof.
  apply (components_are_clusters example_chain example_split 2 0).
  - exact (proj1 example_chain_consistent).
  - left. split; [exact (proj2 example_chain_consistent)|].
    split; [by_compute|exact example_split_run].
Defined.

Lemma is_table_split_spec_witness :
  _is_table_split example_chain 0 = Ok false ∧
  _is_table_split example_chain 2 = Ok true.
Proof.
  split.
  - apply (proj1 (is_table_split_spec example_chain 0
                    (proj2 example_chain_consistent) ltac:(by_compute))).
    vm_compute. reflexivity.
  - destruct (is_table_split_spec example_chain 2
                (proj2 example_chain_consistent) ltac:(by_compute))
      as (_ & _ & Hwalk).
    apply Hwalk; [vm_compute; discriminate..|].
    exists 1%nat, 2%nat. split; [lia|]. split; [vm_compute; reflexivity|].
    intros [|[|[|m]]] Hm; [vm_compute; discriminate..|lia].
Defined.

Lemma assignment_probability_spec_witness :
  ∃ w st', _assignment_probability example_split 2 0 = Ok (w, st') ∧
           cache_sound st'.
Proof.
  destruct (assignment_probability_spec example_split 2 0
              (172800 / 86400)%R (0 / 86400)%R 3 0
              (exp (- Rabs (172800 / 86400 - 0 / 86400) / 1)))
    as (k & l & cache & _ & _ & Heq & Hsound).
  - by_compute.
  - by_compute.
  - by_compute.
  - reflexivity.
  - reflexivity.
  - reflexivity.
  - reflexivity.
  - intros s v Hv. change (self_likelihood_cache example_split) with
      (∅ : gmap (gset Z) R) in Hv. rewrite lookup_empty in Hv. discriminate.
  - change (0 < 1)%R. lra.
  - change (exponential_decay (Rabs (172800 / 86400 - 0 / 86400)) 1
            = Ok (exp (- Rabs (172800 / 86400 - 0 / 86400) / 1))).
    apply exponential_decay_near; [lra|].
    split; [apply Rabs_pos|apply Rabs_le; lra].
  - apply exp_pos.
  - eauto.
Defined.

Lemma add_assignment_spec_witness :
  ∃ st', _add_assignment example_split 2 0 = Ok st' ∧
         self_mixture st' = merge (self_mixture example_split) 0 3 ∧
         self_reusable_numbers st' = self_reusable_numbers example_split ++ [3] ∧
         self_K st' = self_K example_split - 1.
Proof.
  destruct (add_assignment_spec example_split 2 0 3 0)
    as (st' & Hadd & _ & _ & _ & Hmerge & _).
  - vm_compute. reflexivity.
  - by_compute.
  - by_compute.
  - reflexivity.
  - reflexivity.
  - exists st'. split; [exact Hadd|]. apply Hmerge. discriminate.
Defined.

Lemma remove_assignment_graph_spec_witness :
  ∃ b, _is_table_split example_chain 2 = Ok b ∧
       ∀ st', _remove_assignment example_chain 2 = Ok st' →
              self_c st' = <[2%nat := -1]> (self_c example_chain) ∧
              self_K st' = (if b then self_K example_chain + 1
                            else self_K example_chain).
Proof.
  destruct (remove_assignment_graph_spec example_chain 2)
    as (b & g_i & g_t & Hb & _ & _ & _ & Hpost).
  - exact (cons_graph _ (proj1 example_chain_consistent)).
  - exact (proj2 example_chain_consistent).
  - by_compute.
  - exact (cons_z _ (proj1 example_chain_consistent)).
  - exists b. split; [exact Hb|]. intros st' Hst'.
    destruct (Hpost st' Hst') as (Hc & _ & HK). auto.
Defined.

Lemma remove_assignment_split_spec_witness :
  ∃ b z_i, _is_table_split example_chain 2 = Ok b ∧
           z (self_mixture example_chain) !! 2%nat = Some z_i.
Proof.
  destruct (remove_assignment_split_spec example_chain 2)
    as (b & z_i & Hb & Hz & _).
  - exact (cons_graph _ (proj1 example_chain_consistent)).
  - exact (proj2 example_chain_consistent).
  - by_compute.
  - exact (cons_z _ (proj1 example_chain_consistent)).
  - exists b, z_i. auto.
Defined.

Lemma get_people_next_to_contains_witness :
  ∃ s, _get_people_next_to example_split 2 = Ok s ∧ 2 ∈ s.
Proof.
  destruct (get_people_next_to_contains example_split 2)
    as [(s & Hs & Hin & _) _].
  - by_compute.
  - by_compute.
  - exists s. auto.
Defined.

(** The log-weights of a system holding one customer. *)
Lemma single_customer_logs (st : DdCrp) :
  self_N st = 1 → (0 < self_alpha st)%R →
  _get_assignment_probabilities st 0 = Ok ([(0, ln (self_alpha st))], st).
Proof.
  intros HN Halpha. unfold _get_assignment_probabilities. rewrite HN.
  change (py_range 1) with [0]. simpl. unfold _assignment_probability.
  destruct (decide (0 = 0)); [|contradiction].
  rewrite (math_log_pos _ Halpha). reflexivity.
Qed.

(** ** A zero decay weight *)

(** A candidate in another cluster whose window weight is zero makes the
    log-weight computation raise. *)
Lemma window_decay_raises (st : DdCrp) (i c : Z) (t_i t_c : R) (a : R) :
  i ≠ c → 0 ≤ i → 0 ≤ c →
  self_timestamps st !! Z.to_nat i = Some t_i →
  self_timestamps st !! Z.to_nat c = Some t_c →
  in_range (length (z (self_mixture st))) i →
  in_range (length (z (self_mixture st))) c →
  self_f st (Rabs (t_i - t_c)) = window_decay (Rabs (t_i - t_c)) a →
  (a <= Rabs (t_i - t_c))%R →
  _assignment_probability st i c = Raise ValueError.
Proof.
  intros Hne Hi Hc Hti Htc Hzi Hzc Hf Hfar. unfold _assignment_probability.
  destruct (decide (i = c)); [contradiction|].
  rewrite (py_getitem_lookup _ i t_i Hi Hti), bind_ret.
  rewrite (py_getitem_lookup _ c t_c Hc Htc), bind_ret. cbv zeta.
  destruct (py_getitem_in_range _ i Hzi) as (z_i & -> & _).
  destruct (py_getitem_in_range _ c Hzc) as (z_c & -> & _).
  rewrite !bind_ret, Hf. unfold window_decay.
  destruct (Rlt_dec (Rabs (t_i - t_c)) a) as [Hlt|_]; [lra|].
  rewrite !bind_ret, (math_log_nonpos 0%R) by lra.
  destruct (decide (z_i = z_c)); reflexivity.
Qed.

(** C7 fails on the code: with the window decay of this file and two
    customers two days apart, the Gibbs step on customer 0 takes the logarithm
    of the zero weight of candidate 1 and raises [ValueError]. *)
Theorem window_decay_log_of_zero :
  _remove_assignment example_window 0 = Ok example_window_open ∧
  self_f example_window_open 2%R = window_decay 2%R 1%R ∧
  window_decay 2%R 1%R = Ok 0%R ∧
  _assignment_probability example_window_open 0 1 = Raise ValueError ∧
  sampling_distribution example_window 0 = Raise ValueError.
Proof.
  assert (Hrun : _remove_assignment example_window 0 = Ok example_window_open).
  { apply run_succeeds. vm_compute. reflexivity. }
  assert (Hd : Rabs (0 / 86400 - 172800 / 86400) = 2%R).
  { unfold Rabs. destruct (Rcase_abs (0 / 86400 - 172800 / 86400)); lra. }
  assert (Hraise :
    _assignment_probability example_window_open 0 1 = Raise ValueError).
  { apply (window_decay_raises example_window_open 0 1
             (0 / 86400)%R (172800 / 86400)%R 1%R);
      [discriminate|lia|lia|reflexivity|reflexivity|by_compute|by_compute
      |reflexivity|rewrite Hd; lra]. }
  split; [exact Hrun|]. split; [reflexivity|]. split.
  { unfold window_decay. destruct (Rlt_dec 2 1); [lra|reflexivity]. }
  split; [exact Hraise|].
  unfold sampling_distribution. rewrite Hrun, bind_ret.
  unfold _get_assignment_probabilities.
  change (self_N example_window_open) with 2. change (py_range 2) with [0; 1].
  cbn [probabilities_loop].
  assert (Hself : _assignment_probability example_window_open 0 0
                  = Ok (ln 1, example_window_open)).
  { unfold _assignment_probability. destruct (decide (0 = 0)); [|contradiction].
    rewrite (math_log_pos (self_alpha example_window_open)).
    - reflexivity.
    - change (0 < 1)%R. lra. }
  rewrite Hself, bind_ret. cbn beta iota. rewrite Hraise. reflexivity.
Qed.

(** ** A capacity draw that returns the new customer *)

(** C9 as stated fails: with two tables allowed and two customers seated, a
    third customer whose [random.randint(0, 2)] draw is 2 goes through the
    capacity branch and ends self-linked, alone in its cluster, kept as a
    singleton. *)
Theorem add_document_self_draw :
  self_N example_full + 1 > self_K_max example_full ∧
  add_document example_full 12 172800%R 2 = Ok example_overflow ∧
  self_c example_overflow = [0; 0; 2] ∧
  self_g example_overflow !! 2%nat = Some {[2]} ∧
  z (self_mixture example_overflow) = [0; 0; 1] ∧
  self_K example_overflow = 2.
Proof.
  split; [vm_compute; reflexivity|].
  split; [apply run_succeeds; vm_compute; reflexivity|].
  vm_compute. auto.
Qed.

(** * Part III: further properties of the code *)

(** ** What the link mutations leave alone *)

Lemma py_setitem_length {A} (l l' : list A) (k : Z) (v : A) :
  py_setitem l k v = Ok l' → length l' = length l.
Proof.
  unfold py_setitem. intros H. apply bind_Ok in H as (n & _ & H).
  injection H as <-. apply length_insert.
Qed.

Lemma same_setting_refl (st : DdCrp) : same_setting st st.
Proof. repeat split. Qed.

Lemma same_setting_trans (st1 st2 st3 : DdCrp) :
  same_setting st1 st2 → same_setting st2 st3 → same_setting st1 st3.
Proof.
  intros (A1 & A2 & A3 & A4 & A5 & A6 & A7) (B1 & B2 & B3 & B4 & B5 & B6 & B7).
  repeat split; congruence.
Qed.

Lemma join_tables_setting (st : DdCrp) (z_i z_c : Z) :
  same_setting st (join_tables st z_i z_c).
Proof.
  unfold join_tables. destruct (decide (z_i ≠ z_c)); [|apply same_setting_refl].
  destruct (decide (z_i > z_c)); repeat split.
Qed.

Lemma remove_link_length (gs gs' : list (gset Z)) (i c c_c : Z) :
  remove_link gs i c c_c = Ok gs' → length gs' = length gs.
Proof.
  unfold remove_link. intros H.
  destruct (decide (c = i)); [|destruct (decide (c_c = i))].
  - apply bind_Ok in H as (g_i & _ & H). apply bind_Ok in H as (g_i' & _ & H).
    eapply py_setitem_length. exact H.
  - injection H as <-. reflexivity.
  - apply bind_Ok in H as (g_i & _ & H). apply bind_Ok in H as (g_i' & _ & H).
    apply bind_Ok in H as (gs1 & H1 & H). apply bind_Ok in H as (g_c & _ & H).
    apply bind_Ok in H as (g_c' & _ & H).
    apply py_setitem_length in H, H1. congruence.
Qed.

(** Whatever the state, a call of [_add_assignment] that returns has kept
    the setting and the sizes of [c] and [g]. *)
Lemma add_assignment_frame (st st' : DdCrp) (i t : Z) :
  _add_assignment st i t = Ok st' →
  same_setting st st' ∧ length (self_c st') = length (self_c st) ∧
  length (self_g st') = length (self_g st).
Proof.
  unfold _add_assignment. intros H.
  apply bind_Ok in H as (z_i & _ & H). apply bind_Ok in H as (z_t & _ & H).
  cbv zeta in H. apply bind_Ok in H as (cs & Hcs & H).
  apply bind_Ok in H as (g_i & _ & H). apply bind_Ok in H as (gs1 & Hgs1 & H).
  apply bind_Ok in H as (g_t & _ & H). apply bind_Ok in H as (gs2 & Hgs2 & H).
  injection H as <-. cbn [self_g set_g set_c] in *.
  apply py_setitem_length in Hcs, Hgs1, Hgs2.
  rewrite join_tables_c in Hcs. rewrite join_tables_g in Hgs1.
  split; [|split; cbn; congruence].
  eapply same_setting_trans; [apply (join_tables_setting st z_i z_t)|].
  repeat split.
Qed.

(** The same for [_remove_assignment]. *)
Lemma remove_assignment_frame (st st' : DdCrp) (i : Z) :
  _remove_assignment st i = Ok st' →
  same_setting st st' ∧ length (self_c st') = length (self_c st) ∧
  length (self_g st') = length (self_g st).
Proof.
  unfold _remove_assignment. intros H.
  apply bind_Ok in H as (b & _ & H). apply bind_Ok in H as (c & _ & H).
  apply bind_Ok in H as (c_c & _ & H). apply bind_Ok in H as (gs & Hgs & H).
  cbv zeta in H. apply bind_Ok in H as (cs & Hcs & H).
  apply remove_link_length in Hgs. apply py_setitem_length in Hcs.
  cbn [self_c set_g] in Hcs. destruct b.
  - apply bind_Ok in H as ([new st1] & Hnew & H).
    unfold _get_new_cluster_number in Hnew.
    cbn [self_reusable_numbers set_c set_g] in Hnew.
    destruct (self_reusable_numbers st) as [|q rest]; [discriminate|].
    injection Hnew as <- <-.
    apply bind_Ok in H as (z_i & _ & H). apply bind_Ok in H as (people & _ & H).
    injection H as <-. cbn. repeat split; congruence.
  - injection H as <-. cbn. repeat split; congruence.
Qed.

(** ** Counting tables *)

Lemma tables_seat (zs : list Z) (k : Z) :
  k ∉ zs → tables (zs ++ [k]) = S (tables zs).
Proof.
  intros Hk. unfold tables. rewrite list_to_set_app_L, list_to_set_singleton.
  rewrite size_union, size_singleton; [lia|].
  intros x Hx Hx'. apply elem_of_singleton in Hx' as ->.
  apply elem_of_list_to_set in Hx. contradiction.
Qed.

Lemma tables_merge (zs : list Z) (lo hi : Z) :
  lo ∈ zs → hi ∈ zs → lo ≠ hi →
  S (tables ((λ k, if decide (k = hi) then lo else k) <$> zs)) = tables zs.
Proof.
  intros Hlo Hhi Hne. unfold tables.
  assert (Heq : (list_to_set ((λ k, if decide (k = hi) then lo else k) <$> zs)
                 : gset Z) = list_to_set zs ∖ {[hi]}).
  { apply set_eq. intros x.
    rewrite elem_of_difference, !elem_of_list_to_set, list_elem_of_fmap,
      elem_of_singleton. split.
    - intros (y & -> & Hy). destruct (decide (y = hi)); auto.
    - intros [Hx Hxh]. exists x. split; [|exact Hx].
      destruct (decide (x = hi)); [contradiction|reflexivity]. }
  rewrite Heq, size_difference, size_singleton.
  - assert (Hpos : (size (list_to_set zs : gset Z) ≠ 0)%nat); [|lia].
    intros H0. apply size_empty_inv in H0.
    assert (Hin : hi ∈ (list_to_set zs : gset Z))
      by (apply elem_of_list_to_set; exact Hhi).
    rewrite (H0 hi) in Hin. apply elem_of_empty in Hin. exact Hin.
  - intros x Hx. apply elem_of_singleton in Hx as ->.
    apply elem_of_list_to_set. exact Hhi.
Qed.

Lemma tables_split (zs : list Z) (people : gset Z) (new : Z) (i : nat) :
  new ∉ zs → (i < length zs)%nat → Z.of_nat i ∈ people →
  (∀ x, x ∈ zs → ∃ a, zs !! a = Some x ∧ Z.of_nat a ∉ people) →
  tables (imap (λ j k, if decide (Z.of_nat j ∈ people) then new else k) zs)
  = S (tables zs).
Proof.
  intros Hnew Hi Hip Hstay. unfold tables.
  assert (Heq : (list_to_set
                   (imap (λ j k, if decide (Z.of_nat j ∈ people) then new
                                  else k) zs) : gset Z)
                = {[new]} ∪ list_to_set zs).
  { apply set_eq. intros x.
    rewrite elem_of_union, elem_of_singleton, !elem_of_list_to_set.
    rewrite !list_elem_of_lookup. split.
    - intros (j & Hj). rewrite list_lookup_imap in Hj.
      destruct (zs !! j) as [y|] eqn:Hy; [|discriminate]. simpl in Hj.
      injection Hj as Hj. destruct (decide (Z.of_nat j ∈ people)); [auto|].
      right. exists j. congruence.
    - intros [->|(j & Hj)].
      + exists i. rewrite list_lookup_imap.
        destruct (lookup_lt_is_Some_2 zs i Hi) as [y ->]. simpl.
        destruct (decide (Z.of_nat i ∈ people)); [reflexivity|contradiction].
      + destruct (Hstay x) as (a & Ha & Hout).
        { eapply list_elem_of_lookup_2. exact Hj. }
        exists a. rewrite list_lookup_imap, Ha. simpl.
        destruct (decide (Z.of_nat a ∈ people)); [contradiction|reflexivity]. }
  rewrite Heq, size_union, size_singleton; [lia|].
  intros x Hx Hx'. apply elem_of_singleton in Hx as ->.
  apply elem_of_list_to_set in Hx'. contradiction.
Qed.

Lemma add_assignment_counted (st st' : DdCrp) (i t : Z) :
  consistent st → counted st →
  in_range (length (self_c st)) i → in_range (length (self_c st)) t →
  _add_assignment st i t = Ok st' → counted st'.
Proof.
  intros Hcons [HK Hids] Hi Ht Hadd.
  destruct (add_assignment_frame st st' i t Hadd)
    as ((_ & _ & _ & _ & Hids' & _) & Hlc & _).
  pose proof (cons_z st Hcons) as Hz.
  pose proof (cons_graph st Hcons) as [Hlen _].
  destruct (lookup_lt_is_Some_2 (z (self_mixture st)) (Z.to_nat i)) as [z_i Hzi].
  { unfold in_range in Hi. lia. }
  destruct (lookup_lt_is_Some_2 (z (self_mixture st)) (Z.to_nat t)) as [z_t Hzt].
  { unfold in_range in Ht. lia. }
  destruct (add_assignment_exec st i t z_i z_t Hlen Hi Ht Hzi Hzt)
    as (g_i & g_t & _ & _ & Hexec).
  rewrite Hexec in Hadd. injection Hadd as <-.
  split; [|congruence]. cbn [self_K self_mixture set_g set_c].
  rewrite join_tables_z. destruct (decide (z_i = z_t)) as [->|Hne].
  - rewrite join_tables_same. exact HK.
  - destruct (join_tables_merge st z_i z_t Hne) as (_ & _ & ->).
    rewrite HK, <- (tables_merge (z (self_mixture st)) (Z.min z_i z_t)
                       (Z.max z_i z_t)); [lia| | |lia].
    + destruct (Z.min_spec z_i z_t) as [[_ ->]|[_ ->]];
        eapply list_elem_of_lookup_2; eassumption.
    + destruct (Z.max_spec z_i z_t) as [[_ ->]|[_ ->]];
        eapply list_elem_of_lookup_2; eassumption.
Qed.

Lemma remove_assignment_counted (st st' : DdCrp) (i : Z) :
  consistent st → counted st → all_assigned (self_c st) →
  in_range (length (self_c st)) i →
  _remove_assignment st i = Ok st' → counted st'.
Proof.
  intros Hcons [HK Hids] Hwf Hi Hrem.
  destruct (remove_assignment_frame st st' i Hrem)
    as ((_ & _ & _ & _ & Hids' & _) & Hlc & _).
  split; [|congruence].
  destruct Hcons as [HN Hz Hlinks Hgraph Hpart Hpool].
  destruct (remove_assignment_exec st i Hgraph Hwf Hi Hz)
    as (b & gs' & people & z_i & Hb & Hrm & Hg' & Hadj & Hzi & Hp & Hcomp
        & Hexec).
  destruct (is_table_split_total st i Hwf Hi) as (b' & Hb' & Hspec).
  assert (b' = b) as -> by congruence. clear Hb'.
  pose proof Hgraph as [Hlen _].
  destruct (link_in_range _ i Hwf Hi) as [Ht _].
  rewrite Hexec in Hrem. cbv zeta in Hrem. destruct b;
    [|injection Hrem as <-; exact HK].
  destruct Hspec as (_ & _ & Hnever).
  destruct (connected_remove_link _ _ gs' i Hgraph Hwf Hi Hg' Hadj)
    as [_ Hsplit].
  destruct (Hsplit Hnever) as [Hapart _].
  destruct (self_reusable_numbers st) as [|new rest]; [discriminate|].
  injection Hrem as <-.
  cbn [self_K self_mixture set_K set_mixture split z]. rewrite HK.
  rewrite (tables_split _ people new (Z.to_nat i)); [lia| | | |].
  - destruct Hpool as [_ Hfresh]. apply Hfresh. left.
  - unfold in_range in Hi. lia.
  - rewrite Z2Nat.id by apply Hi. apply Hcomp, rtc_refl.
  - intros x Hx. apply list_elem_of_lookup_1 in Hx as [a Ha].
    destruct (decide (Z.of_nat a ∈ people)) as [Hin|Hout]; [|eauto].
    exists (Z.to_nat (link (self_c st) i)).
    rewrite Z2Nat.id by apply Ht. split.
    + pose proof (lookup_lt_Some _ _ _ Ha) as Hla.
      assert (Hconn : connected (self_g st) i (Z.of_nat a)).
      { eapply connected_mono; [|apply Hcomp; exact Hin].
        intros u v Huv. apply Hadj in Huv. tauto. }
      apply Hpart in Hconn; [|rewrite Hlen; exact Hi|unfold in_range; lia].
      rewrite Nat2Z.id in Hconn.
      assert (Hconn' : connected (self_g st) i (link (self_c st) i)).
      { apply rtc_once. apply (adj_graph_of_links _ _ _ _ Hgraph). auto. }
      apply Hpart in Hconn'; [|rewrite Hlen; assumption..]. congruence.
    + intros Hin'. apply Hapart, Hcomp. exact Hin'.
Qed.

(** Ingestion keeps [K] the number of tables and gives the customer an id. *)
Lemma add_document_counted (st st' : DdCrp) (doc_id : Z) (timestamp : R)
    (r : Z) :
  consistent st → counted st → all_assigned (self_c st) →
  0 ≤ r ≤ self_N st →
  add_document st doc_id timestamp r = Ok st' → counted st'.
Proof.
  intros Hcons [HK Hids] Hwf Hr Hadd.
  destruct (self_reusable_numbers st) as [|k rest] eqn:Hqueue.
  { unfold add_document, _get_new_cluster_number in Hadd.
    cbn [self_reusable_numbers set_g set_c set_ids] in Hadd.
    rewrite Hqueue in Hadd. discriminate. }
  rewrite (add_document_exec st doc_id timestamp r k rest Hqueue) in Hadd.
  destruct (seat_consistent st doc_id k rest Hcons Hwf Hqueue) as [Hc2 Hwf2].
  cbv zeta in Hadd, Hc2, Hwf2.
  set (st2 := set_K (self_K st + 1) _) in *.
  assert (Hk2 : counted st2).
  { split; unfold st2;
      cbn [self_K self_ids self_c self_mixture set_K set_N set_mixture
           set_reusable_numbers set_g set_c set_ids new_vector z].
    - rewrite HK, tables_seat; [lia|].
      pose proof (cons_pool st Hcons) as [_ Hfresh]. apply Hfresh.
      rewrite Hqueue. left.
    - rewrite !length_app. simpl. lia. }
  apply bind_Ok in Hadd as (st3 & Hst3 & Hret). injection Hret as <-.
  assert (H3 : counted st3).
  { destruct (decide (self_N st + 1 > self_K_max st)).
    - apply bind_Ok in Hst3 as (sta & Hrem & Hlink).
      pose proof (cons_N st Hcons) as HN.
      assert (Hi2 : in_range (length (self_c st2)) (self_N st)).
      { unfold st2.
        cbn [self_c set_K set_N set_mixture set_reusable_numbers set_g set_c].
        rewrite length_app. simpl. unfold in_range. lia. }
      destruct (remove_assignment_consistent st2 sta (self_N st) Hc2 Hwf2
                  Hi2 Hrem) as [Hca Hun].
      pose proof (remove_assignment_counted st2 sta _ Hc2 Hk2 Hwf2 Hi2 Hrem)
        as Hka.
      destruct Hun as [Hi Hcs].
      apply (add_assignment_counted sta st3 (self_N st) r Hca Hka Hi);
        [|exact Hlink].
      unfold in_range in *. lia.
    - injection Hst3 as <-. exact Hk2. }
  destruct H3 as [HK3 Hids3]. split; assumption.
Qed.

(** ** Ingestion of a batch *)

(** What one ingestion does to the setting, whatever the state. *)
Lemma add_document_setting (st st' : DdCrp) (doc_id : Z) (timestamp : R)
    (r : Z) :
  add_document st doc_id timestamp r = Ok st' →
  self_N st' = self_N st + 1 ∧
  self_ids st' = self_ids st ++ [doc_id] ∧
  self_timestamps st' = self_timestamps st ++ [(timestamp / 86400)%R] ∧
  self_alpha st' = self_alpha st ∧ self_f st' = self_f st ∧
  self_K_max st' = self_K_max st ∧
  self_likelihood_cache st' = self_likelihood_cache st.
Proof.
  intros Hadd.
  destruct (self_reusable_numbers st) as [|k rest] eqn:Hqueue.
  { unfold add_document, _get_new_cluster_number in Hadd.
    cbn [self_reusable_numbers set_g set_c set_ids] in Hadd.
    rewrite Hqueue in Hadd. discriminate. }
  rewrite (add_document_exec st doc_id timestamp r k rest Hqueue) in Hadd.
  cbv zeta in Hadd. set (st2 := set_K (self_K st + 1) _) in *.
  apply bind_Ok in Hadd as (st3 & Hst3 & Hret). injection Hret as <-.
  assert (H3 : same_setting st2 st3).
  { destruct (decide (self_N st + 1 > self_K_max st)).
    - apply bind_Ok in Hst3 as (sta & Hrem & Hlink).
      apply remove_assignment_frame in Hrem as [Hrem _].
      apply add_assignment_frame in Hlink as [Hlink _].
      eapply same_setting_trans; eassumption.
    - injection Hst3 as <-. apply same_setting_refl. }
  destruct H3 as (A1 & A2 & A3 & A4 & A5 & A6 & A7).
  cbn [self_N self_ids self_timestamps self_alpha self_f self_K_max
       self_likelihood_cache set_timestamps].
  rewrite A1, A2, A3, A4, A5, A6, A7. unfold st2. repeat split.
Qed.

(** A batch of documents keeps the invariant, the table count and the links
    and appends one index per document. *)
Lemma add_documents_all (docs : list (Z * R * Z)) (st st' : DdCrp) :
  consistent st → counted st → all_assigned (self_c st) →
  draws_in_range (self_N st) docs →
  add_documents st docs = Ok st' →
  consistent st' ∧ counted st' ∧ all_assigned (self_c st') ∧
  self_N st' = self_N st + Z.of_nat (length docs) ∧
  self_ids st' = self_ids st ++ ((λ d, d.1.1) <$> docs) ∧
  self_timestamps st'
  = self_timestamps st ++ ((λ d, (d.1.2 / 86400)%R) <$> docs).
Proof.
  revert st. induction docs as [|[[doc_id timestamp] r] docs IH];
    intros st Hcons Hk Hwf Hdraws Hadd.
  - injection Hadd as <-. simpl. rewrite !app_nil_r.
    split; [exact Hcons|]. split; [exact Hk|]. split; [exact Hwf|].
    split; [lia|auto].
  - simpl in Hadd. apply bind_Ok in Hadd as (st1 & Hone & Hrest).
    pose proof (Hdraws 0%nat _ eq_refl) as Hr. simpl in Hr.
    assert (Hr' : 0 ≤ r ≤ self_N st) by lia.
    destruct (add_document_consistent st st1 doc_id timestamp r Hcons Hwf Hr'
                Hone) as [Hc1 Hwf1].
    pose proof (add_document_counted st st1 doc_id timestamp r Hcons Hk Hwf
                  Hr' Hone) as Hk1.
    destruct (add_document_setting st st1 doc_id timestamp r Hone)
      as (HN1 & Hids1 & Hts1 & _).
    destruct (IH st1 Hc1 Hk1 Hwf1) as (Hc' & Hk' & Hwf' & HN' & Hids' & Hts');
      [|exact Hrest|].
    + intros k d Hd. pose proof (Hdraws (S k) d Hd) as Hb. lia.
    + split; [exact Hc'|]. split; [exact Hk'|]. split; [exact Hwf'|].
      rewrite HN', Hids', Hts', HN1, Hids1, Hts1. simpl.
      rewrite <- !app_assoc. simpl. split; [lia|auto].
Qed.

(** X1: [add_documents] keeps the link graph, the links and the mixture's
    cluster ids in step, and leaves every customer with a link. *)
Theorem add_documents_keeps_invariant (docs : list (Z * R * Z))
    (st st' : DdCrp) :
  consistent st → counted st → all_assigned (self_c st) →
  draws_in_range (self_N st) docs →
  add_documents st docs = Ok st' →
  consistent st' ∧ all_assigned (self_c st').
Proof.
  intros Hcons Hk Hwf Hdraws Hadd.
  destruct (add_documents_all docs st st' Hcons Hk Hwf Hdraws Hadd)
    as (Hc & _ & Hw & _). auto.
Qed.

(** X2: after [add_documents], [K] is the number of distinct cluster ids in
    [z] and there is one document id per customer. *)
Theorem add_documents_counts_tables (docs : list (Z * R * Z))
    (st st' : DdCrp) :
  consistent st → counted st → all_assigned (self_c st) →
  draws_in_range (self_N st) docs →
  add_documents st docs = Ok st' →
  self_K st' = Z.of_nat (tables (z (self_mixture st'))) ∧
  length (self_ids st') = length (self_c st').
Proof.
  intros Hcons Hk Hwf Hdraws Hadd.
  destruct (add_documents_all docs st st' Hcons Hk Hwf Hdraws Hadd)
    as (_ & [HK Hids] & _). auto.
Qed.

(** X3: [add_documents] gives the documents the next indices in order: [N]
    grows by their number, their ids are appended to [ids] and their
    timestamps, divided by 86400, to [timestamps]. *)
Theorem add_documents_appends (docs : list (Z * R * Z)) (st st' : DdCrp) :
  consistent st → counted st → all_assigned (self_c st) →
  draws_in_range (self_N st) docs →
  add_documents st docs = Ok st' →
  self_N st' = self_N st + Z.of_nat (length docs) ∧
  self_N st' = Z.of_nat (length (self_c st')) ∧
  self_ids st' = self_ids st ++ ((λ d, d.1.1) <$> docs) ∧
  self_timestamps st'
  = self_timestamps st ++ ((λ d, (d.1.2 / 86400)%R) <$> docs).
Proof.
  intros Hcons Hk Hwf Hdraws Hadd.
  destruct (add_documents_all docs st st' Hcons Hk Hwf Hdraws Hadd)
    as (Hc & _ & _ & HN & Hids & Hts).
  split; [exact HN|]. split; [exact (cons_N st' Hc)|]. auto.
Qed.

(** ** The likelihood cache *)

Lemma cache_extends_refl (st : DdCrp) : cache_extends st st.
Proof. split; [symmetry; apply set_likelihood_cache_id|reflexivity]. Qed.

Lemma cache_extends_trans (st1 st2 st3 : DdCrp) :
  cache_extends st1 st2 → cache_extends st2 st3 → cache_extends st1 st3.
Proof.
  intros [E1 S1] [E2 S2]. split; [|etrans; eassumption].
  rewrite E2 at 1. rewrite E1. reflexivity.
Qed.

Lemma cached_likelihood_extends (st st' : DdCrp) (members : gset Z) (v : R) :
  cached_likelihood st members = (v, st') →
  cache_extends st st' ∧ self_likelihood_cache st' !! members = Some v.
Proof.
  unfold cached_likelihood.
  destruct (self_likelihood_cache st !! members) as [v'|] eqn:Hv.
  - intros [= <- <-]. split; [apply cache_extends_refl|exact Hv].
  - intros [= <- <-]. cbn. split; [split|].
    + reflexivity.
    + cbn. apply insert_subseteq. exact Hv.
    + apply lookup_insert_eq.
Qed.

Lemma cached_likelihood_hit (st : DdCrp) (members : gset Z) (v : R) :
  self_likelihood_cache st !! members = Some v →
  cached_likelihood st members = (v, st).
Proof. intros Hv. unfold cached_likelihood. rewrite Hv. reflexivity. Qed.

Lemma get_people_next_to_cache (st : DdCrp) (cache : gmap (gset Z) R) (c : Z) :
  _get_people_next_to (set_likelihood_cache cache st) c
  = _get_people_next_to st c.
Proof. reflexivity. Qed.

Lemma likelihood_under_z_extends (st st' : DdCrp) (i c : Z) (v : R) :
  _likelihood_under_z st i c = Ok (v, st') →
  cache_extends st st' ∧
  ∃ k l, _get_people_next_to st i = Ok k ∧ _get_people_next_to st c = Ok l ∧
    ∃ vk vl vkl,
      self_likelihood_cache st' !! k = Some vk ∧
      self_likelihood_cache st' !! l = Some vl ∧
      self_likelihood_cache st' !! (k ∪ l) = Some vkl ∧
      v = (vkl - vk - vl)%R.
Proof.
  unfold _likelihood_under_z. intros H.
  apply bind_Ok in H as (k & Hk & H). apply bind_Ok in H as (l & Hl & H).
  cbv zeta in H.
  destruct (cached_likelihood st k) as [vk st1] eqn:E1.
  destruct (cached_likelihood st1 l) as [vl st2] eqn:E2.
  destruct (cached_likelihood st2 (k ∪ l)) as [vkl st3] eqn:E3.
  injection H as <- <-.
  apply cached_likelihood_extends in E1 as [X1 L1].
  apply cached_likelihood_extends in E2 as [X2 L2].
  apply cached_likelihood_extends in E3 as [X3 L3].
  split.
  - eapply cache_extends_trans; [exact X1|].
    eapply cache_extends_trans; eassumption.
  - exists k, l. split; [exact Hk|]. split; [exact Hl|]. exists vk, vl, vkl.
    destruct X2 as [_ S2]. destruct X3 as [_ S3].
    split; [|split; [|split; [exact L3|reflexivity]]].
    + eapply lookup_weaken; [|exact S3]. eapply lookup_weaken; eassumption.
    + eapply lookup_weaken; eassumption.
Qed.

(** What one cache block leaves in the cache: the entries it had, and the
    marginal log-likelihood of [members] if that was missing. *)
Lemma cached_likelihood_lookup (st st' : DdCrp) (members : gset Z) (v : R) :
  cached_likelihood st members = (v, st') →
  self_mixture st' = self_mixture st ∧
  ∀ s, self_likelihood_cache st' !! s =
       match self_likelihood_cache st !! s with
       | Some x => Some x
       | None =>
           if decide (s = members)
           then Some (get_marginal_likelihood (self_mixture st) members)
           else None
       end.
Proof.
  unfold cached_likelihood.
  destruct (self_likelihood_cache st !! members) as [x|] eqn:Hv.
  - intros [= <- <-]. split; [reflexivity|]. intros s.
    destruct (self_likelihood_cache st !! s) as [y|] eqn:Hs; [reflexivity|].
    destruct (decide (s = members)) as [->|]; [congruence|reflexivity].
  - intros [= <- <-]. split; [reflexivity|]. intros s. cbn.
    destruct (decide (s = members)) as [->|Hne].
    + rewrite lookup_insert_eq, Hv. reflexivity.
    + rewrite lookup_insert_ne by congruence.
      destruct (self_likelihood_cache st !! s); reflexivity.
Qed.

(** X4: [_likelihood_under_z] reads through the cache.  The value it returns
    is built from the cache entries of its three member sets as they stand
    after the call; an entry the cache already had is kept as it was, a
    missing one among the three is filled with the mixture's marginal
    log-likelihood, and nothing else is added or changed.  A second call with
    the same arguments therefore returns the same value and leaves the state
    as it is. *)
Theorem likelihood_under_z_cached (st st' : DdCrp) (i c : Z) (v : R) :
  _likelihood_under_z st i c = Ok (v, st') →
  ∃ k l vk vl vkl,
    _get_people_next_to st i = Ok k ∧ _get_people_next_to st c = Ok l ∧
    self_likelihood_cache st' !! k = Some vk ∧
    self_likelihood_cache st' !! l = Some vl ∧
    self_likelihood_cache st' !! (k ∪ l) = Some vkl ∧
    v = (vkl - vk - vl)%R ∧
    (∀ s, self_likelihood_cache st' !! s =
          match self_likelihood_cache st !! s with
          | Some x => Some x
          | None =>
              if decide (s ∈ [k; l; k ∪ l])
              then Some (get_marginal_likelihood (self_mixture st) s)
              else None
          end) ∧
    st' = set_likelihood_cache (self_likelihood_cache st') st ∧
    _likelihood_under_z st' i c = Ok (v, st').
Proof.
  intros H. pose proof H as H0.
  apply likelihood_under_z_extends in H
    as ([E _] & k & l & Hk & Hl & vk & vl & vkl & Lk & Ll & Lkl & ->).
  exists k, l, vk, vl, vkl.
  split; [exact Hk|]. split; [exact Hl|]. split; [exact Lk|].
  split; [exact Ll|]. split; [exact Lkl|]. split; [reflexivity|].
  split; [|split; [exact E|]].
  - unfold _likelihood_under_z in H0. rewrite Hk, bind_ret, Hl, bind_ret in H0.
    cbv zeta in H0.
    destruct (cached_likelihood st k) as [v1 st1] eqn:E1.
    destruct (cached_likelihood st1 l) as [v2 st2] eqn:E2.
    destruct (cached_likelihood st2 (k ∪ l)) as [v3 st3] eqn:E3.
    injection H0 as _ <-.
    apply cached_likelihood_lookup in E1 as [M1 L1].
    apply cached_likelihood_lookup in E2 as [M2 L2].
    apply cached_likelihood_lookup in E3 as [M3 L3].
    intros s. rewrite L3, L2, L1, M2, M1.
    destruct (self_likelihood_cache st !! s) as [x|]; [reflexivity|].
    destruct (decide (s ∈ [k; l; k ∪ l])) as [Hin|Hout].
    + destruct (decide (s = k)) as [->|Hsk]; [reflexivity|].
      destruct (decide (s = l)) as [->|Hsl]; [reflexivity|].
      destruct (decide (s = k ∪ l)) as [->|Hskl]; [reflexivity|].
      apply elem_of_cons in Hin as [->|Hin]; [contradiction|].
      apply elem_of_cons in Hin as [->|Hin]; [contradiction|].
      apply list_elem_of_singleton in Hin. contradiction.
    + destruct (decide (s = k)) as [->|Hsk].
      { destruct Hout. left. }
      destruct (decide (s = l)) as [->|Hsl].
      { destruct Hout. right. left. }
      destruct (decide (s = k ∪ l)) as [->|Hskl]; [|reflexivity].
      destruct Hout. right. right. left.
  - assert (Hk' : _get_people_next_to st' i = Ok k).
    { rewrite E, get_people_next_to_cache. exact Hk. }
    assert (Hl' : _get_people_next_to st' c = Ok l).
    { rewrite E, get_people_next_to_cache. exact Hl. }
    unfold _likelihood_under_z. rewrite Hk', bind_ret, Hl', bind_ret.
    cbv zeta.
    rewrite (cached_likelihood_hit st' k vk Lk).
    rewrite (cached_likelihood_hit st' l vl Ll).
    rewrite (cached_likelihood_hit st' (k ∪ l) vkl Lkl). reflexivity.
Qed.

Lemma assignment_probability_extends (st st' : DdCrp) (i c : Z) (w : R) :
  _assignment_probability st i c = Ok (w, st') → cache_extends st st'.
Proof.
  unfold _assignment_probability. intros H.
  destruct (decide (i = c)).
  - apply bind_Ok in H as (v & _ & H). injection H as _ <-.
    apply cache_extends_refl.
  - apply bind_Ok in H as (t_i & _ & H). apply bind_Ok in H as (t_c & _ & H).
    cbv zeta in H.
    apply bind_Ok in H as (z_i & _ & H). apply bind_Ok in H as (z_c & _ & H).
    destruct (decide (z_i = z_c)).
    + apply bind_Ok in H as (v & _ & H). apply bind_Ok in H as (v' & _ & H).
      injection H as _ <-. apply cache_extends_refl.
    + apply bind_Ok in H as (v & _ & H). apply bind_Ok in H as (v' & _ & H).
      apply bind_Ok in H as ([l st1] & Hl & H). injection H as _ <-.
      apply likelihood_under_z_extends in Hl as [Hl _]. exact Hl.
Qed.

Lemma probabilities_loop_extends (cands : list Z) (st st' : DdCrp) (i : Z)
    (probabilities : list (Z * R)) :
  probabilities_loop st i cands = Ok (probabilities, st') →
  cache_extends st st'.
Proof.
  revert st probabilities. induction cands as [|c cands IH];
    intros st probabilities H; simpl in H.
  - injection H as _ <-. apply cache_extends_refl.
  - apply bind_Ok in H as ([prob st1] & H1 & H).
    apply bind_Ok in H as ([ps st2] & Hrec & H). injection H as _ <-.
    eapply cache_extends_trans.
    + eapply assignment_probability_extends. exact H1.
    + eapply IH. exact Hrec.
Qed.

(** X5: [_get_assignment_probabilities] returns one entry per customer, in
    index order, and changes nothing but the likelihood cache, which keeps
    every entry it had. *)
Theorem get_assignment_probabilities_frame (st st' : DdCrp) (i : Z)
    (probabilities : list (Z * R)) :
  _get_assignment_probabilities st i = Ok (probabilities, st') →
  fst <$> probabilities = py_range (self_N st) ∧
  length probabilities = Z.to_nat (self_N st) ∧
  st' = set_likelihood_cache (self_likelihood_cache st') st ∧
  self_likelihood_cache st ⊆ self_likelihood_cache st'.
Proof.
  unfold _get_assignment_probabilities. intros H.
  pose proof (probabilities_loop_ids _ _ _ _ _ H) as Hids.
  apply probabilities_loop_extends in H as [E S].
  split; [exact Hids|]. split; [|auto].
  rewrite <- (length_fmap fst), Hids. unfold py_range.
  rewrite length_fmap, length_seq. reflexivity.
Qed.

(** ** The Gibbs step as a whole *)

Lemma consistent_cache_extends (st st' : DdCrp) :
  cache_extends st st' → consistent st → consistent st'.
Proof.
  intros [E _] [HN Hz Hlinks Hgraph Hpart Hpool]. rewrite E.
  split; assumption.
Qed.

Lemma counted_cache_extends (st st' : DdCrp) :
  cache_extends st st' → counted st → counted st'.
Proof. intros [E _] [HK Hids]. rewrite E. split; assumption. Qed.

Lemma softmax_indexed_eq (logs : list (Z * R)) :
  logs ≠ [] →
  softmax_indexed logs
  = Ok (zip (fst <$> logs)
          ((λ x, exp (x - logsumexp (snd <$> logs))) <$> (snd <$> logs))).
Proof. destruct logs; [contradiction|reflexivity]. Qed.

Lemma softmax_indexed_ids (logs probabilities : list (Z * R)) :
  softmax_indexed logs = Ok probabilities →
  logs ≠ [] ∧ fst <$> probabilities = fst <$> logs.
Proof.
  intros H. assert (Hne : logs ≠ []) by (intros ->; discriminate).
  split; [exact Hne|]. rewrite (softmax_indexed_eq logs Hne) in H.
  injection H as <-. apply fst_zip. rewrite !length_fmap. lia.
Qed.

(** One Gibbs step, provided the draw returns one of the listed
    candidates. *)
Lemma sample_document_all (draw_indexed : list (Z * R) → Z) (st st' : DdCrp)
    (i : Z) :
  consistent st → counted st → all_assigned (self_c st) →
  in_range (length (self_c st)) i →
  (∀ ps, ps ≠ [] → draw_indexed ps ∈ fst <$> ps) →
  _sample_document draw_indexed st i = Ok st' →
  consistent st' ∧ counted st' ∧ all_assigned (self_c st') ∧
  self_N st' = self_N st ∧ self_ids st' = self_ids st ∧
  self_timestamps st' = self_timestamps st.
Proof.
  intros Hcons Hk Hwf Hi Hdraw Hsample. unfold _sample_document in Hsample.
  apply bind_Ok in Hsample as ([ps st2] & Hdist & Hadd).
  unfold sampling_distribution in Hdist.
  apply bind_Ok in Hdist as (st1 & Hrem & Hdist).
  apply bind_Ok in Hdist as ([logs st2'] & Hlogs & Hdist).
  apply bind_Ok in Hdist as (ps' & Hsoft & Hret). injection Hret as -> ->.
  destruct (remove_assignment_consistent st st1 i Hcons Hwf Hi Hrem)
    as [Hc1 Hun1].
  pose proof (remove_assignment_counted st st1 i Hcons Hk Hwf Hi Hrem) as Hk1.
  destruct (remove_assignment_frame st st1 i Hrem)
    as ((_ & _ & _ & HN1 & Hids1 & Hts1 & _) & _).
  pose proof (probabilities_loop_ids _ _ _ _ _ Hlogs) as Hids.
  pose proof (probabilities_loop_extends _ _ _ _ _ Hlogs) as Hext.
  destruct (softmax_indexed_ids _ _ Hsoft) as [Hne Hfst].
  pose proof (consistent_cache_extends _ _ Hext Hc1) as Hc2.
  pose proof (counted_cache_extends _ _ Hext Hk1) as Hk2.
  assert (Hc12 : self_c st2 = self_c st1).
  { destruct Hext as [E _]. rewrite E. reflexivity. }
  assert (Hset12 : same_setting st1 st2 ∨ True) by auto. clear Hset12.
  assert (Hps : ps ≠ []).
  { intros ->. simpl in Hfst. destruct logs; [contradiction|discriminate]. }
  assert (Ht : in_range (length (self_c st2)) (draw_indexed ps)).
  { pose proof (Hdraw ps Hps) as Hin. rewrite Hfst, Hids in Hin.
    unfold py_range in Hin. apply list_elem_of_fmap in Hin as (n & -> & Hn).
    apply elem_of_seq in Hn. rewrite Hc12.
    pose proof (cons_N st1 Hc1). unfold in_range. lia. }
  assert (Hun2 : unassigned_only (self_c st2) i) by (rewrite Hc12; exact Hun1).
  destruct (add_assignment_consistent st2 st' i _ Hc2 Hun2 Ht Hadd)
    as [Hc' Hwf'].
  pose proof (add_assignment_counted st2 st' i _ Hc2 Hk2 (proj1 Hun2) Ht Hadd)
    as Hk'.
  destruct (add_assignment_frame st2 st' i _ Hadd)
    as ((_ & _ & _ & HN' & Hids' & Hts' & _) & _).
  destruct Hext as [E _].
  assert (HN2 : self_N st2 = self_N st1) by (rewrite E; reflexivity).
  assert (Hids2 : self_ids st2 = self_ids st1) by (rewrite E; reflexivity).
  assert (Hts2 : self_timestamps st2 = self_timestamps st1)
    by (rewrite E; reflexivity).
  split; [exact Hc'|]. split; [exact Hk'|]. split; [exact Hwf'|].
  split; [congruence|]. split; congruence.
Qed.

(** X6: a Gibbs step [_sample_document(i)] whose draw is one of the listed
    candidates keeps the link graph, the links and the cluster ids in step,
    leaves every customer with a link and does not change the number of
    customers, their ids or their timestamps. *)
Theorem sample_document_keeps_invariant (draw_indexed : list (Z * R) → Z)
    (st st' : DdCrp) (i : Z) :
  consistent st → counted st → all_assigned (self_c st) →
  in_range (length (self_c st)) i →
  (∀ ps, ps ≠ [] → draw_indexed ps ∈ fst <$> ps) →
  _sample_document draw_indexed st i = Ok st' →
  consistent st' ∧ all_assigned (self_c st') ∧
  self_N st' = self_N st ∧ self_ids st' = self_ids st ∧
  self_timestamps st' = self_timestamps st.
Proof.
  intros Hcons Hk Hwf Hi Hdraw Hsample.
  destruct (sample_document_all draw_indexed st st' i Hcons Hk Hwf Hi Hdraw
              Hsample) as (Hc & _ & Hw & HN & Hids & Hts). auto.
Qed.

(** X7: after a Gibbs step [K] is still the number of distinct cluster ids in
    [z]. *)
Theorem sample_document_counts_tables (draw_indexed : list (Z * R) → Z)
    (st st' : DdCrp) (i : Z) :
  consistent st → counted st → all_assigned (self_c st) →
  in_range (length (self_c st)) i →
  (∀ ps, ps ≠ [] → draw_indexed ps ∈ fst <$> ps) →
  _sample_document draw_indexed st i = Ok st' →
  self_K st' = Z.of_nat (tables (z (self_mixture st'))).
Proof.
  intros Hcons Hk Hwf Hi Hdraw Hsample.
  destruct (sample_document_all draw_indexed st st' i Hcons Hk Hwf Hi Hdraw
              Hsample) as (_ & [HK _] & _). exact HK.
Qed.

(** ** Tables *)

(** X8: [_get_people_next_to(c)] returns exactly the customers connected to
    [c] in the link graph, all of them valid indices. *)
Theorem people_next_to_is_component (st : DdCrp) (c : Z) :
  graph_closed (self_g st) → in_range (length (self_g st)) c →
  ∃ s, _get_people_next_to st c = Ok s ∧
       (∀ x, x ∈ s ↔ connected (self_g st) c x) ∧
       (∀ x, x ∈ s → in_range (length (self_g st)) x).
Proof.
  intros Hcl Hc.
  destruct (get_people_next_to_component st c Hcl Hc) as (s & Hs & Hcomp).
  exists s. split; [exact Hs|]. split; [exact Hcomp|].
  intros x Hx. apply Hcomp in Hx.
  destruct (connected_in_range _ _ _ Hcl Hx) as [<-|[_ Hr]]; assumption.
Qed.

(** X9: the tables partition the customers: whoever sits at the table of [c]
    has the same table as [c]. *)
Theorem people_next_to_same_table (st : DdCrp) (c x : Z) (s : gset Z) :
  graph_of_links (self_c st) (self_g st) →
  in_range (length (self_g st)) c →
  _get_people_next_to st c = Ok s → x ∈ s →
  _get_people_next_to st x = Ok s.
Proof.
  intros Hg Hc Hs Hx.
  pose proof (graph_of_links_closed _ _ Hg) as Hcl.
  destruct (get_people_next_to_component st c Hcl Hc) as (s' & Hs' & Hcomp).
  assert (s' = s) as -> by congruence.
  assert (Hcx : connected (self_g st) c x) by (apply Hcomp; exact Hx).
  assert (Hxr : in_range (length (self_g st)) x).
  { destruct (connected_in_range _ _ _ Hcl Hcx) as [<-|[_ Hr]]; assumption. }
  destruct (get_people_next_to_component st x Hcl Hxr) as (sx & Hsx & Hcompx).
  rewrite Hsx. f_equal. apply set_eq. intros y. rewrite Hcompx, Hcomp.
  assert (Hsym : ∀ u v, adj (self_g st) u v → adj (self_g st) v u).
  { intros u v. eapply adj_sym. exact Hg. }
  split; intros Hy.
  - eapply connected_trans; eassumption.
  - eapply connected_trans; [|exact Hy]. apply connected_sym; assumption.
Qed.

(** X10: split detection is exact: [_is_table_split(i)] answers [True]
    exactly when, in the graph [_remove_assignment(i)] leaves, [i] is no
    longer connected to the customer it pointed to. *)
Theorem split_detection_exact (st : DdCrp) (i : Z) :
  graph_of_links (self_c st) (self_g st) → all_assigned (self_c st) →
  in_range (length (self_c st)) i →
  length (z (self_mixture st)) = length (self_c st) →
  ∃ b gs',
    _is_table_split st i = Ok b ∧
    (∀ st', _remove_assignment st i = Ok st' → self_g st' = gs') ∧
    (b = true ↔ ¬ connected gs' i (link (self_c st) i)).
Proof.
  intros Hg Hwf Hi Hz.
  destruct (remove_assignment_exec st i Hg Hwf Hi Hz)
    as (b & gs' & people & z_i & Hb & _ & Hg' & Hadj & _ & _ & _ & Hexec).
  destruct (is_table_split_total st i Hwf Hi) as (b' & Hb' & Hspec).
  assert (b' = b) as -> by congruence. clear Hb'.
  destruct (connected_remove_link _ _ gs' i Hg Hwf Hi Hg' Hadj)
    as [Hsame Hsplit].
  destruct (link_in_range _ i Hwf Hi) as [Ht _].
  exists b, gs'. split; [exact Hb|]. split.
  - intros st' Hst'. rewrite Hexec in Hst'. cbv zeta in Hst'. destruct b.
    + destruct (self_reusable_numbers st); [discriminate|].
      injection Hst' as <-. reflexivity.
    + injection Hst' as <-. reflexivity.
  - destruct b.
    + destruct Hspec as (_ & _ & Hnever).
      split; [intros _; apply (Hsplit Hnever)|reflexivity].
    + split; [discriminate|]. intros Hapart. destruct Hapart.
      apply (Hsame Hspec). apply rtc_once.
      apply (adj_graph_of_links _ _ _ _ Hg). auto.
Qed.

(** ** Adding a link and taking it back *)

Lemma union_difference_singleton (s : gset Z) (x : Z) :
  x ∉ s → ({[x]} ∪ s) ∖ {[x]} = s.
Proof.
  intros Hx. apply set_eq. intros y.
  rewrite elem_of_difference, elem_of_union, elem_of_singleton. split.
  - intros [[->|Hy] Hne]; [contradiction|exact Hy].
  - intros Hy. split; [auto|]. intros ->. contradiction.
Qed.

(** X11: merge and split are inverse: a link added between two clusters and
    removed again is detected as a split; [c], [g] and [K] come back, and the
    mixture puts the same customers together as before. *)
Theorem add_then_remove_restores (st st1 : DdCrp) (i t z_i z_t : Z) :
  consistent st → unassigned_only (self_c st) i →
  in_range (length (self_c st)) t →
  z (self_mixture st) !! Z.to_nat i = Some z_i →
  z (self_mixture st) !! Z.to_nat t = Some z_t →
  z_i ≠ z_t →
  _add_assignment st i t = Ok st1 →
  ∃ st2, _remove_assignment st1 i = Ok st2 ∧
         _is_table_split st1 i = Ok true ∧
         self_c st2 = self_c st ∧ self_g st2 = self_g st ∧
         self_K st2 = self_K st ∧
         same_partition (z (self_mixture st)) (z (self_mixture st2)).
Proof.
  intros Hcons Hun Ht Hzi Hzt Hne Hadd.
  pose proof Hun as [Hi Hcs].
  pose proof (unassigned_link _ _ Hun) as Hli.
  destruct (add_assignment_consistent st st1 i t Hcons Hun Ht Hadd)
    as [Hc1 Hwf1].
  pose proof Hcons as [HN Hz Hlinks Hgraph Hpart Hpool].
  pose proof Hgraph as [Hlen Hg].
  assert (Hgi' : in_range (length (self_g st)) i) by (rewrite Hlen; exact Hi).
  assert (Hgt' : in_range (length (self_g st)) t) by (rewrite Hlen; exact Ht).
  assert (Hit : i ≠ t) by (intros ->; congruence).
  assert (Hapart : ¬ connected (self_g st) i t).
  { intros Hc. apply Hpart in Hc; [congruence|assumption..]. }
  destruct (add_assignment_exec st i t z_i z_t Hlen Hi Ht Hzi Hzt)
    as (g_i & g_t & Hgi & Hgt & Hexec).
  rewrite list_lookup_insert_ne in Hgt by (unfold in_range in *; lia).
  assert (Hti : t ∉ g_i).
  { intros Hin. apply Hapart, rtc_once. split; [apply Hi|]. eauto. }
  assert (Hitg : i ∉ g_t).
  { intros Hin. apply Hapart. apply connected_sym.
    - intros u v. eapply adj_sym. exact Hgraph.
    - apply rtc_once. split; [apply Ht|]. eauto. }
  rewrite Hexec in Hadd. injection Hadd as Hst1.
  assert (Hc1eq : self_c st1 = <[Z.to_nat i := t]> (self_c st))
    by (rewrite <- Hst1; reflexivity).
  assert (Hg1eq : self_g st1 = <[Z.to_nat t := {[i]} ∪ g_t]>
                    (<[Z.to_nat i := {[t]} ∪ g_i]> (self_g st))).
  { rewrite <- Hst1. reflexivity. }
  assert (HK1 : self_K st1 = self_K st - 1).
  { rewrite <- Hst1. cbn [self_K set_g set_c].
    apply (join_tables_merge st z_i z_t Hne). }
  assert (Hpool1 : self_reusable_numbers st1
                   = self_reusable_numbers st ++ [Z.max z_i z_t]).
  { rewrite <- Hst1. cbn [self_reusable_numbers set_g set_c].
    apply (join_tables_merge st z_i z_t Hne). }
  pose proof Hc1 as [_ Hz1 _ Hgraph1 _ _].
  assert (Hi1 : in_range (length (self_c st1)) i)
    by (rewrite Hc1eq, length_insert; exact Hi).
  assert (Hl1 : link (self_c st1) i = t).
  { rewrite Hc1eq, link_insert by (exact Hi || apply Hi).
    destruct (decide (i = i)); [reflexivity|contradiction]. }
  assert (Hl1t : link (self_c st1) t ≠ i).
  { rewrite Hc1eq, link_insert by (exact Hi || apply Ht).
    destruct (decide (t = i)); [congruence|]. intros Hlt.
    apply Hapart. apply connected_sym.
    - intros u v. eapply adj_sym. exact Hgraph.
    - apply rtc_once. apply (adj_graph_of_links _ _ _ _ Hgraph). auto. }
  destruct (remove_assignment_exec st1 i Hgraph1 Hwf1 Hi1 Hz1)
    as (b & gs' & people & z1_i & Hb & Hrm & _ & _ & _ & _ & _ & Hexec1).
  assert (Hgs' : gs' = self_g st).
  { rewrite (remove_link_explicit (self_c st1) (self_g st1) i
               ({[t]} ∪ g_i) ({[i]} ∪ g_t)) in Hrm.
    - rewrite Hl1 in Hrm.
      destruct (decide (t = i)); [congruence|].
      destruct (decide (link (self_c st1) t = i)); [contradiction|].
      injection Hrm as <-. rewrite Hg1eq.
      rewrite !union_difference_singleton by assumption.
      unfold in_range in *. apply list_eq. intros k.
      destruct (decide (k = Z.to_nat t)) as [->|Hkt].
      + rewrite list_lookup_insert_eq by (rewrite !length_insert; lia).
        auto.
      + rewrite list_lookup_insert_ne by lia.
        destruct (decide (k = Z.to_nat i)) as [->|Hki].
        * rewrite list_lookup_insert_eq by (rewrite !length_insert; lia).
          auto.
        * rewrite !list_lookup_insert_ne by lia. reflexivity.
    - exact Hgraph1.
    - exact Hi1.
    - rewrite Hl1, Hc1eq, length_insert. exact Ht.
    - rewrite Hg1eq. unfold in_range in *.
      rewrite list_lookup_insert_ne by lia.
      apply list_lookup_insert_eq. lia.
    - rewrite Hl1, Hg1eq. unfold in_range in *.
      apply list_lookup_insert_eq. rewrite length_insert. lia. }
  assert (Hqueue : ∃ new rest, self_reusable_numbers st1 = new :: rest).
  { rewrite Hpool1. destruct (self_reusable_numbers st); simpl; eauto. }
  destruct Hqueue as (new & rest & Hqueue).
  assert (Hok : ∃ st2, _remove_assignment st1 i = Ok st2).
  { rewrite Hexec1. cbv zeta. destruct b; [|eauto]. rewrite Hqueue. eauto. }
  destruct Hok as [st2 Hrem]. exists st2. split; [exact Hrem|].
  destruct (remove_assignment_consistent st1 st2 i Hc1 Hwf1 Hi1 Hrem)
    as [Hc2 _].
  assert (Hg2 : self_g st2 = self_g st).
  { rewrite Hexec1 in Hrem. cbv zeta in Hrem. destruct b.
    - rewrite Hqueue in Hrem. injection Hrem as <-. exact Hgs'.
    - injection Hrem as <-. exact Hgs'. }
  assert (Hbt : b = true).
  { destruct b; [reflexivity|]. exfalso.
    rewrite Hexec1 in Hrem. cbv zeta in Hrem. injection Hrem as Hst2.
    assert (Hz2 : z (self_mixture st2) = z (self_mixture st1))
      by (rewrite <- Hst2; reflexivity).
    apply Hapart. rewrite <- Hg2.
    apply (cons_partition st2 Hc2); [rewrite Hg2; assumption..|].
    rewrite Hz2.
    apply (cons_partition st1 Hc1).
    + rewrite Hg1eq, !length_insert. exact Hgi'.
    + rewrite Hg1eq, !length_insert. exact Hgt'.
    + apply rtc_once. apply (adj_graph_of_links _ _ _ _ Hgraph1).
      rewrite Hc1eq, length_insert in *. auto. }
  subst b. split; [exact Hb|].
  rewrite Hexec1 in Hrem. cbv zeta in Hrem. rewrite Hqueue in Hrem.
  injection Hrem as Hst2.
  split.
  { rewrite <- Hst2. cbn [self_c set_K set_mixture set_reusable_numbers set_c].
    rewrite Hc1eq, list_insert_insert_eq. apply list_insert_id.
    destruct (py_getitem_in_range _ i Hi) as (x & _ & Hx).
    pose proof (Hcs _ _ Hx) as Hx'. rewrite Z2Nat.id in Hx' by apply Hi.
    destruct (decide (i = i)); [congruence|contradiction]. }
  split; [exact Hg2|]. split.
  { rewrite <- Hst2. cbn [self_K set_K]. lia. }
  pose proof (cons_z st2 Hc2) as Hz2. pose proof (cons_graph st2 Hc2) as [Hlen2 _].
  split; [congruence|]. intros a b Ha Hb'.
  assert (Har : in_range (length (self_g st)) (Z.of_nat a))
    by (unfold in_range; lia).
  assert (Hbr : in_range (length (self_g st)) (Z.of_nat b))
    by (unfold in_range; lia).
  pose proof (Hpart _ _ Har Hbr) as H0.
  pose proof (cons_partition st2 Hc2 (Z.of_nat a) (Z.of_nat b)) as H2.
  rewrite Hg2 in H2. specialize (H2 Har Hbr).
  rewrite !Nat2Z.id in H0, H2. rewrite <- H0, <- H2. reflexivity.
Qed.

(** ** Seating a new customer *)

(** X12: while there is room ([N + 1 <= K_max]) a new customer is seated
    alone: it points to itself, is its only neighbour, and gets from the pool
    a cluster id no other customer has; [K] grows by one. *)
Theorem add_document_seats_alone (st : DdCrp) (doc_id : Z) (timestamp : R)
    (r k : Z) (rest : list Z) :
  consistent st → self_reusable_numbers st = k :: rest →
  self_N st + 1 ≤ self_K_max st →
  ∃ st', add_document st doc_id timestamp r = Ok st' ∧
    self_c st' = self_c st ++ [self_N st] ∧
    self_g st' = self_g st ++ [{[self_N st]}] ∧
    z (self_mixture st') = z (self_mixture st) ++ [k] ∧
    (k ∉ z (self_mixture st)) ∧
    self_K st' = self_K st + 1 ∧
    self_reusable_numbers st' = rest.
Proof.
  intros Hcons Hqueue Hroom.
  rewrite (add_document_exec st doc_id timestamp r k rest Hqueue). cbv zeta.
  destruct (decide (self_N st + 1 > self_K_max st)); [lia|].
  eexists. split; [reflexivity|]. cbn. repeat split.
  pose proof (cons_pool st Hcons) as [_ Hfresh]. apply Hfresh.
  rewrite Hqueue. left.
Qed.

(** Over capacity with a draw that is an earlier customer. *)
Lemma add_document_over_capacity_exec (st : DdCrp) (doc_id : Z)
    (timestamp : R) (r k : Z) (rest : list Z) :
  consistent st → all_assigned (self_c st) →
  self_reusable_numbers st = k :: rest →
  self_N st + 1 > self_K_max st → 0 ≤ r < self_N st →
  ∃ st', add_document st doc_id timestamp r = Ok st' ∧
    self_c st' = self_c st ++ [r] ∧
    self_K st' = self_K st ∧
    z (self_mixture st') !! Z.to_nat (self_N st)
    = z (self_mixture st') !! Z.to_nat r ∧
    length (z (self_mixture st')) = S (length (z (self_mixture st))).
Proof.
  intros Hcons Hwf Hqueue Hfull Hr.
  pose proof (cons_N st Hcons) as HN. pose proof (cons_z st Hcons) as Hz.
  rewrite (add_document_exec st doc_id timestamp r k rest Hqueue). cbv zeta.
  destruct (seat_consistent st doc_id k rest Hcons Hwf Hqueue) as [Hc2 Hwf2].
  cbv zeta in Hc2, Hwf2. set (st2 := set_K (self_K st + 1) _) in *.
  destruct (decide (self_N st + 1 > self_K_max st)); [|lia].
  assert (Hc2eq : self_c st2 = self_c st ++ [self_N st]) by reflexivity.
  assert (Hz2eq : z (self_mixture st2) = z (self_mixture st) ++ [k])
    by reflexivity.
  assert (Hi2 : in_range (length (self_c st2)) (self_N st)).
  { rewrite Hc2eq, length_app. simpl. unfold in_range. lia. }
  assert (Hself : link (self_c st2) (self_N st) = self_N st).
  { rewrite Hc2eq, link_app by lia.
    destruct (decide (self_N st = Z.of_nat (length (self_c st))));
      [reflexivity|contradiction]. }
  destruct (remove_assignment_exec st2 (self_N st) (cons_graph _ Hc2) Hwf2
              Hi2 (cons_z _ Hc2))
    as (b & gs' & people & z_i & Hb & _ & _ & _ & _ & _ & _ & Hexec).
  destruct (is_table_split_total st2 (self_N st) Hwf2 Hi2) as (b' & Hb' & Hspec).
  assert (b' = b) as -> by congruence. clear Hb'.
  destruct b; [destruct Hspec as (Hne & _); contradiction|].
  cbv zeta in Hexec. rewrite Hexec, bind_ret.
  set (sta := set_c _ (set_g gs' st2)) in *.
  destruct (remove_assignment_consistent st2 sta (self_N st) Hc2 Hwf2 Hi2 Hexec)
    as [Hca Hun].
  assert (Hcaeq : self_c sta = <[Z.to_nat (self_N st) := -1]> (self_c st2))
    by reflexivity.
  assert (Hzaeq : z (self_mixture sta) = z (self_mixture st) ++ [k])
    by reflexivity.
  assert (Hta : in_range (length (self_c sta)) r).
  { rewrite Hcaeq, length_insert, Hc2eq, length_app. simpl.
    unfold in_range. lia. }
  destruct (lookup_lt_is_Some_2 (z (self_mixture st)) (Z.to_nat r))
    as [z_r Hzr]; [lia|].
  assert (Hzi : z (self_mixture sta) !! Z.to_nat (self_N st) = Some k).
  { rewrite Hzaeq, HN, Nat2Z.id, <- Hz. apply list_lookup_middle. reflexivity. }
  assert (Hzr' : z (self_mixture sta) !! Z.to_nat r = Some z_r).
  { rewrite Hzaeq. apply lookup_app_l_Some. exact Hzr. }
  assert (Hkr : k ≠ z_r).
  { intros ->. pose proof (cons_pool st Hcons) as [_ Hfresh].
    apply (Hfresh z_r); [rewrite Hqueue; left|].
    eapply list_elem_of_lookup_2. exact Hzr. }
  destruct (add_assignment_exec sta (self_N st) r k z_r
              (proj1 (cons_graph _ Hca)) (proj1 Hun) Hta Hzi Hzr')
    as (g_i & g_t & _ & _ & Hadd).
  destruct (add_assignment_consistent sta _ (self_N st) r Hca Hun Hta Hadd)
    as [Hc3 _].
  rewrite Hadd, bind_ret. eexists. split; [reflexivity|].
  cbn [self_c self_K self_mixture set_timestamps set_g set_c].
  destruct (join_tables_merge sta k z_r Hkr) as (Hmix & _ & HK).
  split; [|split; [|split]].
  - rewrite Hcaeq, Hc2eq, list_insert_insert_eq, HN, Nat2Z.id.
    rewrite insert_app_r_alt by lia. rewrite Nat.sub_diag. reflexivity.
  - rewrite HK. change (self_K sta) with (self_K st + 1). lia.
  - set (st3 := set_g _ (set_c _ (join_tables sta k z_r))) in *.
    assert (Hc3eq : self_c st3 = <[Z.to_nat (self_N st) := r]> (self_c sta))
      by reflexivity.
    pose proof (cons_graph _ Hc3) as Hg3. pose proof Hg3 as [Hlen3 _].
    assert (Hlc3 : length (self_c st3) = S (length (self_c st))).
    { rewrite Hc3eq, Hcaeq, !length_insert, Hc2eq, length_app. simpl. lia. }
    change (z (self_mixture st3) !! Z.to_nat (self_N st)
            = z (self_mixture st3) !! Z.to_nat r).
    apply (cons_partition _ Hc3).
    + rewrite Hlen3, Hlc3. unfold in_range. lia.
    + rewrite Hlen3, Hlc3. unfold in_range. lia.
    + apply rtc_once. apply (adj_graph_of_links _ _ _ _ Hg3).
      rewrite Hlc3. unfold in_range. split; [lia|]. split; [lia|]. left.
      rewrite Hc3eq, link_insert by (exact (proj1 Hun) || lia).
      destruct (decide (self_N st = self_N st)); [reflexivity|contradiction].
  - rewrite Hmix. cbn [merge z]. rewrite length_fmap, Hzaeq, length_app.
    simpl. lia.
Qed.

(** Over capacity with a draw that is the new customer itself: the self-link
    is removed and put back. *)
Lemma add_document_self_exec (st : DdCrp) (doc_id : Z) (timestamp : R)
    (k : Z) (rest : list Z) :
  consistent st → all_assigned (self_c st) →
  self_reusable_numbers st = k :: rest →
  self_N st + 1 > self_K_max st →
  ∃ st', add_document st doc_id timestamp (self_N st) = Ok st' ∧
    self_c st' = self_c st ++ [self_N st] ∧
    self_g st' = self_g st ++ [{[self_N st]}] ∧
    z (self_mixture st') = z (self_mixture st) ++ [k] ∧
    self_K st' = self_K st + 1.
Proof.
  intros Hcons Hwf Hqueue Hfull.
  pose proof (cons_N st Hcons) as HN. pose proof (cons_z st Hcons) as Hz.
  pose proof (cons_graph st Hcons) as [Hlen _].
  rewrite (add_document_exec st doc_id timestamp (self_N st) k rest Hqueue).
  cbv zeta.
  destruct (seat_consistent st doc_id k rest Hcons Hwf Hqueue) as [Hc2 Hwf2].
  cbv zeta in Hc2, Hwf2. set (st2 := set_K (self_K st + 1) _) in *.
  destruct (decide (self_N st + 1 > self_K_max st)); [|lia].
  assert (Hc2eq : self_c st2 = self_c st ++ [self_N st]) by reflexivity.
  assert (Hg2eq : self_g st2 = self_g st ++ [{[self_N st]}]) by reflexivity.
  assert (Hz2eq : z (self_mixture st2) = z (self_mixture st) ++ [k])
    by reflexivity.
  assert (Hi2 : in_range (length (self_c st2)) (self_N st)).
  { rewrite Hc2eq, length_app. simpl. unfold in_range. lia. }
  assert (Hself : link (self_c st2) (self_N st) = self_N st).
  { rewrite Hc2eq, link_app by lia.
    destruct (decide (self_N st = Z.of_nat (length (self_c st))));
      [reflexivity|contradiction]. }
  assert (Hn : Z.to_nat (self_N st) = length (self_g st)) by lia.
  destruct (remove_assignment_exec st2 (self_N st) (cons_graph _ Hc2) Hwf2
              Hi2 (cons_z _ Hc2))
    as (b & gs' & people & z_i & Hb & Hrm & _ & _ & _ & _ & _ & Hexec).
  destruct (is_table_split_total st2 (self_N st) Hwf2 Hi2) as (b' & Hb' & Hspec).
  assert (b' = b) as -> by congruence. clear Hb'.
  destruct b; [destruct Hspec as (Hne & _); contradiction|].
  cbv zeta in Hexec, Hrm. rewrite Hself in Hrm.
  rewrite (remove_link_self (self_g st2) (self_N st) _ {[self_N st]}) in Hrm.
  2:{ rewrite Hg2eq, Hn. apply list_lookup_middle. reflexivity. }
  2:{ lia. }
  2:{ apply elem_of_singleton. reflexivity. }
  injection Hrm as <-.
  rewrite Hexec, bind_ret.
  set (sta := set_c _ (set_g _ st2)) in *.
  destruct (remove_assignment_consistent st2 sta (self_N st) Hc2 Hwf2 Hi2 Hexec)
    as [Hca Hun].
  assert (Hcaeq : self_c sta = <[Z.to_nat (self_N st) := -1]> (self_c st2))
    by reflexivity.
  assert (Hgaeq : self_g sta
            = <[Z.to_nat (self_N st) := {[self_N st]} ∖ {[self_N st]}]>
                (self_g st2)) by reflexivity.
  assert (Hzi : z (self_mixture sta) !! Z.to_nat (self_N st) = Some k).
  { change (z (self_mixture sta)) with (z (self_mixture st) ++ [k]).
    rewrite HN, Nat2Z.id, <- Hz. apply list_lookup_middle. reflexivity. }
  destruct (add_assignment_exec sta (self_N st) (self_N st) k k
              (proj1 (cons_graph _ Hca)) (proj1 Hun) (proj1 Hun) Hzi Hzi)
    as (g_i & g_t & Hgi & Hgt & Hadd).
  rewrite Hadd, bind_ret, join_tables_same. eexists. split; [reflexivity|].
  cbn [self_c self_g self_K self_mixture set_timestamps set_g set_c].
  assert (Hlg2 : length (self_g st2) = S (length (self_g st))).
  { rewrite Hg2eq, length_app. simpl. lia. }
  rewrite Hgaeq in Hgi.
  rewrite list_lookup_insert_eq in Hgi by lia. injection Hgi as <-.
  rewrite list_lookup_insert_eq in Hgt by (rewrite Hgaeq, length_insert; lia).
  injection Hgt as <-.
  split; [|split; [|split]].
  - rewrite Hcaeq, Hc2eq, list_insert_insert_eq, HN, Nat2Z.id.
    rewrite insert_app_r_alt by lia. rewrite Nat.sub_diag. reflexivity.
  - rewrite Hgaeq, !list_insert_insert_eq, Hg2eq, Hn.
    rewrite insert_app_r_alt by lia. rewrite Nat.sub_diag. simpl.
    do 2 f_equal. apply set_eq. intros x.
    rewrite !elem_of_union, elem_of_difference, elem_of_singleton. tauto.
  - reflexivity.
  - reflexivity.
Qed.

(** X13: once the customers outnumber [K_max], a new customer whose draw [r] is
    an earlier customer ends pointing to [r], in the cluster of [r]; the
    number of tables is what it was. *)
Theorem add_document_over_capacity_joins (st : DdCrp) (doc_id : Z)
    (timestamp : R) (r k : Z) (rest : list Z) :
  consistent st → all_assigned (self_c st) →
  self_reusable_numbers st = k :: rest →
  self_N st + 1 > self_K_max st → 0 ≤ r < self_N st →
  ∃ st', add_document st doc_id timestamp r = Ok st' ∧
    self_c st' = self_c st ++ [r] ∧
    self_K st' = self_K st ∧
    z (self_mixture st') !! Z.to_nat (self_N st)
    = z (self_mixture st') !! Z.to_nat r ∧
    length (z (self_mixture st')) = S (length (z (self_mixture st))).
Proof. apply add_document_over_capacity_exec. Qed.

(** C9 (amended): a new customer [i] is first seated self-linked at a table
    of its own, under a cluster id from the pool that no customer has.  While
    [N + 1 <= K_max] that is the state [add_documents] leaves.  Once
    [N + 1 > K_max] the self-link is removed at once and the customer is
    linked to the draw [r] of [random.randint(0, i)], which ranges over all
    customers, [i] included: for [r < i] the customer ends in the cluster of
    [r] and [K] is what it was before the arrival; for [r = i] it ends
    self-linked and alone at its table, as it was seated. *)
Theorem add_document_capacity_spec (st : DdCrp) (doc_id : Z) (timestamp : R)
    (r k : Z) (rest : list Z) :
  consistent st → all_assigned (self_c st) →
  self_reusable_numbers st = k :: rest →
  0 ≤ r ≤ self_N st →
  let i := self_N st in
  let st2 := seated st doc_id k rest in
  (self_c st2 = self_c st ++ [i] ∧ self_g st2 = self_g st ++ [{[i]}] ∧
   z (self_mixture st2) = z (self_mixture st) ++ [k] ∧
   (k ∉ z (self_mixture st)) ∧ self_K st2 = self_K st + 1) ∧
  ∃ st', add_document st doc_id timestamp r = Ok st' ∧
    self_N st' = i + 1 ∧
    (i + 1 ≤ self_K_max st →
     self_c st' = self_c st2 ∧ self_g st' = self_g st2 ∧
     self_mixture st' = self_mixture st2 ∧ self_K st' = self_K st2) ∧
    (i + 1 > self_K_max st →
     (∃ s st3,
        _remove_assignment st2 i = Ok s ∧ link (self_c s) i = -1 ∧
        _add_assignment s i r = Ok st3 ∧
        st' = set_timestamps
                (self_timestamps st3 ++ [(timestamp / 86400)%R]) st3) ∧
     self_c st' = self_c st ++ [r] ∧
     (r < i →
      z (self_mixture st') !! Z.to_nat i = z (self_mixture st') !! Z.to_nat r ∧
      self_K st' = self_K st) ∧
     (r = i →
      self_g st' = self_g st ++ [{[i]}] ∧
      z (self_mixture st') = z (self_mixture st) ++ [k] ∧
      self_K st' = self_K st + 1)).
Proof.
  intros Hcons Hwf Hqueue Hr i st2.
  split.
  { split; [reflexivity|]. split; [reflexivity|]. split; [reflexivity|].
    split; [|reflexivity].
    pose proof (cons_pool st Hcons) as [_ Hfresh]. apply Hfresh.
    rewrite Hqueue. left. }
  pose proof (add_document_exec st doc_id timestamp r k rest Hqueue) as Hexec.
  cbv zeta in Hexec. fold (seated st doc_id k rest) in Hexec. fold st2 in Hexec.
  destruct (decide (self_N st + 1 > self_K_max st)) as [Hfull|Hroom].
  - assert (Hret : ∃ st', add_document st doc_id timestamp r = Ok st' ∧
              self_c st' = self_c st ++ [r] ∧
              (r < i →
               z (self_mixture st') !! Z.to_nat i
               = z (self_mixture st') !! Z.to_nat r ∧
               self_K st' = self_K st) ∧
              (r = i →
               self_g st' = self_g st ++ [{[i]}] ∧
               z (self_mixture st') = z (self_mixture st) ++ [k] ∧
               self_K st' = self_K st + 1)).
    { destruct (decide (r = i)) as [->|Hne].
      - destruct (add_document_self_exec st doc_id timestamp k rest Hcons Hwf
                    Hqueue Hfull) as (st' & Hadd & Hc & Hg & Hz & HK).
        exists st'. split; [exact Hadd|]. split; [exact Hc|].
        split; [lia|auto].
      - destruct (add_document_over_capacity_exec st doc_id timestamp r k rest
                    Hcons Hwf Hqueue Hfull) as (st' & Hadd & Hc & HK & Hz & _).
        { unfold i in Hne. lia. }
        exists st'. split; [exact Hadd|]. split; [exact Hc|].
        split; [auto|contradiction]. }
    destruct Hret as (st' & Hadd & Hc & Hjoin & Hown).
    exists st'. split; [exact Hadd|].
    split; [exact (proj1 (add_document_setting st st' doc_id timestamp r Hadd))|].
    split; [unfold i; lia|]. intros _.
    split; [|split; [exact Hc|split; assumption]].
    rewrite Hexec in Hadd. apply bind_Ok in Hadd as (st3 & Hst3 & Hst').
    apply bind_Ok in Hst3 as (s & Hrem & Hlink). injection Hst' as <-.
    exists s, st3. split; [exact Hrem|]. split; [|split; [exact Hlink|reflexivity]].
    destruct (seat_consistent st doc_id k rest Hcons Hwf Hqueue) as [Hc2 Hwf2].
    cbv zeta in Hc2, Hwf2. fold (seated st doc_id k rest) in Hc2, Hwf2.
    fold st2 in Hc2, Hwf2.
    assert (Hi2 : in_range (length (self_c st2)) i).
    { change (self_c st2) with (self_c st ++ [self_N st]).
      rewrite length_app. simpl. pose proof (cons_N st Hcons).
      unfold in_range, i. lia. }
    destruct (remove_assignment_consistent st2 s i Hc2 Hwf2 Hi2 Hrem)
      as [_ Hun].
    apply unassigned_link. exact Hun.
  - rewrite Hexec, bind_ret. eexists. split; [reflexivity|].
    split; [reflexivity|]. split; [|unfold i; lia].
    intros _. repeat split.
Qed.

(** ** Iteration *)

Lemma iter_loop_spec (ids : list Z) (items : list (Z * Z * Z)) :
  (∀ it, it ∈ items → ∃ l, py_getitem ids it.2 = Ok l) →
  ∃ out, iter_loop ids items = Ok out ∧
    length out = length items ∧
    ∀ k d zk c, items !! k = Some (d, zk, c) →
      ∃ l, py_getitem ids c = Ok l ∧ out !! k = Some (d, zk, l).
Proof.
  induction items as [|[[d zk] c] items IH]; intros Hok.
  - exists []. split; [reflexivity|]. split; [reflexivity|].
    intros k d zk c Hk. discriminate.
  - destruct (Hok (d, zk, c)) as [l Hl]; [left|]. simpl in Hl.
    destruct IH as (out & Hout & Hlen & Hitems).
    { intros it Hit. apply Hok. right. exact Hit. }
    exists ((d, zk, l) :: out). simpl. rewrite Hl, bind_ret, Hout, bind_ret.
    split; [reflexivity|]. split; [simpl; lia|].
    intros [|k] d' zk' c' Hk.
    + injection Hk as <- <- <-. eauto.
    + apply Hitems. exact Hk.
Qed.

Lemma zip3_lookup (ids zs cs : list Z) (k : nat) (d zk c : Z) :
  zip3 ids zs cs !! k = Some (d, zk, c) ↔
  ids !! k = Some d ∧ zs !! k = Some zk ∧ cs !! k = Some c.
Proof.
  unfold zip3. rewrite lookup_zip_Some, lookup_zip_Some. tauto.
Qed.

Lemma zip3_length (ids zs cs : list Z) :
  length ids = length cs → length zs = length cs →
  length (zip3 ids zs cs) = length cs.
Proof.
  intros H1 H2. unfold zip3. rewrite !length_zip_with. lia.
Qed.

(** X14: on a state where every customer has a link, [__iter__] yields one
    triple per customer, in index order: its document id, its cluster id and
    the document id of the customer it points to; no index fails. *)
Theorem iter_yields_every_customer (st : DdCrp) :
  consistent st → counted st → all_assigned (self_c st) →
  ∃ items, __iter__ st = Ok items ∧
    length items = length (self_c st) ∧
    ∀ k c_k, self_c st !! k = Some c_k →
      ∃ d zk l,
        self_ids st !! k = Some d ∧
        z (self_mixture st) !! k = Some zk ∧
        self_ids st !! Z.to_nat c_k = Some l ∧
        items !! k = Some (d, zk, l).
Proof.
  intros Hcons [_ Hids] Hwf. pose proof (cons_z st Hcons) as Hz.
  unfold __iter__.
  destruct (iter_loop_spec (self_ids st)
              (zip3 (self_ids st) (z (self_mixture st)) (self_c st)))
    as (out & Hout & Hlen & Hitems).
  { intros [[d zk] c] Hit. apply list_elem_of_lookup_1 in Hit as [k Hk].
    apply zip3_lookup in Hk as (_ & _ & Hc). simpl.
    pose proof (Forall_lookup_1 _ _ _ _ Hwf Hc) as Hr. rewrite <- Hids in Hr.
    destruct (py_getitem_in_range (self_ids st) c Hr) as (l & Hl & _). eauto. }
  exists out. split; [exact Hout|].
  split; [rewrite Hlen; apply zip3_length; assumption|].
  intros k c_k Hc. pose proof (lookup_lt_Some _ _ _ Hc) as Hk.
  destruct (lookup_lt_is_Some_2 (self_ids st) k) as [d Hd]; [lia|].
  destruct (lookup_lt_is_Some_2 (z (self_mixture st)) k) as [zk Hzk]; [lia|].
  destruct (Hitems k d zk c_k) as (l & Hl & Hk').
  { apply zip3_lookup. auto. }
  exists d, zk, l. split; [exact Hd|]. split; [exact Hzk|].
  split; [|exact Hk'].
  apply py_getitem_inv; [|exact Hl]. rewrite Hids.
  exact (Forall_lookup_1 _ _ _ _ Hwf Hc).
Qed.

Lemma py_getitem_last {A} (l : list A) (x : A) :
  last l = Some x → py_getitem l (-1) = Ok x.
Proof.
  intros Hlast. rewrite last_lookup in Hlast.
  pose proof (lookup_lt_Some _ _ _ Hlast) as Hlt.
  unfold py_getitem, norm_index.
  destruct (decide (0 ≤ -1 < Z.of_nat (length l))); [lia|].
  destruct (decide (- Z.of_nat (length l) ≤ -1 < 0)); [|lia].
  rewrite bind_ret.
  replace (Z.to_nat (Z.of_nat (length l) + -1)) with (pred (length l)) by lia.
  rewrite Hlast. reflexivity.
Qed.

(** X15: the unassigned mark [-1] is a valid Python index: while customer [i]
    has no link, [__iter__] does not fail but reports the last document as
    the one [i] points to. *)
Theorem iter_unassigned_reports_last (st : DdCrp) (i : Z) :
  consistent st → counted st → unassigned_only (self_c st) i →
  ∃ items d zk l,
    __iter__ st = Ok items ∧
    last (self_ids st) = Some l ∧
    items !! Z.to_nat i = Some (d, zk, l).
Proof.
  intros Hcons [_ Hids] [Hi Hcs]. pose proof (cons_z st Hcons) as Hz.
  destruct (last (self_ids st)) as [l|] eqn:Hlast.
  2:{ apply last_None in Hlast. rewrite Hlast in Hids. simpl in Hids.
      unfold in_range in Hi. lia. }
  unfold __iter__.
  destruct (iter_loop_spec (self_ids st)
              (zip3 (self_ids st) (z (self_mixture st)) (self_c st)))
    as (out & Hout & Hlen & Hitems).
  { intros [[d zk] c] Hit. apply list_elem_of_lookup_1 in Hit as [k Hk].
    apply zip3_lookup in Hk as (_ & _ & Hc). simpl.
    pose proof (Hcs _ _ Hc) as Hr.
    destruct (decide (Z.of_nat k = i)).
    - subst c. exists l. apply py_getitem_last. exact Hlast.
    - rewrite <- Hids in Hr.
      destruct (py_getitem_in_range (self_ids st) c Hr) as (l' & Hl' & _).
      eauto. }
  unfold in_range in Hi.
  destruct (lookup_lt_is_Some_2 (self_ids st) (Z.to_nat i)) as [d Hd]; [lia|].
  destruct (lookup_lt_is_Some_2 (z (self_mixture st)) (Z.to_nat i))
    as [zk Hzk]; [lia|].
  destruct (lookup_lt_is_Some_2 (self_c st) (Z.to_nat i)) as [c Hc]; [lia|].
  pose proof (Hcs _ _ Hc) as Hci. rewrite Z2Nat.id in Hci by lia.
  destruct (decide (i = i)); [|contradiction]. subst c.
  destruct (Hitems (Z.to_nat i) d zk (-1)) as (l' & Hl' & Hk').
  { apply zip3_lookup. auto. }
  rewrite (py_getitem_last _ _ Hlast) in Hl'. injection Hl' as <-.
  exists out, d, zk, l. auto.
Qed.

(** ** Decay kernels *)

(** X16: for a positive decay constant and a non-negative distance,
    [exponential_decay] raises nothing and returns a weight in [0, 1]: 1 at
    distance 0, positive up to 500 decay constants, and exactly 0 from 1075
    decay constants on, where [math.exp] has underflowed and [math.log] of
    the weight raises [ValueError]; a zero constant raises
    [ZeroDivisionError]. *)
Theorem exponential_decay_contract (d a : R) :
  (0 < a)%R → (0 <= d)%R →
  ∃ w, exponential_decay d a = Ok w ∧
    (0 <= w <= 1)%R ∧
    (d = 0%R → w = 1%R) ∧
    ((d <= 500 * a)%R → (0 < w)%R) ∧
    ((1075 * a <= d)%R → w = 0%R ∧ math_log w = Raise ValueError) ∧
    exponential_decay d 0 = Raise ZeroDivisionError.
Proof.
  intros Ha Hd.
  assert (Hx : (- d / a * a = - d)%R) by (field; lra).
  assert (Hneg : (- d / a <= 0)%R) by nra.
  destruct (math_exp_returns (- d / a)) as [w Hw]; [lra|].
  destruct (math_exp_value _ _ Hw) as [_ [Hw0 Hwx]].
  assert (H1 : (exp (- d / a) <= 1)%R)
    by (rewrite <- exp_0; apply exp_le_mono; exact Hneg).
  assert (Hform : exponential_decay d a = math_exp (- d / a)).
  { unfold exponential_decay. destruct (Req_dec_T a 0); [lra|reflexivity]. }
  exists w. split; [rewrite Hform; exact Hw|]. split; [lra|].
  split; [|split; [|split]].
  - intros ->. destruct (math_exp_near (- 0 / a)) as [Hnear _]; [nra|].
    rewrite Hnear in Hw. injection Hw as <-.
    replace (- 0 / a)%R with 0%R by (field; lra). apply exp_0.
  - intros Hnear. destruct (math_exp_near (- d / a)) as [He [Hpos _]]; [nra|].
    rewrite He in Hw. injection Hw as <-. exact Hpos.
  - intros Hfar. rewrite (math_exp_far (- d / a)) in Hw by nra.
    injection Hw as <-. split; [reflexivity|]. apply math_log_nonpos. lra.
  - unfold exponential_decay. destruct (Req_dec_T 0 0); [reflexivity|lra].
Qed.

(** X17: for a non-negative distance [d], [logistic_decay] returns a weight
    in [0, 1] whenever [a - d <= 500], one half at the midpoint [d = a] and
    exactly 0 once [d - a >= 1075]; it raises [OverflowError] once
    [a - d >= 1024], where [math.exp] is out of range. *)
Theorem logistic_decay_contract (d a : R) :
  (0 <= d)%R →
  ((a - d <= 500)%R →
   ∃ w, logistic_decay d a = Ok w ∧
     (0 <= w <= 1)%R ∧
     (d = a → w = (1 / 2)%R) ∧
     ((1075 <= d - a)%R → w = 0%R)) ∧
  ((1024 <= a - d)%R → logistic_decay d a = Raise OverflowError).
Proof.
  intros _. split.
  - intros Hle. destruct (math_exp_returns (- d + a)) as [e He]; [lra|].
    destruct (math_exp_value _ _ He) as [_ [He0 _]].
    exists (e / (1 + e))%R. unfold logistic_decay.
    rewrite He, !bind_ret. split; [reflexivity|].
    assert (Hinv : (0 < / (1 + e))%R) by (apply Rinv_0_lt_compat; lra).
    assert (Hq : (e / (1 + e) = 1 - / (1 + e))%R) by (field; lra).
    assert (Hinv1 : (/ (1 + e) <= 1)%R).
    { rewrite <- Rinv_1 at 2. apply Rinv_le_contravar; lra. }
    split; [lra|]. split.
    + intros ->. destruct (math_exp_near (- a + a)) as [Hnear _]; [lra|].
      rewrite Hnear in He. injection He as <-.
      replace (- a + a)%R with 0%R by lra. rewrite exp_0. lra.
    + intros Hfar. rewrite (math_exp_far (- d + a)) in He by lra.
      injection He as <-. lra.
  - intros Hov. unfold logistic_decay.
    rewrite (math_exp_overflow (- d + a)) by lra. reflexivity.
Qed.

(** ** When the Gibbs step returns *)

Lemma likelihood_under_z_total (st : DdCrp) (i c : Z) :
  graph_closed (self_g st) →
  in_range (length (self_g st)) i → in_range (length (self_g st)) c →
  ∃ v st', _likelihood_under_z st i c = Ok (v, st').
Proof.
  intros Hcl Hi Hc.
  destruct (get_people_next_to_component st i Hcl Hi) as (k & Hk & _).
  destruct (get_people_next_to_component st c Hcl Hc) as (l & Hl & _).
  unfold _likelihood_under_z. rewrite Hk, bind_ret, Hl, bind_ret. cbv zeta.
  destruct (cached_likelihood st k) as [vk st1].
  destruct (cached_likelihood st1 l) as [vl st2].
  destruct (cached_likelihood st2 (k ∪ l)) as [vkl st3]. eauto.
Qed.

Lemma assignment_probability_total (st : DdCrp) (i c : Z) :
  graph_closed (self_g st) →
  in_range (length (self_g st)) i → in_range (length (self_g st)) c →
  length (self_timestamps st) = length (self_g st) →
  length (z (self_mixture st)) = length (self_g st) →
  (0 < self_alpha st)%R → decay_positive st →
  ∃ w st', _assignment_probability st i c = Ok (w, st').
Proof.
  intros Hcl Hi Hc Hts Hz Halpha Hf. unfold _assignment_probability.
  destruct (decide (i = c)).
  { rewrite (math_log_pos _ Halpha), bind_ret. eauto. }
  rewrite <- Hts in Hi, Hc.
  destruct (py_getitem_in_range _ i Hi) as (t_i & -> & Hti).
  destruct (py_getitem_in_range _ c Hc) as (t_c & -> & Htc).
  rewrite !bind_ret. cbv zeta. rewrite Hts, <- Hz in Hi, Hc.
  destruct (py_getitem_in_range _ i Hi) as (z_i & -> & _).
  destruct (py_getitem_in_range _ c Hc) as (z_c & -> & _).
  rewrite !bind_ret.
  destruct (Hf t_i t_c (list_elem_of_lookup_2 _ _ _ Hti)
              (list_elem_of_lookup_2 _ _ _ Htc)) as (w & Hfw & Hw).
  destruct (decide (z_i = z_c)).
  - rewrite Hfw, bind_ret, (math_log_pos _ Hw), bind_ret. eauto.
  - rewrite Hfw, bind_ret, (math_log_pos _ Hw), bind_ret.
    rewrite Hz in Hi, Hc.
    destruct (likelihood_under_z_total st i c Hcl Hi Hc) as (v & st' & ->).
    rewrite bind_ret. eauto.
Qed.

Lemma probabilities_loop_total (cands : list Z) (st : DdCrp) (i : Z) :
  graph_closed (self_g st) → in_range (length (self_g st)) i →
  Forall (in_range (length (self_g st))) cands →
  length (self_timestamps st) = length (self_g st) →
  length (z (self_mixture st)) = length (self_g st) →
  (0 < self_alpha st)%R → decay_positive st →
  ∃ ps st', probabilities_loop st i cands = Ok (ps, st').
Proof.
  revert st. induction cands as [|c cands IH];
    intros st Hcl Hi Hcands Hts Hz Halpha Hf; simpl; [eauto|].
  apply Forall_cons in Hcands as [Hc Hcands].
  destruct (assignment_probability_total st i c Hcl Hi Hc Hts Hz Halpha Hf)
    as (w & st1 & H1).
  rewrite H1, bind_ret.
  apply assignment_probability_extends in H1 as [E _].
  destruct (IH st1) as (ps & st2 & H2); try (rewrite E; assumption).
  rewrite H2, bind_ret. eauto.
Qed.

Lemma get_assignment_probabilities_total (st : DdCrp) (i : Z) :
  graph_closed (self_g st) → in_range (length (self_g st)) i →
  self_N st = Z.of_nat (length (self_g st)) →
  length (self_timestamps st) = length (self_g st) →
  length (z (self_mixture st)) = length (self_g st) →
  (0 < self_alpha st)%R → decay_positive st →
  ∃ logs st', _get_assignment_probabilities st i = Ok (logs, st') ∧
              length logs = length (self_g st).
Proof.
  intros Hcl Hi HN Hts Hz Halpha Hf. unfold _get_assignment_probabilities.
  destruct (probabilities_loop_total (py_range (self_N st)) st i)
    as (ps & st' & Hps); try assumption.
  { rewrite HN. unfold py_range. rewrite Nat2Z.id. apply Forall_fmap.
    apply Forall_forall. intros n Hn. apply elem_of_seq in Hn.
    unfold in_range. simpl. lia. }
  exists ps, st'. split; [exact Hps|].
  pose proof (probabilities_loop_ids _ _ _ _ _ Hps) as Hids.
  rewrite <- (length_fmap fst), Hids. unfold py_range.
  rewrite length_fmap, length_seq, HN, Nat2Z.id. reflexivity.
Qed.

(** X18: with a positive [alpha] and a decay function that is positive on
    non-negative distances, the log-weights of all [N] candidates are
    computed without an exception. *)
Theorem log_weights_total (st : DdCrp) (i : Z) :
  graph_closed (self_g st) → in_range (length (self_g st)) i →
  self_N st = Z.of_nat (length (self_g st)) →
  length (self_timestamps st) = length (self_g st) →
  length (z (self_mixture st)) = length (self_g st) →
  (0 < self_alpha st)%R →
  (∀ d, (0 <= d)%R → ∃ w, self_f st d = Ok w ∧ (0 < w)%R) →
  ∃ logs st', _get_assignment_probabilities st i = Ok (logs, st') ∧
              length logs = length (self_g st).
Proof.
  intros Hcl Hi HN Hts Hz Halpha Hf.
  apply get_assignment_probabilities_total; try assumption.
  intros t_i t_c _ _. apply Hf, Rabs_pos.
Qed.

Lemma sample_document_total (draw_indexed : list (Z * R) → Z)
    (st : DdCrp) (i : Z) :
  consistent st → all_assigned (self_c st) →
  in_range (length (self_c st)) i →
  length (self_timestamps st) = length (self_c st) →
  (0 < self_alpha st)%R → decay_positive st →
  (∀ ps, ps ≠ [] → draw_indexed ps ∈ fst <$> ps) →
  self_reusable_numbers st ≠ [] →
  ∃ st', _sample_document draw_indexed st i = Ok st'.
Proof.
  intros Hcons Hwf Hi Hts Halpha Hf Hdraw Hpool.
  destruct (remove_assignment_exec st i (cons_graph _ Hcons) Hwf Hi
              (cons_z _ Hcons))
    as (b & gs' & people & z_i & _ & _ & _ & _ & _ & _ & _ & Hexec).
  assert (Hrem : ∃ st1, _remove_assignment st i = Ok st1).
  { rewrite Hexec. cbv zeta. destruct b; [|eauto].
    destruct (self_reusable_numbers st); [contradiction|eauto]. }
  destruct Hrem as [st1 Hrem].
  destruct (remove_assignment_consistent st st1 i Hcons Hwf Hi Hrem)
    as [Hc1 Hun1].
  destruct (remove_assignment_frame st st1 i Hrem)
    as ((Ha1 & Hf1 & _ & HN1 & _ & Hts1 & _) & Hlc1 & Hlg1).
  pose proof (cons_graph _ Hc1) as Hg1. pose proof Hg1 as [Hlen1 _].
  destruct (get_assignment_probabilities_total st1 i)
    as (logs & st2 & Hlogs & Hlen).
  - eapply graph_of_links_closed. exact Hg1.
  - rewrite Hlen1. apply Hun1.
  - rewrite (cons_N _ Hc1), Hlen1. reflexivity.
  - rewrite Hts1, Hlen1, Hlc1. exact Hts.
  - rewrite Hlen1. exact (cons_z _ Hc1).
  - rewrite Ha1. exact Halpha.
  - unfold decay_positive. rewrite Hf1, Hts1. exact Hf.
  - assert (Hne : logs ≠ []).
    { intros ->. simpl in Hlen. rewrite Hlen1, Hlc1 in Hlen.
      unfold in_range in Hi. lia. }
    pose proof (softmax_indexed_eq logs Hne) as Hsoft.
    set (ps := zip _ _) in Hsoft.
    destruct (softmax_indexed_ids _ _ Hsoft) as [_ Hfst].
    pose proof (probabilities_loop_ids _ _ _ _ _ Hlogs) as Hids.
    pose proof (probabilities_loop_extends _ _ _ _ _ Hlogs) as Hext.
    pose proof (consistent_cache_extends _ _ Hext Hc1) as Hc2.
    assert (Hc12 : self_c st2 = self_c st1).
    { destruct Hext as [E _]. rewrite E. reflexivity. }
    assert (Hps : ps ≠ []).
    { intros Hnil. rewrite Hnil in Hfst. simpl in Hfst.
      destruct logs; [contradiction|discriminate]. }
    assert (Ht : in_range (length (self_c st2)) (draw_indexed ps)).
    { pose proof (Hdraw ps Hps) as Hin. rewrite Hfst, Hids in Hin.
      unfold py_range in Hin. apply list_elem_of_fmap in Hin as (n & -> & Hn).
      apply elem_of_seq in Hn. rewrite Hc12.
      pose proof (cons_N st1 Hc1). unfold in_range. lia. }
    destruct (lookup_lt_is_Some_2 (z (self_mixture st2)) (Z.to_nat i))
      as [zi Hzi].
    { rewrite (cons_z _ Hc2), Hc12, Hlc1. unfold in_range in Hi. lia. }
    destruct (lookup_lt_is_Some_2 (z (self_mixture st2))
                (Z.to_nat (draw_indexed ps))) as [zt Hzt].
    { rewrite (cons_z _ Hc2). unfold in_range in Ht. lia. }
    destruct (add_assignment_exec st2 i (draw_indexed ps) zi zt)
      as (g_i & g_t & _ & _ & Hadd).
    + exact (proj1 (cons_graph _ Hc2)).
    + rewrite Hc12, Hlc1. exact Hi.
    + exact Ht.
    + exact Hzi.
    + exact Hzt.
    + eexists. unfold _sample_document, sampling_distribution.
      rewrite Hrem, bind_ret, Hlogs, bind_ret, Hsoft, !bind_ret.
      exact Hadd.
Qed.

(** X19: a Gibbs step returns whenever the pool can serve a split: on a
    consistent state with one timestamp per customer, a positive [alpha], a
    positive decay function and a draw among the candidates,
    [_sample_document(i)] raises nothing. *)
Theorem sample_document_returns (draw_indexed : list (Z * R) → Z)
    (st : DdCrp) (i : Z) :
  consistent st → all_assigned (self_c st) →
  in_range (length (self_c st)) i →
  length (self_timestamps st) = length (self_c st) →
  (0 < self_alpha st)%R →
  (∀ d, (0 <= d)%R → ∃ w, self_f st d = Ok w ∧ (0 < w)%R) →
  (∀ ps, ps ≠ [] → draw_indexed ps ∈ fst <$> ps) →
  self_reusable_numbers st ≠ [] →
  ∃ st', _sample_document draw_indexed st i = Ok st'.
Proof.
  intros Hcons Hwf Hi Hts Halpha Hf Hdraw Hpool.
  apply sample_document_total; try assumption.
  intros t_i t_c _ _. apply Hf, Rabs_pos.
Qed.

(** ** Probabilities follow the weights *)


(** ** Reachable states *)

Lemma reachable_all (st : DdCrp) :
  reachable st →
  consistent st ∧ counted st ∧ all_assigned (self_c st) ∧
  length (self_timestamps st) = length (self_c st).
Proof.
  induction 1 as [K alpha f L|st st' docs _ IH Hdraws Hadd
                 |draw st st' i _ IH Hi Hdraw Hsample].
  - destruct (init_consistent K alpha f L) as [Hc Hwf].
    split; [exact Hc|]. split; [|auto]. split; reflexivity.
  - destruct IH as (Hc & Hk & Hwf & Hts).
    destruct (add_documents_all docs st st' Hc Hk Hwf Hdraws Hadd)
      as (Hc' & Hk' & Hwf' & HN' & _ & Hts').
    split; [exact Hc'|]. split; [exact Hk'|]. split; [exact Hwf'|].
    pose proof (cons_N _ Hc) as HN. pose proof (cons_N _ Hc') as HN''.
    rewrite Hts', length_app, length_fmap. lia.
  - destruct IH as (Hc & Hk & Hwf & Hts).
    destruct (sample_document_all draw st st' i Hc Hk Hwf Hi Hdraw Hsample)
      as (Hc' & Hk' & Hwf' & HN' & _ & Hts').
    split; [exact Hc'|]. split; [exact Hk'|]. split; [exact Hwf'|].
    pose proof (cons_N _ Hc) as HN. pose proof (cons_N _ Hc') as HN''.
    rewrite Hts'. lia.
Qed.

(** X21: on every state reached through [__init__], [add_documents] and
    [_sample_document], the arrays [c], [g], [z], [ids] and [timestamps] all
    have [N] entries, every customer points to a customer, and [g] mirrors
    the links: [b] is in [g[a]] exactly when [a] points to [b] or [b] points
    to [a]. *)
Theorem reachable_graph_mirrors_links (st : DdCrp) :
  reachable st →
  self_N st = Z.of_nat (length (self_c st)) ∧
  length (self_g st) = length (self_c st) ∧
  length (z (self_mixture st)) = length (self_c st) ∧
  length (self_ids st) = length (self_c st) ∧
  length (self_timestamps st) = length (self_c st) ∧
  ∀ a c_a g_a, self_c st !! a = Some c_a → self_g st !! a = Some g_a →
    in_range (length (self_c st)) c_a ∧
    ∀ b, b ∈ g_a ↔
         in_range (length (self_c st)) b ∧
         (c_a = b ∨ self_c st !! Z.to_nat b = Some (Z.of_nat a)).
Proof.
  intros Hreach.
  destruct (reachable_all st Hreach) as (Hc & [_ Hids] & Hwf & Hts).
  destruct Hc as [HN Hz _ [Hlen Hg] _ _].
  split; [exact HN|]. split; [exact Hlen|]. split; [exact Hz|].
  split; [exact Hids|]. split; [exact Hts|].
  intros a c_a g_a Hca Hga.
  split; [exact (Forall_lookup_1 _ _ _ _ Hwf Hca)|].
  intros b. rewrite (Hg _ _ Hga b).
  assert (Hla : link (self_c st) (Z.of_nat a) = c_a).
  { unfold link. rewrite Nat2Z.id, Hca. reflexivity. }
  rewrite Hla. split; intros [Hb Hl]; (split; [exact Hb|]).
  - destruct Hl as [Hl|Hl]; [auto|]. right.
    destruct (py_getitem_in_range _ b Hb) as (x & _ & Hx).
    unfold link in Hl. rewrite Hx in Hl. simpl in Hl. congruence.
  - destruct Hl as [Hl|Hl]; [auto|]. right.
    unfold link. rewrite Hl. reflexivity.
Qed.

(** X22: on every reachable state two customers are connected in the link
    graph exactly when the mixture gives them the same cluster id, and [K] is
    the number of distinct cluster ids. *)
Theorem reachable_components_are_clusters (st : DdCrp) :
  reachable st →
  self_K st = Z.of_nat (tables (z (self_mixture st))) ∧
  ∀ a b, in_range (length (self_c st)) a → in_range (length (self_c st)) b →
    (connected (self_g st) a b ↔
     z (self_mixture st) !! Z.to_nat a = z (self_mixture st) !! Z.to_nat b).
Proof.
  intros Hreach.
  destruct (reachable_all st Hreach) as (Hc & [HK _] & _).
  split; [exact HK|]. intros a b Ha Hb.
  pose proof (cons_graph _ Hc) as [Hlen _].
  apply (cons_partition _ Hc); rewrite Hlen; assumption.
Qed.

(** ** The further properties at the example runs *)

Lemma example_rejoined_run :
  _add_assignment example_split 2 0 = Ok example_rejoined.
Proof. apply run_succeeds. vm_compute. reflexivity. Qed.

Lemma example_four_run :
  add_document example_chain 13 259200%R 0 = Ok example_four.
Proof. apply run_succeeds. vm_compute. reflexivity. Qed.

Lemma example_four_consistent :
  consistent example_four ∧ all_assigned (self_c example_four).
Proof.
  destruct example_chain_consistent as [Hc Hwf].
  eapply add_document_consistent; [exact Hc|exact Hwf| |exact example_four_run].
  vm_compute. split; discriminate.
Qed.

Lemma example_start_counted : counted example_start.
Proof. split; reflexivity. Qed.

Lemma example_chain_counted : counted example_chain.
Proof. split; vm_compute; reflexivity. Qed.

Lemma example_split_counted : counted example_split.
Proof. split; vm_compute; reflexivity. Qed.

Lemma example_batch_run :
  add_documents example_start example_batch = Ok example_singles.
Proof.
  unfold example_batch. cbn [add_documents].
  rewrite example_one_run, bind_ret, example_two_run, bind_ret,
    example_singles_run, bind_ret.
  reflexivity.
Qed.

Lemma example_batch_draws :
  draws_in_range (self_N example_start) example_batch.
Proof.
  intros [|[|[|k]]] d Hd; try discriminate; injection Hd as <-;
    change (self_N example_start) with 0; simpl; lia.
Qed.

Lemma example_start_consistent :
  consistent example_start ∧ all_assigned (self_c example_start).
Proof. apply init_consistent. Qed.

Lemma draw_first_listed (ps : list (Z * R)) :
  ps ≠ [] → draw_first ps ∈ fst <$> ps.
Proof. destruct ps as [|p ps]; [contradiction|]. intros _. left. Qed.

(** Timestamps within 500 days of each other keep the exponential decay of
    rate 1 positive. *)
Lemma exponential_decay_positive (st : DdCrp) :
  self_f st = (λ d, exponential_decay d 1%R) →
  Forall (λ t, (0 <= t <= 500)%R) (self_timestamps st) →
  decay_positive st.
Proof.
  intros Hf Hts t_i t_c Hi Hc. rewrite Hf.
  pose proof (proj1 (Forall_forall _ _) Hts _ Hi) as Hti.
  pose proof (proj1 (Forall_forall _ _) Hts _ Hc) as Htc.
  simpl in Hti, Htc. exists (exp (- Rabs (t_i - t_c) / 1)).
  apply exponential_decay_near; [lra|].
  split; [apply Rabs_pos|apply Rabs_le; lra].
Qed.

Lemma example_days (st : DdCrp) :
  self_timestamps st = [(0 / 86400)%R; (86400 / 86400)%R; (172800 / 86400)%R] →
  Forall (λ t, (0 <= t <= 500)%R) (self_timestamps st).
Proof.
  intros ->. repeat (apply Forall_cons; split; [lra|]). apply Forall_nil_2.
Qed.

Lemma example_flat_run :
  add_documents example_flat_start example_batch = Ok example_flat_singles.
Proof. apply run_succeeds. vm_compute. reflexivity. Qed.

Lemma example_flat_consistent :
  consistent example_flat_singles ∧ counted example_flat_singles ∧
  all_assigned (self_c example_flat_singles).
Proof.
  destruct (init_consistent 4 1%R (λ _, Ok 1%R) (λ _, 0%R)) as [Hc Hwf].
  destruct (add_documents_all example_batch example_flat_start
              example_flat_singles Hc) as (H1 & H2 & H3 & _).
  - split; reflexivity.
  - exact Hwf.
  - exact example_batch_draws.
  - exact example_flat_run.
  - auto.
Qed.

Lemma example_flat_positive (st : DdCrp) :
  self_f st = (λ _, Ok 1%R) →
  ∀ d, (0 <= d)%R → ∃ w, self_f st d = Ok w ∧ (0 < w)%R.
Proof. intros -> d _. exists 1%R. split; [reflexivity|lra]. Qed.

Lemma example_singles_reachable : reachable example_singles.
Proof.
  apply (reach_add_documents example_start example_singles example_batch).
  - apply reach_init.
  - exact example_batch_draws.
  - exact example_batch_run.
Qed.

Lemma people_next_to_is_component_witness :
  ∃ s, _get_people_next_to example_chain 0 = Ok s ∧
       (∀ x, x ∈ s ↔ connected (self_g example_chain) 0 x) ∧
       (∀ x, x ∈ s → in_range (length (self_g example_chain)) x).
Proof.
  apply (people_next_to_is_component example_chain 0); by_compute.
Defined.

Lemma people_next_to_same_table_witness :
  _get_people_next_to example_chain 2 = Ok ({[0; 1; 2]} : gset Z).
Proof.
  apply (people_next_to_same_table example_chain 0 2).
  - exact (cons_graph _ (proj1 example_chain_consistent)).
  - by_compute.
  - vm_compute. reflexivity.
  - by_compute.
Defined.

Lemma split_detection_exact_witness :
  ∃ b gs',
    _is_table_split example_chain 2 = Ok b ∧
    (∀ st', _remove_assignment example_chain 2 = Ok st' → self_g st' = gs') ∧
    (b = true ↔ ¬ connected gs' 2 (link (self_c example_chain) 2)).
Proof.
  apply (split_detection_exact example_chain 2).
  - exact (cons_graph _ (proj1 example_chain_consistent)).
  - exact (proj2 example_chain_consistent).
  - by_compute.
  - exact (cons_z _ (proj1 example_chain_consistent)).
Defined.

Lemma add_then_remove_restores_witness :
  ∃ st2, _remove_assignment example_rejoined 2 = Ok st2 ∧
         _is_table_split example_rejoined 2 = Ok true ∧
         self_c st2 = self_c example_split ∧
         self_g st2 = self_g example_split ∧
         self_K st2 = self_K example_split ∧
         same_partition (z (self_mixture example_split))
           (z (self_mixture st2)).
Proof.
  apply (add_then_remove_restores example_split example_rejoined 2 0 3 0).
  - exact (proj1 example_split_consistent).
  - exact (proj2 example_split_consistent).
  - by_compute.
  - vm_compute. reflexivity.
  - vm_compute. reflexivity.
  - discriminate.
  - exact example_rejoined_run.
Defined.

Lemma add_documents_keeps_invariant_witness :
  consistent example_singles ∧ all_assigned (self_c example_singles).
Proof.
  apply (add_documents_keeps_invariant example_batch example_start
           example_singles).
  - exact (proj1 example_start_consistent).
  - exact example_start_counted.
  - exact (proj2 example_start_consistent).
  - exact example_batch_draws.
  - exact example_batch_run.
Defined.

Lemma add_documents_counts_tables_witness :
  self_K example_singles
  = Z.of_nat (tables (z (self_mixture example_singles))) ∧
  length (self_ids example_singles) = length (self_c example_singles).
Proof.
  apply (add_documents_counts_tables example_batch example_start
           example_singles).
  - exact (proj1 example_start_consistent).
  - exact example_start_counted.
  - exact (proj2 example_start_consistent).
  - exact example_batch_draws.
  - exact example_batch_run.
Defined.

Lemma add_documents_appends_witness :
  self_N example_singles
  = self_N example_start + Z.of_nat (length example_batch) ∧
  self_N example_singles = Z.of_nat (length (self_c example_singles)) ∧
  self_ids example_singles
  = self_ids example_start ++ ((λ d, d.1.1) <$> example_batch) ∧
  self_timestamps example_singles
  = self_timestamps example_start
    ++ ((λ d, (d.1.2 / 86400)%R) <$> example_batch).
Proof.
  apply (add_documents_appends example_batch example_start example_singles).
  - exact (proj1 example_start_consistent).
  - exact example_start_counted.
  - exact (proj2 example_start_consistent).
  - exact example_batch_draws.
  - exact example_batch_run.
Defined.

Lemma add_document_seats_alone_witness :
  ∃ st', add_document example_chain 13 259200%R 0 = Ok st' ∧
    self_c st' = self_c example_chain ++ [self_N example_chain] ∧
    self_g st' = self_g example_chain ++ [{[self_N example_chain]}] ∧
    z (self_mixture st') = z (self_mixture example_chain) ++ [3] ∧
    (3 ∉ z (self_mixture example_chain)) ∧
    self_K st' = self_K example_chain + 1 ∧
    self_reusable_numbers st' = [1; 2].
Proof.
  apply (add_document_seats_alone example_chain 13 259200%R 0 3 [1; 2]).
  - exact (proj1 example_chain_consistent).
  - vm_compute. reflexivity.
  - vm_compute. discriminate.
Defined.

Lemma add_document_over_capacity_joins_witness :
  ∃ st', add_document example_four 14 345600%R 0 = Ok st' ∧
    self_c st' = self_c example_four ++ [0] ∧
    self_K st' = self_K example_four ∧
    z (self_mixture st') !! Z.to_nat (self_N example_four)
    = z (self_mixture st') !! Z.to_nat 0 ∧
    length (z (self_mixture st'))
    = S (length (z (self_mixture example_four))).
Proof.
  apply (add_document_over_capacity_joins example_four 14 345600%R 0 1 [2]).
  - exact (proj1 example_four_consistent).
  - exact (proj2 example_four_consistent).
  - vm_compute. reflexivity.
  - vm_compute. reflexivity.
  - vm_compute. split; [discriminate|reflexivity].
Defined.

Lemma example_chain_sample :
  ∃ st', _sample_document draw_first example_chain 2 = Ok st'.
Proof.
  apply (sample_document_total draw_first example_chain 2).
  - exact (proj1 example_chain_consistent).
  - exact (proj2 example_chain_consistent).
  - by_compute.
  - vm_compute. reflexivity.
  - change (0 < 1)%R. lra.
  - apply exponential_decay_positive; [reflexivity|].
    apply example_days. reflexivity.
  - exact draw_first_listed.
  - vm_compute. discriminate.
Qed.

Lemma sample_document_keeps_invariant_witness :
  ∃ st', _sample_document draw_first example_chain 2 = Ok st' ∧
    consistent st' ∧ all_assigned (self_c st') ∧
    self_N st' = self_N example_chain ∧
    self_ids st' = self_ids example_chain ∧
    self_timestamps st' = self_timestamps example_chain.
Proof.
  destruct example_chain_sample as [st' Hst']. exists st'.
  split; [exact Hst'|].
  apply (sample_document_keeps_invariant draw_first example_chain st' 2).
  - exact (proj1 example_chain_consistent).
  - exact example_chain_counted.
  - exact (proj2 example_chain_consistent).
  - by_compute.
  - exact draw_first_listed.
  - exact Hst'.
Defined.

Lemma sample_document_counts_tables_witness :
  ∃ st', _sample_document draw_first example_chain 2 = Ok st' ∧
    self_K st' = Z.of_nat (tables (z (self_mixture st'))).
Proof.
  destruct example_chain_sample as [st' Hst']. exists st'.
  split; [exact Hst'|].
  apply (sample_document_counts_tables draw_first example_chain st' 2).
  - exact (proj1 example_chain_consistent).
  - exact example_chain_counted.
  - exact (proj2 example_chain_consistent).
  - by_compute.
  - exact draw_first_listed.
  - exact Hst'.
Defined.

Lemma sample_document_returns_witness :
  ∃ st', _sample_document draw_first example_flat_singles 1 = Ok st'.
Proof.
  apply (sample_document_returns draw_first example_flat_singles 1).
  - exact (proj1 example_flat_consistent).
  - exact (proj2 (proj2 example_flat_consistent)).
  - by_compute.
  - vm_compute. reflexivity.
  - change (0 < 1)%R. lra.
  - exact (example_flat_positive example_flat_singles eq_refl).
  - exact draw_first_listed.
  - vm_compute. discriminate.
Defined.

Lemma log_weights_total_witness :
  ∃ logs st',
    _get_assignment_probabilities example_flat_singles 1 = Ok (logs, st') ∧
    length logs = length (self_g example_flat_singles).
Proof.
  apply (log_weights_total example_flat_singles 1).
  - by_compute.
  - by_compute.
  - vm_compute. reflexivity.
  - vm_compute. reflexivity.
  - vm_compute. reflexivity.
  - change (0 < 1)%R. lra.
  - exact (example_flat_positive example_flat_singles eq_refl).
Defined.

Lemma example_split_logs :
  ∃ logs st', _get_assignment_probabilities example_split 2 = Ok (logs, st').
Proof.
  destruct (get_assignment_probabilities_total example_split 2)
    as (logs & st' & H & _).
  - by_compute.
  - by_compute.
  - vm_compute. reflexivity.
  - vm_compute. reflexivity.
  - vm_compute. reflexivity.
  - change (0 < 1)%R. lra.
  - apply exponential_decay_positive; [reflexivity|].
    apply example_days. reflexivity.
  - eauto.
Qed.

Lemma get_assignment_probabilities_frame_witness :
  ∃ logs st',
    _get_assignment_probabilities example_split 2 = Ok (logs, st') ∧
    fst <$> logs = py_range (self_N example_split) ∧
    length logs = Z.to_nat (self_N example_split) ∧
    self_likelihood_cache example_split ⊆ self_likelihood_cache st'.
Proof.
  destruct example_split_logs as (logs & st' & H).
  destruct (get_assignment_probabilities_frame example_split st' 2 logs H)
    as (Hids & Hlen & _ & Hsub).
  exists logs, st'. auto.
Defined.

Lemma likelihood_under_z_cached_witness :
  ∃ v st' k l,
    _likelihood_under_z example_split 2 0 = Ok (v, st') ∧
    _get_people_next_to example_split 2 = Ok k ∧
    _get_people_next_to example_split 0 = Ok l ∧
    is_Some (self_likelihood_cache st' !! k) ∧
    is_Some (self_likelihood_cache st' !! l) ∧
    is_Some (self_likelihood_cache st' !! (k ∪ l)) ∧
    _likelihood_under_z st' 2 0 = Ok (v, st').
Proof.
  destruct (likelihood_under_z_total example_split 2 0) as (v & st' & H);
    [by_compute..|].
  destruct (likelihood_under_z_cached example_split st' 2 0 v H)
    as (k & l & vk & vl & vkl & Hk & Hl & Lk & Ll & Lkl & _ & _ & _ & Hagain).
  exists v, st', k, l. rewrite Lk, Ll, Lkl. eauto 10.
Defined.


Lemma iter_yields_every_customer_witness :
  ∃ items, __iter__ example_chain = Ok items ∧
    length items = length (self_c example_chain) ∧
    ∀ k c_k, self_c example_chain !! k = Some c_k →
      ∃ d zk l,
        self_ids example_chain !! k = Some d ∧
        z (self_mixture example_chain) !! k = Some zk ∧
        self_ids example_chain !! Z.to_nat c_k = Some l ∧
        items !! k = Some (d, zk, l).
Proof.
  apply (iter_yields_every_customer example_chain).
  - exact (proj1 example_chain_consistent).
  - exact example_chain_counted.
  - exact (proj2 example_chain_consistent).
Defined.

Lemma iter_unassigned_reports_last_witness :
  ∃ items d zk l,
    __iter__ example_split = Ok items ∧
    last (self_ids example_split) = Some l ∧
    items !! Z.to_nat 2 = Some (d, zk, l).
Proof.
  apply (iter_unassigned_reports_last example_split 2).
  - exact (proj1 example_split_consistent).
  - exact example_split_counted.
  - exact (proj2 example_split_consistent).
Defined.

Lemma exponential_decay_contract_witness :
  ∃ w, exponential_decay 2 1 = Ok w ∧ (0 <= w <= 1)%R ∧ (0 < w)%R.
Proof.
  destruct (exponential_decay_contract 2 1) as (w & Hw & Hr & _ & Hpos & _);
    [lra..|].
  exists w. split; [exact Hw|]. split; [exact Hr|]. apply Hpos. lra.
Defined.

Lemma logistic_decay_contract_witness :
  (∃ w, logistic_decay 1 1 = Ok w ∧ (0 <= w <= 1)%R ∧ w = (1 / 2)%R) ∧
  logistic_decay 0 1024 = Raise OverflowError.
Proof.
  split.
  - destruct (logistic_decay_contract 1 1) as [Hret _]; [lra|].
    destruct Hret as (w & Hw & Hr & Hmid & _); [lra|].
    exists w. auto.
  - destruct (logistic_decay_contract 0 1024) as [_ Hov]; [lra|].
    apply Hov. lra.
Defined.

Lemma example_sampled_reachable :
  ∃ st', _sample_document draw_first example_singles 1 = Ok st' ∧
         reachable st'.
Proof.
  destruct (sample_document_total draw_first example_singles 1)
    as [st' Hst'].
  - exact (proj1 example_singles_consistent).
  - exact (proj2 example_singles_consistent).
  - by_compute.
  - vm_compute. reflexivity.
  - change (0 < 1)%R. lra.
  - apply exponential_decay_positive; [reflexivity|].
    apply example_days. reflexivity.
  - exact draw_first_listed.
  - vm_compute. discriminate.
  - exists st'. split; [exact Hst'|].
    apply (reach_sample_document draw_first example_singles st' 1).
    + exact example_singles_reachable.
    + by_compute.
    + exact draw_first_listed.
    + exact Hst'.
Qed.

Lemma reachable_graph_mirrors_links_witness :
  self_N example_singles = Z.of_nat (length (self_c example_singles)) ∧
  length (self_g example_singles) = length (self_c example_singles) ∧
  length (z (self_mixture example_singles))
  = length (self_c example_singles) ∧
  length (self_ids example_singles) = length (self_c example_singles) ∧
  length (self_timestamps example_singles)
  = length (self_c example_singles) ∧
  ∀ a c_a g_a,
    self_c example_singles !! a = Some c_a →
    self_g example_singles !! a = Some g_a →
    in_range (length (self_c example_singles)) c_a ∧
    ∀ b, b ∈ g_a ↔
         in_range (length (self_c example_singles)) b ∧
         (c_a = b ∨ self_c example_singles !! Z.to_nat b = Some (Z.of_nat a)).
Proof.
  apply (reachable_graph_mirrors_links example_singles).
  exact example_singles_reachable.
Defined.

Lemma reachable_components_are_clusters_witness :
  ∃ st', _sample_document draw_first example_singles 1 = Ok st' ∧
    self_K st' = Z.of_nat (tables (z (self_mixture st'))) ∧
    ∀ a b, in_range (length (self_c st')) a →
           in_range (length (self_c st')) b →
      (connected (self_g st') a b ↔
       z (self_mixture st') !! Z.to_nat a
       = z (self_mixture st') !! Z.to_nat b).
Proof.
  destruct example_sampled_reachable as (st' & Hst' & Hreach).
  exists st'. split; [exact Hst'|].
  exact (reachable_components_are_clusters st' Hreach).
Defined.


Lemma add_document_capacity_spec_witness :
  ∃ st', add_document example_four 14 345600%R 4 = Ok st' ∧
    self_N st' = self_N example_four + 1 ∧
    self_c st' = self_c example_four ++ [4] ∧
    self_g st' = self_g example_four ++ [{[self_N example_four]}] ∧
    z (self_mixture st') = z (self_mixture example_four) ++ [1] ∧
    self_K st' = self_K example_four + 1.
Proof.
  pose proof (add_document_capacity_spec example_four 14 345600%R 4 1 [2]
                (proj1 example_four_consistent)
                (proj2 example_four_consistent)) as H.
  cbv zeta in H.
  destruct H as (_ & st' & Hadd & HN & _ & Hover).
  - vm_compute. reflexivity.
  - vm_compute. split; discriminate.
  - destruct Hover as (_ & Hc & _ & Hown); [vm_compute; reflexivity|].
    destruct Hown as (Hg & Hz & HK); [reflexivity|].
    exists st'. auto 10.
Defined.
